(** * blockdash-api: synchronisation and projection orchestration

    A shallow embedding of the ingestion pipeline
    ([app/neo4j_access/update_functionality.py]), the community
    detection writer ([app/neo4j_access/community_detection.py]), the
    community and centrality readers
    ([app/neo4j_access/community_functionality.py],
    [app/neo4j_access/centrality_functionality.py]) over an explicit
    model of the property graph they mutate through Cypher queries.

    Every [db.run_query] call of the source is one state transformer on
    the graph; the clauses of its Cypher text (MATCH, MERGE, CREATE, SET,
    ORDER BY, LIMIT) are given their Neo4j meaning.  Python exceptions are
    values of [exn]; Python locals that survive a loop iteration are
    fields of an explicit frame.  Python's [str.upper] is a parameter
    ([Casing]).

    What stays outside the model: the connection to the database (a query
    reaches it and is executed), the Redis timestamp and the cache
    deletion of [run_update], logging, and the shaping of results into
    response objects.  The event feed, the analytics engine and the cache
    deletion of a detection run are external: their answers are
    parameters.
    Nodes carry the internal id Neo4j gives them, so that two nodes with
    the same key properties remain two nodes. *)

From stdpp Require Import base gmap strings list.
From Stdlib Require Import ZArith Lia Ascii String List Permutation Sorted.
Import ListNotations.

Open Scope string_scope.
Open Scope list_scope.
Open Scope Z_scope.

(** ** Exceptions and results *)

Inductive exn : Type :=
| NotExistsException (msg : string)
| IndexError
| TypeError
| UnboundLocalError
| ClientError (msg : string).

Inductive result (A : Type) : Type :=
| Ok (a : A)
| Raise (e : exn).
Arguments Ok {A} a.
Arguments Raise {A} e.

#[global] Instance result_ret : MRet result := fun A a => Ok a.
#[global] Instance result_bind : MBind result := fun A B k r =>
  match r with
  | Ok a => k a
  | Raise e => Raise e
  end.

Definition is_ok {A : Type} (r : result A) : bool :=
  match r with Ok _ => true | Raise _ => false end.

(** ** Strings *)

(** A Python [str] is kept as the bytes of its UTF-8 encoding. *)

(** The upper-case form of an ASCII letter; other bytes are kept. *)
Definition ascii_upper_char (c : ascii) : ascii :=
  let n := nat_of_ascii c in
  if ((97 <=? n)%nat && (n <=? 122)%nat)%bool then ascii_of_nat (n - 32) else c.

Fixpoint ascii_upper (s : string) : string :=
  match s with
  | EmptyString => EmptyString
  | String c s' => String (ascii_upper_char c) (ascii_upper s')
  end.

(** A string of ASCII characters only. *)
Fixpoint plain (s : string) : bool :=
  match s with
  | EmptyString => true
  | String c s' => (nat_of_ascii c <? 128)%nat && plain s'
  end.

(** Python's [str.upper].  It is the case mapping of Unicode, whose table
    is not reproduced here: the function is a parameter of the readers
    that call it, and all that is fixed of it is what it does to a
    string of ASCII characters, where it turns the letters a-z into A-Z
    and keeps the rest.  What is proved of the readers holds for every
    function that does so, Python's among them. *)
Class Casing : Type := {
  upper : string -> string;
  upper_plain : forall s, plain s = true -> upper s = ascii_upper s
}.

(** [x in xs] on a Python list of strings. *)
Definition str_in (x : string) (xs : list string) : bool :=
  existsb (String.eqb x) xs.

(** ** The property graph *)

Module Graph.

(** An [:Account] node.  [acc_props] holds the per-collection membership
    arrays, keyed by property name ([<collection>_com_id_list]). *)
Record Account : Type := mkAccount {
  acc_id : nat;
  address : string;
  acc_props : gmap string (list Z)
}.

(** An [:NFT] node. *)
Record NFT : Type := mkNFT {
  nft_id : nat;
  identifier : string;
  collection_name : string;
  updated_at : Z;
  nft_props : gmap string (list Z)
}.

(** An [:OWNED] relationship, Account -> NFT. *)
Record Owned : Type := mkOwned {
  o_src : nat;
  o_dst : nat;
  currently_owned : bool;
  owned_from : option Z;
  owned_until : Z
}.

Inductive prop_value : Type :=
| PInt (z : Z)
| PStr (s : string).

(** The payment properties a sale relationship carries. *)
Record Terms : Type := mkTerms {
  transaction_value : Z;
  transaction_token_symbol : string;
  transaction_token_decimals : prop_value;
  transaction_token : string
}.

(** A [:TRANSACTED] relationship, Account -> Account. *)
Record Transacted : Type := mkTransacted {
  t_src : nat;
  t_dst : nat;
  event_type : string;
  t_collection_name : string;
  transaction_hash : string;
  transaction_timestamp : Z;
  t_identifier : string;
  t_terms : option Terms
}.

Record graph : Type := mkGraph {
  accounts : list Account;
  nfts : list NFT;
  owned : list Owned;
  transacted : list Transacted;
  next_id : nat
}.

(** *** The event record handed over by the feed *)

Record Payment : Type := mkPayment {
  quantity : Z;
  symbol : string;
  decimals : Z;
  token_address : string
}.

Record NftRef : Type := mkNftRef {
  ref_identifier : string;
  ref_collection : string
}.

Record Event : Type := mkEvent {
  ev_type : string;
  from_address : string;
  to_address : string;
  nft : NftRef;
  transaction : string;
  event_timestamp : Z;
  payment : option Payment
}.

(** *** Pattern matching of the queries *)

Definition mock_data : list Z := [1; 2; 3].

Definition has_address (a : string) (x : Account) : bool :=
  String.eqb (address x) a.

(** The node pattern of [query0]:
    [(:Account {address: $a, boredapeyachtclub_com_id_list: $mock_data,
                complete_com_id_list: $mock_data, degods_com_id_list: $mock_data})]. *)
Definition matches_query0 (a : string) (x : Account) : bool :=
  has_address a x
  && bool_decide (acc_props x !! "boredapeyachtclub_com_id_list" = Some mock_data)
  && bool_decide (acc_props x !! "complete_com_id_list" = Some mock_data)
  && bool_decide (acc_props x !! "degods_com_id_list" = Some mock_data).

Definition query0_props : gmap string (list Z) :=
  <["boredapeyachtclub_com_id_list" := mock_data]>
    (<["complete_com_id_list" := mock_data]>
       (<["degods_com_id_list" := mock_data]> ∅)).

(** [MERGE (x:Account {...})]: bind the matching nodes, create one when
    there is none. *)
Definition merge_account (a : string) (g : graph) : graph :=
  if existsb (matches_query0 a) (accounts g) then g
  else {| accounts := accounts g ++ [mkAccount (next_id g) a query0_props];
          nfts := nfts g;
          owned := owned g;
          transacted := transacted g;
          next_id := S (next_id g) |}.

Definition query0 (to_a from_a : string) (g : graph) : graph :=
  merge_account from_a (merge_account to_a g).

(** [(nft:NFT {identifier: $identifier, collection_name: $collection_name})] *)
Definition matches_nft (i c : string) (n : NFT) : bool :=
  String.eqb (identifier n) i && String.eqb (collection_name n) c.

Definition account_ids (a : string) (g : graph) : list nat :=
  map acc_id (List.filter (has_address a) (accounts g)).

Definition nft_ids (i c : string) (g : graph) : list nat :=
  map nft_id (List.filter (matches_nft i c) (nfts g)).

Definition edge_key (e : Owned) : nat * nat := (o_src e, o_dst e).

Definition is_edge (k : nat * nat) (e : Owned) : bool :=
  (o_src e =? fst k)%nat && (o_dst e =? snd k)%nat.

(** [MERGE (a)-[r:OWNED]->(n) ON CREATE SET ... ON MATCH SET ...] between
    two bound nodes: every existing relationship a -> n is updated by
    [on_match]; when there is none, [on_create] is added. *)
Definition merge_owned (on_match : Owned -> Owned) (on_create : nat * nat -> Owned)
    (es : list Owned) (k : nat * nat) : list Owned :=
  if existsb (is_edge k) es
  then map (fun e => if is_edge k e then on_match e else e) es
  else es ++ [on_create k].

(** Whether a relationship joins one of the pairs of [rows]. *)
Definition touched (rows : list (nat * nat)) (e : Owned) : bool :=
  existsb (fun k => is_edge k e) rows.

(** [SET ro.currently_owned = $not_owned, ro.until = $from_until] *)
Definition close_match (ts : Z) (e : Owned) : Owned :=
  mkOwned (o_src e) (o_dst e) false (owned_from e) ts.
Definition close_create (ts : Z) (k : nat * nat) : Owned :=
  mkOwned (fst k) (snd k) false None ts.

(** [SET r.currently_owned = $yes_owned, r.from = $time_stamp, r.until = $to_until] *)
Definition open_match (ts : Z) (e : Owned) : Owned :=
  mkOwned (o_src e) (o_dst e) true (Some ts) 0.
Definition open_create (ts : Z) (k : nat * nat) : Owned :=
  mkOwned (fst k) (snd k) true (Some ts) 0.

(** The relationships after [query1].  The first MATCH yields one row
    per (from account, nft) pair; after [WITH ro] the second MATCH and
    MERGE run once per row, so they run at all only when the first part
    produced a row. *)
Definition query1_owned (ts : Z) (froms tos ns : list nat) (es : list Owned) : list Owned :=
  match list_prod froms ns with
  | [] => es
  | rows =>
    fold_left (merge_owned (open_match ts) (open_create ts)) (list_prod tos ns)
      (fold_left (merge_owned (close_match ts) (close_create ts)) rows es)
  end.

Definition query1 (to_a from_a : string) (ts : Z) (i c : string) (g : graph) : graph :=
  {| accounts := accounts g; nfts := nfts g;
     owned := query1_owned ts (account_ids from_a g) (account_ids to_a g) (nft_ids i c g)
                (owned g);
     transacted := transacted g; next_id := next_id g |}.

(** [query2_transfer] / [query2_sale]: one CREATE per (from, to) pair of
    matched account nodes. *)
Definition query2 (to_a from_a : string) (mk : nat * nat -> Transacted) (g : graph) : graph :=
  {| accounts := accounts g; nfts := nfts g; owned := owned g;
     transacted := transacted g ++ map mk (list_prod (account_ids from_a g) (account_ids to_a g));
     next_id := next_id g |}.

Definition transfer_edge (data : Event) (k : nat * nat) : Transacted :=
  mkTransacted (fst k) (snd k) "Transfer" (ref_collection (nft data)) (transaction data)
    (event_timestamp data) (ref_identifier (nft data)) None.

Definition sale_edge (data : Event) (k : nat * nat) : Transacted :=
  mkTransacted (fst k) (snd k) "Sale and Transfer" (ref_collection (nft data)) (transaction data)
    (event_timestamp data) (ref_identifier (nft data))
    (Some match payment data with
          | Some p => mkTerms (quantity p) (symbol p) (PInt (decimals p)) (token_address p)
          | None => mkTerms 0 "unknown" (PStr "unknown") "unknown"
          end).

(** [UpdateFunctionality.insert_new_trx_data] *)
Definition insert_new_trx_data (data : Event) (g : graph) : graph :=
  let g0 := query0 (to_address data) (from_address data) g in
  let g1 := query1 (to_address data) (from_address data) (event_timestamp data)
              (ref_identifier (nft data)) (ref_collection (nft data)) g0 in
  if String.eqb (ev_type data) "transfer"
  then query2 (to_address data) (from_address data) (transfer_edge data) g1
  else query2 (to_address data) (from_address data) (sale_edge data) g1.

(** [UpdateFunctionality.update_nft_node]:
    [MATCH (n:NFT) WHERE n.collection_name = ... AND n.identifier = ...
     SET n.updated_at = ...] *)
Definition update_nft_node (c i : string) (t : Z) (g : graph) : graph :=
  {| accounts := accounts g;
     nfts := map (fun n => if matches_nft i c n
                           then mkNFT (nft_id n) (identifier n) (collection_name n) t (nft_props n)
                           else n) (nfts g);
     owned := owned g; transacted := transacted g; next_id := next_id g |}.

(** *** Observations used by the statements *)

(** How many TRANSACTED relationships carry the key (txHash, identifier). *)
Definition has_key (h i : string) (t : Transacted) : bool :=
  String.eqb (transaction_hash t) h && String.eqb (t_identifier t) i.

Definition count_transacted (h i : string) (g : graph) : nat :=
  length (List.filter (has_key h i) (transacted g)).

Definition count_accounts (a : string) (g : graph) : nat :=
  length (List.filter (has_address a) (accounts g)).

(** The OWNED relationships into node [n] that are flagged currently owned. *)
Definition holds (n : nat) (e : Owned) : bool :=
  (o_dst e =? n)%nat && currently_owned e.

Definition current_owners (n : nat) (es : list Owned) : list Owned :=
  List.filter (holds n) es.

(** The succession invariant of the spec. *)
Definition succession (g : graph) : Prop :=
  forall n, (length (current_owners n (owned g)) <= 1)%nat.

(** No two OWNED relationships join the same pair of nodes. *)
Definition simple_owned (g : graph) : Prop := List.NoDup (map edge_key (owned g)).

(** After the upsert of step 1 the receiving address has one Account node. *)
Definition sole_receiver (data : Event) (g : graph) : bool :=
  (count_accounts (to_address data)
     (query0 (to_address data) (from_address data) g) =? 1)%nat.

(** Every currently-owned relationship into the event's NFT starts at an
    account with the event's from or to address. *)
Definition held_by_parties (data : Event) (g : graph) : bool :=
  forallb (fun e =>
      negb (currently_owned e
            && existsb (Nat.eqb (o_dst e))
                 (nft_ids (ref_identifier (nft data)) (ref_collection (nft data)) g))
      || existsb (Nat.eqb (o_src e))
           (account_ids (from_address data) g ++ account_ids (to_address data) g))
    (owned g).

(** A sequence of events each of which meets the two conditions in the
    state it is applied to. *)
Fixpoint well_chained (events : list Event) (g : graph) : Prop :=
  match events with
  | [] => True
  | data :: rest =>
    sole_receiver data g = true /\ held_by_parties data g = true /\
    well_chained rest (insert_new_trx_data data g)
  end.

(** [for one in events: self.insert_new_trx_data(one)] *)
Definition insert_all (events : list Event) (g : graph) : graph :=
  fold_left (fun g one => insert_new_trx_data one g) events g.

End Graph.

(** ** The ingestion coordinator *)

Module Ingest.
Import Graph.

(** One page of the event feed, [{asset_events: [...], next: "..."}]. *)
Record Response : Type := mkResponse {
  asset_events : list Event;
  next : string
}.

(** What one call of [query_api.query_nft_trx_data] does: it returns the
    decoded body with the HTTP status code, or raises (no connection, a
    body that is not JSON). *)
Inductive Reply : Type :=
| Returns (response : Response) (code : Z)
| Fails.

Record Request : Type := mkRequest {
  collection_contract : string;
  req_identifier : string;
  after : Z;
  till : Z;
  cursor : option string
}.

(** The feed is an external collaborator: its reply may depend on the
    request and on how many calls came before. *)
Definition Feed : Type := nat -> Request -> Reply.

(** One element of [ids_list]. *)
Record IdInfo : Type := mkIdInfo {
  id : string;
  id_updated_at : Z
}.

(** The locals of [get_data_from_opensea] that outlive one iteration of
    its [for] loop, with the graph and the log of feed requests.
    [result] and [status_code] are [None] while the name is unbound. *)
Record frame : Type := mkFrame {
  db : graph;
  requests : list Request;
  result : option Response;
  status_code : option Z
}.

Inductive outcome : Type :=
| Done (fr : frame)
| Throws (e : exn) (fr : frame)
| NoFuel.

Definition call (feed : Feed) (rq : Request) (fr : frame) : Reply * frame :=
  (feed (length (requests fr)) rq,
   mkFrame (db fr) (requests fr ++ [rq]) (result fr) (status_code fr)).

(** Lines 234-244: the first request of an entity.  The second component
    tells whether the [break] was reached. *)
Definition first_page (feed : Feed) (addr : string) (info : IdInfo) (t : Z) (fr : frame)
    : frame * bool :=
  let '(reply, fr1) := call feed (mkRequest addr (id info) (id_updated_at info) t None) fr in
  match reply with
  | Returns r code =>
    match asset_events r with
    | [] => (mkFrame (db fr1) (requests fr1) (Some r) (Some code), false)
    | evs => (mkFrame (insert_all evs (db fr1)) (requests fr1) (Some r) (Some code), true)
    end
  | Fails => (fr1, false)
  end.

(** Lines 246-257: the [while] loop on a non-empty [result['next']].  Reading [result]
    while it is unbound raises; a request that raises is logged and the
    loop condition is read again. *)
Fixpoint page_walk (fuel : nat) (feed : Feed) (addr : string) (info : IdInfo) (t : Z)
    (fr : frame) : outcome :=
  match result fr with
  | None => Throws UnboundLocalError fr
  | Some r =>
    if String.eqb (next r) EmptyString then Done fr
    else
      match fuel with
      | O => NoFuel
      | S fuel' =>
        let '(reply, fr1) :=
          call feed (mkRequest addr (id info) (id_updated_at info) t (Some (next r))) fr in
        match reply with
        | Returns r' code =>
          page_walk fuel' feed addr info t
            (mkFrame (insert_all (asset_events r') (db fr1)) (requests fr1) (Some r') (Some code))
        | Fails => page_walk fuel' feed addr info t fr1
        end
      end
  end.

(** Lines 259-262. *)
Definition mark_done (c : string) (info : IdInfo) (t : Z) (fr : frame) : outcome :=
  match status_code fr with
  | None => Throws UnboundLocalError fr
  | Some code =>
    if (code =? 200)%Z
    then Done (mkFrame (update_nft_node c (id info) t (db fr)) (requests fr)
                 (result fr) (status_code fr))
    else Done fr
  end.

Definition is_due (t last : Z) : bool := (2 * 86400 <=? t - last)%Z.

(** [UpdateFunctionality.get_data_from_opensea].  [fuel] bounds the page
    requests of each entity. *)
Fixpoint get_data_from_opensea (fuel : nat) (feed : Feed) (c : string) (t : Z) (addr : string)
    (ids_list : list IdInfo) (fr : frame) : outcome :=
  match ids_list with
  | [] => Done fr
  | id_info :: rest =>
    if is_due t (id_updated_at id_info) then
      match first_page feed addr id_info t fr with
      | (fr1, true) => Done fr1
      | (fr1, false) =>
        match page_walk fuel feed addr id_info t fr1 with
        | Done fr2 =>
          match mark_done c id_info t fr2 with
          | Done fr3 => get_data_from_opensea fuel feed c t addr rest fr3
          | other => other
          end
        | other => other
        end
      end
    else get_data_from_opensea fuel feed c t addr rest fr
  end.

(** [UpdateFunctionality.get_processed_collection_name] *)
Definition get_processed_collection_name (c : string) : string :=
  if String.eqb c "degods-eth" then "degods"
  else if String.eqb c "boredapeyachtclub" then "boredapeyachtclub"
  else if String.eqb c "complete" then "complete"
  else c.

(** An [:Update_Info] node. *)
Record UpdateInfo : Type := mkUpdateInfo {
  info_collection_name : string;
  collection_address : string;
  update_frequency : Z
}.

Definition info_for (c : string) (infos : list UpdateInfo) : list UpdateInfo :=
  List.filter (fun n => String.eqb (info_collection_name n) (get_processed_collection_name c)) infos.

(** [UpdateFunctionality.get_update_frequency] *)
Definition get_update_frequency (c : string) (infos : list UpdateInfo) : Z :=
  match info_for c infos with
  | n :: _ => update_frequency n
  | [] => 86000
  end.

(** [UpdateFunctionality.get_identifier_id_list] *)
Definition get_identifier_id_list (c : string) (g : graph) : list IdInfo :=
  map (fun n => mkIdInfo (identifier n) (updated_at n))
    (List.filter (fun n => String.eqb (collection_name n) (get_processed_collection_name c)) (nfts g)).

(** How a call of [run_update] ends: normally, with the graph it leaves;
    with an exception of its own; or never, as far as the fuel tells. *)
Inductive run_outcome : Type :=
| Completed (g : graph)
| Crashed (e : exn)
| Starved.

(** [UpdateFunctionality.run_update]: the exception of the feed walk is
    caught and logged; the Redis timestamp and the cache are outside the
    model. *)
Definition run_update (fuel : nat) (feed : Feed) (t : Z) (c : string)
    (infos : list UpdateInfo) (g : graph) : run_outcome :=
  match info_for c infos with
  | [] => Crashed IndexError
  | n :: _ =>
    match get_data_from_opensea fuel feed c t (collection_address n)
            (get_identifier_id_list c g) (mkFrame g [] None None) with
    | Done fr => Completed (db fr)
    | Throws _ fr => Completed (db fr)
    | NoFuel => Starved
    end
  end.

(** The timestamp the run's enumeration reads for an entity. *)
Definition last_synchronized (c i : string) (g : graph) : list Z :=
  map updated_at (List.filter (matches_nft i c) (nfts g)).

(** The requests of the log that concern entity [i]. *)
Definition requests_for (i : string) (fr : frame) : list Request :=
  List.filter (fun rq => String.eqb (req_identifier rq) i) (requests fr).

(** The run returned normally with a frame satisfying [P]. *)
Definition returns (o : outcome) (P : frame -> Prop) : Prop :=
  match o with
  | Done fr => P fr
  | _ => False
  end.

(** The run was left by exception [e] with a frame satisfying [P]. *)
Definition raises (o : outcome) (e : exn) (P : frame -> Prop) : Prop :=
  match o with
  | Throws e' fr => e' = e /\ P fr
  | _ => False
  end.

End Ingest.

(** ** The graph store with its projection catalog *)

Module Store.

(** The database as the analytical operations see it: the property graph,
    the [:Community_Info] nodes (each a map from property name to the
    decoded two-dimensional id array it stores as JSON text) and the names
    in the projection catalog of the analytics engine. *)
Record db : Type := mkDb {
  graph : Graph.graph;
  infos : list (gmap string (list (list Z)));
  catalog : list string
}.

(** The analytics engine is invoked, not reimplemented: what an algorithm
    streams for a projection is given from outside, and a call may raise. *)
Record engine : Type := mkEngine {
  louvain_stream : string -> result (list (nat * Z));
  degree_stream : string -> result (list nat)
}.

(** Code that raises leaves its earlier writes in the database. *)
Definition M (A : Type) : Type := db -> result A * db.

#[global] Instance M_ret : MRet M := fun A a d => (Ok a, d).
#[global] Instance M_bind : MBind M := fun A B k m d =>
  match m d with
  | (Ok a, d') => k a d'
  | (Raise e, d') => (Raise e, d')
  end.

(** Code that leaves the projection catalog as it found it. *)
Definition keeps_catalog {A : Type} (m : M A) : Prop :=
  forall d, catalog (snd (m d)) = catalog d.

Definition throw {A : Type} (e : exn) : M A := fun d => (Raise e, d).
Definition lift {A : Type} (r : result A) : M A := fun d => (r, d).

Definition with_catalog (c : list string) (d : db) : db :=
  mkDb (graph d) (infos d) c.
Definition with_graph (g : Graph.graph) (d : db) : db :=
  mkDb g (infos d) (catalog d).
Definition with_infos (i : list (gmap string (list (list Z)))) (d : db) : db :=
  mkDb (graph d) i (catalog d).

(** [CALL gds.graph.list()], projected on [graphName]. *)
Definition graph_list : M (list string) := fun d => (Ok (catalog d), d).

Definition without (name : string) (c : list string) : list string :=
  List.filter (fun x => negb (String.eqb name x)) c.

(** [CALL gds.graph.drop(name)]: an error when no such projection exists. *)
Definition graph_drop (name : string) : M unit := fun d =>
  if str_in name (catalog d)
  then (Ok tt, with_catalog (without name (catalog d)) d)
  else (Raise (ClientError "graph does not exist"), d).

(** [CALL gds.graph.project(name, ...)] and [gds.graph.project.cypher]: an
    error when the name is taken. *)
Definition graph_project (name : string) : M unit := fun d =>
  if str_in name (catalog d)
  then (Raise (ClientError "graph already exists"), d)
  else (Ok tt, with_catalog (catalog d ++ [name]) d).

(** An algorithm call bound to a named projection. *)
Definition stream {A : Type} (algo : string -> result A) (name : string) : M A := fun d =>
  if str_in name (catalog d) then (algo name, d)
  else (Raise (ClientError "graph does not exist"), d).

(** [LIMIT n] *)
Definition limit_clause {A : Type} (n : Z) (rows : list A) : result (list A) :=
  if (n <? 0)%Z then Raise (ClientError "negative LIMIT") else Ok (firstn (Z.to_nat n) rows).

(** [for x in xs: body(x)] *)
Fixpoint for_each {A : Type} (body : A -> M unit) (xs : list A) : M unit :=
  match xs with
  | [] => mret tt
  | x :: xs' => _ ← body x; for_each body xs'
  end.

End Store.

(** ** The centrality service *)

Module Centrality.
Import Store.

(** [CentralityLogic.get_collection] *)
Definition get_collection {U : Casing} (collection : list string) : result string :=
  let collection_upper := map upper collection in
  match collection_upper with
  | [c] =>
    if String.eqb c "BOREDAPES" then Ok "boredapeyachtclub"
    else if String.eqb c "DEGODS" then Ok "degods-eth"
    else Raise (NotExistsException "Collection does not exist")
  | [_; _] =>
    if str_in "BOREDAPES" collection_upper && str_in "DEGODS" collection_upper
    then Ok EmptyString
    else Raise (NotExistsException "Collection does not exist")
  | _ => Raise (NotExistsException "Collection does not exist")
  end.

(** [CentralityLogic.get_most_central_nodes], up to the list of central
    nodes; the relationships between them are read afterwards without
    touching the catalog. *)
Definition get_most_central_nodes {U : Casing} (eng : engine) (limit : Z)
    (collection : list string) : M (list nat) :=
  _ ← lift (get_collection collection);
  graph_names ← graph_list;
  _ ← (if str_in "centralityGraph" graph_names then graph_drop "centralityGraph" else mret tt);
  _ ← graph_project "centralityGraph";
  scored ← stream (degree_stream eng) "centralityGraph";
  central_nodes ← lift (limit_clause limit scored);
  _ ← graph_drop "centralityGraph";
  mret central_nodes.

End Centrality.

(** ** The community membership writer *)

Module CommunityDetection.
Import Graph Store.

(** [CommunityDetection.get_processed_collection_name] *)
Definition get_processed_collection_name (c : string) : string :=
  if String.eqb c "degods-eth" then "degods"
  else if String.eqb c "boredapeyachtclub" then "boredapeyachtclub"
  else if String.eqb c "complete" then "complete"
  else c.

(** The value of property [p] of the Account or NFT node with id [v]. *)
Definition node_property (p : string) (v : nat) (g : Graph.graph) : option (list Z) :=
  match List.find (fun a => (acc_id a =? v)%nat) (accounts g) with
  | Some a => acc_props a !! p
  | None =>
    match List.find (fun n => (nft_id n =? v)%nat) (nfts g) with
    | Some n => nft_props n !! p
    | None => None
    end
  end.

(** [MATCH (n) WHERE id(n) = v SET n.p = value] *)
Definition set_node_property (p : string) (v : nat) (value : list Z) (g : Graph.graph)
    : Graph.graph :=
  mkGraph
    (map (fun a => if (acc_id a =? v)%nat
                   then mkAccount (acc_id a) (address a) (<[p := value]> (acc_props a))
                   else a) (accounts g))
    (map (fun n => if (nft_id n =? v)%nat
                   then mkNFT (nft_id n) (identifier n) (collection_name n) (updated_at n)
                          (<[p := value]> (nft_props n))
                   else n) (nfts g))
    (owned g) (transacted g) (next_id g).

(** [original_value[scope] = communityId] on the value read for a node:
    [None] has no item assignment, a short list has no such index. *)
Definition assign_slot (scope : nat) (communityId : Z) (original_value : option (list Z))
    : result (list Z) :=
  match original_value with
  | None => Raise TypeError
  | Some l => if (scope <? length l)%nat then Ok (<[scope := communityId]> l) else Raise IndexError
  end.

(** The loop of [update_nodes_com_property] that builds [node_updates]. *)
Fixpoint node_updates (p : string) (scope : nat) (communityId : Z) (nodes : list nat)
    (g : Graph.graph) : result (list (nat * list Z)) :=
  match nodes with
  | [] => Ok []
  | v :: rest =>
    value ← assign_slot scope communityId (node_property p v g);
    more ← node_updates p scope communityId rest g;
    Ok ((v, value) :: more)
  end.

(** [CommunityDetection.update_node_properties] *)
Definition update_node_properties (updates : list (nat * list Z)) (p : string)
    (g : Graph.graph) : Graph.graph :=
  fold_left (fun g u => set_node_property p (fst u) (snd u) g) updates g.

Definition com_id_list (c : string) : string :=
  get_processed_collection_name c +:+ "_com_id_list".

(** [CommunityDetection.update_nodes_com_property] *)
Definition update_nodes_com_property (c : string) (communityId : Z) (nodes : list nat)
    (scope : nat) : M unit := fun d =>
  match node_updates (com_id_list c) scope communityId nodes (graph d) with
  | Ok updates => (Ok tt, with_graph (update_node_properties updates (com_id_list c) (graph d)) d)
  | Raise e => (Raise e, d)
  end.

Definition id_list (c : string) : string :=
  get_processed_collection_name c +:+ "_id_list".

(** [CommunityDetection.update_community_id_info].  The JSON text of the
    property is kept decoded; [timestamp()] is not modelled. *)
Definition update_community_id_info (idList : list Z) (c : string) (scope : nat) : M unit :=
  fun d =>
  match infos d with
  | [] => (Raise IndexError, d)
  | record :: _ =>
    match record !! id_list c with
    | None => (Raise TypeError, d)
    | Some array_property =>
      if (scope <? length array_property)%nat
      then (Ok tt,
            with_infos (map (fun n => <[id_list c := <[scope := idList]> array_property]> n)
                          (infos d)) d)
      else (Raise IndexError, d)
    end
  end.

(** One row of the detection query: a community id with its members. *)
Record Row : Type := mkRow {
  communityId : Z;
  nodeList : list nat
}.

Definition size (r : Row) : nat := length (nodeList r).

(** [RETURN communityId, COLLECT(node) AS nodeList]: the stream grouped by
    community id. *)
Fixpoint add_member (v : nat) (cid : Z) (rows : list Row) : list Row :=
  match rows with
  | [] => [mkRow cid [v]]
  | r :: rows' =>
    if (communityId r =? cid)%Z then mkRow cid (nodeList r ++ [v]) :: rows'
    else r :: add_member v cid rows'
  end.

Definition collect (records : list (nat * Z)) : list Row :=
  fold_left (fun rows p => add_member (fst p) (snd p) rows) records [].

(** [ORDER BY size(nodes) DESC] *)
Fixpoint place (r : Row) (rows : list Row) : list Row :=
  match rows with
  | [] => [r]
  | x :: rows' => if (size x <? size r)%nat then r :: x :: rows' else x :: place r rows'
  end.

Definition order_by_size_desc (rows : list Row) : list Row :=
  fold_right place [] rows.

(** The detection query on projection [name]; [LIMIT] is appended only
    when [limit != 0]. *)
Definition com_query (eng : engine) (name : string) (limit : Z) : M (list Row) :=
  records ← stream (louvain_stream eng) name;
  let rows := order_by_size_desc (collect records) in
  if (limit =? 0)%Z then mret rows else lift (limit_clause limit rows).

(** The rows the detection query returns for a stream of the engine. *)
Definition query_rows (limit : Z) (records : list (nat * Z)) : list Row :=
  let rows := order_by_size_desc (collect records) in
  if (limit =? 0)%Z then rows else firstn (Z.to_nat limit) rows.

(** The nodes the engine put into community [cid]. *)
Definition members_of (cid : Z) (records : list (nat * Z)) : list nat :=
  map fst (List.filter (fun p => (snd p =? cid)%Z) records).

(** [rows] are the communities of the stream [seen]: one row per community
    id, listing the nodes the stream gave that id, in stream order. *)
Definition grouped (seen : list (nat * Z)) (rows : list Row) : Prop :=
  List.NoDup (map communityId rows) /\
  (forall r, In r rows -> nodeList r = members_of (communityId r) seen) /\
  (forall p, In p seen -> In (snd p) (map communityId rows)).

(** One of the three blocks of [update_community_detection]: the query on
    the projection with the given suffix and the writes into slot
    [scope]. *)
Definition detect (eng : engine) (limit : Z) (c suffix : string) (scope : nat) : M unit :=
  community_result ← com_query eng (c +:+ suffix) limit;
  _ ← for_each (fun record =>
         update_nodes_com_property c (communityId record) (nodeList record) scope)
       community_result;
  update_community_id_info (map communityId community_result) c scope.

(** [CommunityDetection.update_community_detection] *)
Definition update_community_detection (eng : engine) (limit : Z) (c : string) : M unit :=
  _ ← detect eng limit c "_owned" 0%nat;
  _ ← detect eng limit c "_trx" 1%nat;
  detect eng limit c "_owned_trx" 2%nat.

(** [CommunityDetection.update_project_graph]; [update_project_graph_complete]
    is the instance at ["complete"] (it differs in the node and
    relationship filters only). *)
Definition update_project_graph (c : string) : M unit :=
  graph_names ← graph_list;
  _ ← for_each graph_drop graph_names;
  _ ← graph_project (c +:+ "_owned");
  _ ← graph_project (c +:+ "_trx");
  graph_project (c +:+ "_owned_trx").

Definition update_project_graph_complete : M unit := update_project_graph "complete".

(** [CommunityDetection.run_community_detection].  The call of
    [delete_cache_keys] that follows the detection inside the [try]
    reaches Redis, not the database: whether it returns or raises is
    given from outside.  Every exception is caught and turned into the
    second message. *)
Definition run_community_detection (eng : engine) (delete_cache_keys : result unit)
    (limit : Z) (c : string) (d : db) : string * db :=
  let body :=
    _ ← (if String.eqb c "complete" then update_project_graph_complete
         else update_project_graph c);
    _ ← update_community_detection eng limit c;
    lift delete_cache_keys in
  match body d with
  | (Ok _, d') => ("Update Completed", d')
  | (Raise _, d') => ("Something went wrong QAQ", d')
  end.

(** *** Observations used by the statements *)

(** Slot [scope] of the membership array of node [v] for collection [c]. *)
Definition membership (c : string) (v : nat) (scope : nat) (g : Graph.graph) : option Z :=
  node_property (com_id_list c) v g ≫= (fun l => l !! scope).

(** The community of the last row that lists node [v]. *)
Fixpoint assigned (v : nat) (rows : list Row) : option Z :=
  match rows with
  | [] => None
  | r :: rest =>
    match assigned v rest with
    | Some cid => Some cid
    | None => if existsb (Nat.eqb v) (nodeList r) then Some (communityId r) else None
    end
  end.

(** Slot [scope] of the summary array of collection [c] in one
    [:Community_Info] node. *)
Definition summary (c : string) (scope : nat) (record : gmap string (list (list Z)))
    : option (list Z) :=
  record !! id_list c ≫= (fun array_property => array_property !! scope).

(** Rows in descending order of size. *)
Definition descending (rows : list Row) : Prop :=
  StronglySorted (fun r r' => (size r' <= size r)%nat) rows.

(** Node [v] carries a membership array for collection [c] with the three
    slots. *)
Definition has_slots (c : string) (g : Graph.graph) (v : nat) : bool :=
  match node_property (com_id_list c) v g with
  | Some l => (3 <=? length l)%nat
  | None => false
  end.

(** The first [:Community_Info] node has a summary array for collection
    [c] with the three slots. *)
Definition shaped (c : string) (d : db) : Prop :=
  exists record rest array_property,
    infos d = record :: rest /\ record !! id_list c = Some array_property /\
    (3 <= length array_property)%nat.

(** What a detection run needs to complete: a LIMIT that is not negative,
    the three projections in the catalog, an engine that answers for each
    with nodes that carry a three-slot membership array, and a first
    [:Community_Info] node whose summary array has the three slots. *)
Definition ready (eng : engine) (limit : Z) (c : string) (d : db) : bool :=
  (0 <=? limit)%Z
  && forallb (fun suffix =>
        str_in (c +:+ suffix) (catalog d)
        && match louvain_stream eng (c +:+ suffix) with
           | Ok records => forallb (fun p => has_slots c (graph d) (fst p)) records
           | Raise _ => false
           end) ["_owned"; "_trx"; "_owned_trx"]
  && match infos d with
     | record :: _ =>
       match record !! id_list c with
       | Some array_property => (3 <=? length array_property)%nat
       | None => false
       end
     | [] => false
     end.

(** The projection each scope label of the reader stands for, as the
    comments of [update_project_graph] and the docstring of
    [get_single_community] pair them. *)
Definition scope_projection : list (string * (string * nat)) :=
  [("ownership", ("_owned", 0%nat));
   ("transaction", ("_trx", 1%nat));
   ("all", ("_owned_trx", 2%nat))].

End CommunityDetection.

(** ** The community reader *)

Module CommunityLogic.
Import Graph Store.

(** [CommunityLogic.get_scope] *)
Definition get_scope {U : Casing} (scope : string) : result nat :=
  if String.eqb (upper scope) "OWNERSHIP" then Ok 0%nat
  else if String.eqb (upper scope) "TRANSACTION" then Ok 1%nat
  else if String.eqb (upper scope) "ALL" then Ok 2%nat
  else Raise (NotExistsException ("scope " +:+ scope +:+ " does not exists")).

(** [CommunityLogic.get_collection] *)
Definition get_collection {U : Casing} (collection : list string) : result string :=
  let collection_upper := map upper collection in
  match collection_upper with
  | [c] =>
    if String.eqb c "BOREDAPES" then Ok "boredapeyachtclub"
    else if String.eqb c "DEGODS" then Ok "degods"
    else Raise (NotExistsException "Collection does not exist")
  | [_; _] =>
    if str_in "BOREDAPES" collection_upper && str_in "DEGODS" collection_upper
    then Ok "complete"
    else Raise (NotExistsException "Collection does not exist")
  | _ => Raise (NotExistsException "Collection does not exist")
  end.

(** The collection lists the reader knows: those whose upper-case form
    names BOREDAPES alone, DEGODS alone, or has two names with both among
    them. *)
Definition known_collection {U : Casing} (collection : list string) : Prop :=
  let collection_upper := map upper collection in
  collection_upper = ["BOREDAPES"] \/ collection_upper = ["DEGODS"] \/
  (length collection_upper = 2%nat /\ In "BOREDAPES" collection_upper /\
   In "DEGODS" collection_upper).

(** [n.<collection>_com_id_list[scope] = community_id] *)
Definition in_community (p : string) (scope : nat) (community_id : Z)
    (props : gmap string (list Z)) : bool :=
  bool_decide (props !! p ≫= (fun l => l !! scope) = Some community_id).

(** The [node_count] query of [get_single_community]. *)
Definition node_count (p : string) (scope : nat) (community_id : Z) (g : Graph.graph) : nat :=
  (length (List.filter (fun a => in_community p scope community_id (acc_props a)) (accounts g))
   + length (List.filter (fun n => in_community p scope community_id (nft_props n)) (nfts g)))%nat.

(** [CommunityLogic.get_single_community], up to the node count and the
    most central nodes of the community. *)
Definition get_single_community {U : Casing} (eng : engine) (community_id : Z)
    (scope : string) (collection : list string) (limit : Z) : M (nat * list nat) :=
  scope_processed ← lift (get_scope scope);
  collection_processed ← lift (get_collection collection);
  graph_names ← graph_list;
  _ ← (if str_in "tempGraph" graph_names then graph_drop "tempGraph" else mret tt);
  total_node_count ← (fun d =>
    (Ok (node_count (collection_processed +:+ "_com_id_list") scope_processed community_id
           (graph d)), d));
  if (total_node_count =? 0)%nat
  then throw (NotExistsException "the collection with this id does not exist")
  else
    _ ← graph_project "tempGraph";
    scored ← stream (degree_stream eng) "tempGraph";
    top_nodes ← lift (limit_clause limit scored);
    _ ← graph_drop "tempGraph";
    mret (total_node_count, top_nodes).

End CommunityLogic.

(** ** Two callers of the centrality service *)

Module Race.
Import Store Centrality.

(** Where a caller of [get_most_central_nodes] stands between two of its
    [db.run_query] calls.  The endpoint is a plain [def], so two requests
    run on two worker threads and their queries interleave; the source
    takes no lock around them. *)
Inductive pc : Type :=
| Listing
| Cleaning (graph_names : list string)
| Projecting
| Scoring
| Dropping (central_nodes : list nat)
| Returned (central_nodes : list nat)
| Failed (e : exn).

(** The catalog queries that succeeded, as the graph store saw them. *)
Inductive action : Type :=
| Listed
| Created
| Scored
| Dropped.

Definition advance {A : Type} (m : M A) (d : db) (a : action) (k : A -> pc)
    : pc * db * option action :=
  match m d with
  | (Ok x, d') => (k x, d', Some a)
  | (Raise e, d') => (Failed e, d', None)
  end.

(** One query of one caller. *)
Definition step (eng : engine) (limit : Z) (p : pc) (d : db) : pc * db * option action :=
  match p with
  | Listing => advance graph_list d Listed Cleaning
  | Cleaning graph_names =>
    if str_in "centralityGraph" graph_names
    then advance (graph_drop "centralityGraph") d Dropped (fun _ => Projecting)
    else advance (graph_project "centralityGraph") d Created (fun _ => Scoring)
  | Projecting => advance (graph_project "centralityGraph") d Created (fun _ => Scoring)
  | Scoring =>
    advance (scored ← stream (degree_stream eng) "centralityGraph";
             lift (limit_clause limit scored)) d Scored Dropping
  | Dropping central_nodes =>
    advance (graph_drop "centralityGraph") d Dropped (fun _ => Returned central_nodes)
  | Returned _ | Failed _ => (p, d, None)
  end.

(** Two callers over one database; [true] names the first caller. *)
Record system : Type := mkSystem {
  shared : db;
  first : pc;
  second : pc;
  trace : list (bool * action)
}.

Definition log (who : bool) (a : option action) (tr : list (bool * action))
    : list (bool * action) :=
  match a with
  | Some x => tr ++ [(who, x)]
  | None => tr
  end.

Definition schedule_step (eng : engine) (limit : Z) (s : system) (who : bool) : system :=
  if who then
    let '(p, d, a) := step eng limit (first s) (shared s) in
    mkSystem d p (second s) (log true a (trace s))
  else
    let '(p, d, a) := step eng limit (second s) (shared s) in
    mkSystem d (first s) p (log false a (trace s)).

Definition run (eng : engine) (limit : Z) (schedule : list bool) (d : db) : system :=
  fold_left (schedule_step eng limit) schedule (mkSystem d Listing Listing []).

Definition finished (p : pc) : bool :=
  match p with
  | Returned _ | Failed _ => true
  | _ => false
  end.

Definition returned (p : pc) : bool :=
  match p with
  | Returned _ => true
  | _ => false
  end.

(** Mutual exclusion on the name, read off the trace: between a caller's
    create and its own drop, no query of the other caller creates, drops or
    scores the projection.  [holder] is the caller whose projection
    exists. *)
Fixpoint exclusive (holder : option bool) (tr : list (bool * action)) : bool :=
  match tr with
  | [] => true
  | (_, Listed) :: tr' => exclusive holder tr'
  | (who, Created) :: tr' =>
    match holder with
    | None => exclusive (Some who) tr'
    | Some _ => false
    end
  | (who, Scored) :: tr' =>
    match holder with
    | Some h => Bool.eqb h who && exclusive holder tr'
    | None => false
    end
  | (who, Dropped) :: tr' =>
    match holder with
    | Some h => Bool.eqb h who && exclusive None tr'
    | None => exclusive None tr'
    end
  end.

(** [n] queries of one caller with no query of another caller in
    between, and the actions they log. *)
Fixpoint steps (eng : engine) (limit : Z) (n : nat) (p : pc) (d : db)
    : pc * db * list action :=
  match n with
  | O => (p, d, [])
  | S n' =>
    let '(p1, d1, a) := step eng limit p d in
    let '(p2, d2, acts) := steps eng limit n' p1 d1 in
    (p2, d2, match a with Some x => x :: acts | None => acts end)
  end.

(** What a caller logs when it runs alone and nothing raises. *)
Definition solo_actions (d : db) : list action :=
  if str_in "centralityGraph" (catalog d)
  then [Listed; Dropped; Created; Scored; Dropped]
  else [Listed; Created; Scored; Dropped].

(** How the function ends, read off the program counter. *)
Definition answer (p : pc) : option (result (list nat)) :=
  match p with
  | Returned central_nodes => Some (Ok central_nodes)
  | Failed e => Some (Raise e)
  | _ => None
  end.

End Race.

(** ** The refresh frequency of a collection *)

Module Frequency.
Import Ingest.

(** [UpdateFunctionality.set_update_frequency]:
    [MATCH (n:Update_Info) WHERE n.collection_name = ... SET n.update_frequency = $frequency] *)
Definition set_update_frequency (c : string) (frequency : Z) (infos : list UpdateInfo)
    : list UpdateInfo :=
  map (fun n =>
         if String.eqb (info_collection_name n) (get_processed_collection_name c)
         then mkUpdateInfo (info_collection_name n) (collection_address n) frequency
         else n) infos.

End Frequency.

(** ** Observations on runs and on the graph *)

Module Views.
Import Graph Ingest.

(** The entities of the list that a run at time [t] treats. *)
Definition due_ids (t : Z) (ids_list : list IdInfo) : list IdInfo :=
  List.filter (fun info => is_due t (id_updated_at info)) ids_list.

(** The request without cursor that opens the walk of an entity. *)
Definition first_request (addr : string) (t : Z) (info : IdInfo) : Request :=
  mkRequest addr (id info) (id_updated_at info) t None.

(** [update_nft_node] for each entity of the list in turn. *)
Definition stamp_all (c : string) (t : Z) (ids_list : list IdInfo) (g : graph) : graph :=
  fold_left (fun g info => update_nft_node c (id info) t g) ids_list g.

Definition restamp (t : Z) (n : NFT) : NFT :=
  mkNFT (nft_id n) (identifier n) (collection_name n) t (nft_props n).

Definition listed (ids_list : list IdInfo) (i : string) : bool :=
  existsb (fun info => String.eqb i (id info)) ids_list.

(** The pages after [r] are linked by cursors: every page but the last
    names a next cursor. *)
Fixpoint chain (r : Response) (rest : list Response) : Prop :=
  match rest with
  | [] => next r = EmptyString
  | r' :: rest' => next r <> EmptyString /\ chain r' rest'
  end.

(** The requests that follow the cursors from page [r] through [rest]. *)
Fixpoint cursor_requests (addr : string) (info : IdInfo) (t : Z) (r : Response)
    (rest : list Response) : list Request :=
  match rest with
  | [] => []
  | r' :: rest' =>
    mkRequest addr (id info) (id_updated_at info) t (Some (next r))
    :: cursor_requests addr info t r' rest'
  end.

(** Some Account node with address [a] still fits the pattern of [query0]. *)
Definition matched (a : string) (g : graph) : bool :=
  existsb (matches_query0 a) (accounts g).

(** Address [a] is the sender or the receiver of one of the events. *)
Definition mentions (a : string) (events : list Event) : bool :=
  existsb (fun d => String.eqb (to_address d) a || String.eqb (from_address d) a) events.

(** The TRANSACTED relationship [insert_new_trx_data] creates for a pair
    of matched Account nodes. *)
Definition edge_of (data : Event) : nat * nat -> Transacted :=
  if String.eqb (ev_type data) "transfer" then transfer_edge data else sale_edge data.

(** The OWNED relationships into node [n]. *)
Definition owned_into (n : nat) (g : graph) : list Owned :=
  List.filter (fun e => (o_dst e =? n)%nat) (owned g).

(** Every Account node carries the placeholder arrays of [query0], and no
    two Account nodes share an address. *)
Definition pristine (g : graph) : Prop :=
  Forall (fun x => matches_query0 (address x) x = true) (accounts g) /\
  List.NoDup (map address (accounts g)).

End Views.

(** ** The community summary reader *)

Module Summary.
Import Store CommunityLogic.

(** The shape shared by the two [get_collection] readers: what they
    return for the upper-cased list, given the three names they answer
    with. *)
Definition pick (bored degods both : string) (collection_upper : list string)
    : result string :=
  match collection_upper with
  | [c] =>
    if String.eqb c "BOREDAPES" then Ok bored
    else if String.eqb c "DEGODS" then Ok degods
    else Raise (NotExistsException "Collection does not exist")
  | [_; _] =>
    if str_in "BOREDAPES" collection_upper && str_in "DEGODS" collection_upper
    then Ok both
    else Raise (NotExistsException "Collection does not exist")
  | _ => Raise (NotExistsException "Collection does not exist")
  end.

(** The Python slice [l[:limit]]: a negative bound counts from the end. *)
Definition slice_to {A : Type} (limit : Z) (l : list A) : list A :=
  if (limit <? 0)%Z then firstn (length l - Z.to_nat (- limit)) l
  else firstn (Z.to_nat limit) l.

(** The first two queries of [get_community_sum]'s body: the summary
    array of the collection is read from the first [:Community_Info]
    record, decoded, indexed by the slot of the scope and cut to [limit]
    ids. *)
Definition biggest_communities (limit : Z) (scope_pro : nat) (collection_pro : string)
    : M (list Z) := fun d =>
  match infos d with
  | [] => (Raise IndexError, d)
  | record :: _ =>
    match record !! (collection_pro +:+ "_id_list") with
    | None => (Raise TypeError, d)
    | Some community_ids =>
      match community_ids !! scope_pro with
      | None => (Raise IndexError, d)
      | Some ids => (Ok (slice_to limit ids), d)
      end
    end
  end.

(** [CommunityLogic.get_community_sum], up to [selected_community_ids]. *)
Definition selected_community_ids {U : Casing} (limit : Z) (scope : string)
    (collection : list string) : M (list Z) :=
  scope_pro ← lift (get_scope scope);
  collection_pro ← lift (get_collection collection);
  biggest_communities limit scope_pro collection_pro.

End Summary.

(** ** Observations on detection runs *)

Module DetectionViews.
Import Graph Store CommunityDetection.

(** What of the graph is not a node property: the nodes with their keys,
    and the relationships. *)
Definition skeleton (g : Graph.graph)
    : list (nat * string) * list (nat * string * string * Z) * list Owned
      * list Transacted * nat :=
  (map (fun a => (acc_id a, address a)) (accounts g),
   map (fun n => (nft_id n, identifier n, collection_name n, updated_at n)) (nfts g),
   owned g, transacted g, next_id g).

(** [d'] differs from [d] in values of the membership property of [c]
    only. *)
Definition only_memberships (c : string) (d d' : db) : Prop :=
  skeleton (graph d') = skeleton (graph d) /\
  forall p v, p <> com_id_list c -> node_property p v (graph d') = node_property p v (graph d).

(** Code that changes values of the membership property of [c] only. *)
Definition framed (c : string) {A : Type} (m : M A) : Prop :=
  forall d, only_memberships c d (snd (m d)).

End DetectionViews.

(** ** Sample data *)

Module Samples.
Import Graph.

(** The case mapping that changes the ASCII letters and nothing else.
    The labels of the samples are ASCII, where every case mapping does
    the same. *)
Definition ascii_casing : Casing :=
  {| upper := ascii_upper; upper_plain := fun _ _ => eq_refl |}.

(** A store with one NFT of the collection and no account yet. *)
Definition ape42 : NFT := mkNFT 0 "42" "boredapeyachtclub" 0 ∅.
Definition fresh : graph := mkGraph [] [ape42] [] [] 1.

Definition transfer (from_a to_a h : string) (ts : Z) : Event :=
  mkEvent "transfer" from_a to_a (mkNftRef "42" "boredapeyachtclub") h ts None.

(** The account 0xA after a detection run stored community 7 in slot 0 of
    its boredapeyachtclub membership array. *)
Definition detected_props : gmap string (list Z) :=
  <["boredapeyachtclub_com_id_list" := [7; 2; 3]]> query0_props.
Definition detected : graph :=
  mkGraph [mkAccount 1 "0xA" detected_props] [ape42] [] [] 2.

(** A transfer from 0xB to 0xC, and the older transfer from 0xA to 0xB. *)
Definition b_to_c : Event := transfer "0xB" "0xC" "0xh1" 10.
Definition a_to_b : Event := transfer "0xA" "0xB" "0xh0" 5.

(** A store with one NFT of the collection that is stored as "degods" and
    named "degods-eth" by its callers. *)
Definition god7 : NFT := mkNFT 0 "7" "degods" 0 ∅.
Definition gods : graph := mkGraph [] [god7] [] [] 1.

(** Two NFTs of the collection, both last synchronised at 0, and a run at
    [t = 2 * 86400], when both are due. *)
Definition ape43 : NFT := mkNFT 1 "43" "boredapeyachtclub" 0 ∅.
Definition two_apes : graph := mkGraph [] [ape42; ape43] [] [] 2.

(** The two NFTs after NFT 43 went from 0xA to 0xB. *)
Definition a_to_b_43 : Event :=
  mkEvent "transfer" "0xA" "0xB" (mkNftRef "43" "boredapeyachtclub") "0xh9" 3 None.
Definition held43 : graph := insert_new_trx_data a_to_b_43 two_apes.
Definition two_ids : list Ingest.IdInfo := [Ingest.mkIdInfo "42" 0; Ingest.mkIdInfo "43" 0].
Definition run_at : Z := 172800.
Definition bayc : string := "0xbc4ca0eda7647a8ab7c2061c2e118a18a936f13d".
Definition start (g : graph) : Ingest.frame := Ingest.mkFrame g [] None None.

Definition last_page : Ingest.Response := Ingest.mkResponse [] EmptyString.

(** A feed with two pages for NFT 42 (one event on the first page, cursor
    c1 to the second) and one empty page for NFT 43. *)
Definition paged_feed : Ingest.Feed := fun _ rq =>
  if String.eqb (Ingest.req_identifier rq) "42" then
    match Ingest.cursor rq with
    | None => Ingest.Returns (Ingest.mkResponse [b_to_c] "c1") 200
    | Some _ => Ingest.Returns last_page 200
    end
  else Ingest.Returns last_page 200.

(** A feed that answers for NFT 42 (nothing new) and raises for NFT 43. *)
Definition flaky_feed : Ingest.Feed := fun _ rq =>
  if String.eqb (Ingest.req_identifier rq) "42" then Ingest.Returns last_page 200
  else Ingest.Fails.

(** A feed that raises on every request. *)
Definition dead_feed : Ingest.Feed := fun _ _ => Ingest.Fails.

(** A database for the analytical operations: three accounts and two
    NFTs with membership arrays, the [:Community_Info] node as
    [build_community_info_node] creates it, and a projection left over in
    the catalog. *)
Definition arrays : gmap string (list Z) := query0_props.
Definition members : graph :=
  mkGraph [mkAccount 1 "0xA" arrays; mkAccount 2 "0xB" arrays; mkAccount 3 "0xC" arrays]
    [mkNFT 10 "42" "boredapeyachtclub" 0 arrays; mkNFT 11 "43" "boredapeyachtclub" 0 arrays]
    [] [] 12.
Definition two_d_array : list (list Z) := [[1; 2]; [3; 4]; [5; 6]; [7; 8]].
Definition community_info : gmap string (list (list Z)) :=
  <["boredapeyachtclub_id_list" := two_d_array]> (<["degods_id_list" := two_d_array]> ∅).
Definition store : Store.db := Store.mkDb members [community_info] ["tempGraph"].

(** An engine that finds community 70 = {1, 10, 11}, community 71 = {2}
    and community 72 = {3} on every projection, and ranks node 10 first. *)
Definition engine : Store.engine :=
  Store.mkEngine
    (fun _ => Ok [(2%nat, 71); (1%nat, 70); (10%nat, 70); (3%nat, 72); (11%nat, 70)])
    (fun _ => Ok [10%nat; 1%nat; 11%nat; 2%nat; 3%nat]).

(** An engine whose degree scoring raises. *)
Definition failing_engine : Store.engine :=
  Store.mkEngine (Store.louvain_stream engine) (fun _ => Raise (ClientError "out of memory")).

(** The store once the three projections of the collection exist. *)
Definition projected : Store.db :=
  Store.mkDb members [community_info]
    ["boredapeyachtclub_owned"; "boredapeyachtclub_trx"; "boredapeyachtclub_owned_trx"].

(** Five communities of sizes 1, 3, 2, 5 and 4 (ids 61 to 65), streamed
    node by node. *)
Definition five_streams : list (nat * Z) :=
  [(0%nat, 61); (1%nat, 62); (2%nat, 63); (3%nat, 64); (4%nat, 65);
   (5%nat, 62); (6%nat, 64); (7%nat, 65); (8%nat, 63); (9%nat, 64);
   (10%nat, 65); (11%nat, 62); (12%nat, 64); (13%nat, 65); (14%nat, 64)].
Definition five_engine : Store.engine :=
  Store.mkEngine (fun _ => Ok five_streams) (fun _ => Ok []).
Definition fifteen : graph :=
  mkGraph (map (fun i => mkAccount i "0x" arrays) (seq 0 15)) [] [] [] 15.
Definition five_store : Store.db :=
  Store.mkDb fifteen [community_info]
    ["boredapeyachtclub_owned"; "boredapeyachtclub_trx"; "boredapeyachtclub_owned_trx"].

(** The [:Update_Info] nodes of the two tracked collections. *)
Definition update_infos : list Ingest.UpdateInfo :=
  [Ingest.mkUpdateInfo "boredapeyachtclub" bayc 7200;
   Ingest.mkUpdateInfo "degods" "0x8821bee2ba0df28761afff119d66390d594cd280" 3600].

(** Two callers of the centrality service: the second lists the catalog
    after the first has created its projection. *)
Definition racy : list bool := [true; true; false; false; false; true; true; false].

End Samples.

(** ** Facts about the per-event mutation *)

Module GraphFacts.
Import Graph.

Lemma has_address_true a x : has_address a x = true <-> address x = a.
Proof. unfold has_address. apply String.eqb_eq. Qed.

Lemma count_accounts_ids a g : length (account_ids a g) = count_accounts a g.
Proof. unfold account_ids, count_accounts. apply length_map. Qed.

Lemma merge_account_grows a g :
  exists extra, accounts (merge_account a g) = accounts g ++ extra.
Proof.
  unfold merge_account. destruct (existsb (matches_query0 a) (accounts g)).
  - exists []. now rewrite List.app_nil_r.
  - now eexists.
Qed.

Lemma merge_account_present a g : (1 <= count_accounts a (merge_account a g))%nat.
Proof.
  unfold merge_account, count_accounts.
  destruct (existsb (matches_query0 a) (accounts g)) eqn:E.
  - apply existsb_exists in E as (x & Hin & Hx).
    unfold matches_query0 in Hx. repeat (apply andb_prop in Hx as [Hx _]).
    assert (Hf : In x (List.filter (has_address a) (accounts g))) by (apply filter_In; auto).
    destruct (List.filter (has_address a) (accounts g)); [destruct Hf | simpl; lia].
  - simpl. rewrite List.filter_app, length_app. simpl.
    unfold has_address at 2. simpl. rewrite String.eqb_refl. simpl. lia.
Qed.

Lemma merge_account_mono a b g :
  (count_accounts a g <= count_accounts a (merge_account b g))%nat.
Proof.
  destruct (merge_account_grows b g) as [extra E]. unfold count_accounts.
  rewrite E, List.filter_app, length_app. lia.
Qed.

(** After [query0] both addresses of the event have an Account node. *)
Lemma query0_present to_a from_a g :
  (1 <= count_accounts from_a (query0 to_a from_a g))%nat /\
  (1 <= count_accounts to_a (query0 to_a from_a g))%nat.
Proof.
  unfold query0. split.
  - apply merge_account_present.
  - etransitivity; [apply (merge_account_present to_a g) | apply merge_account_mono].
Qed.

Lemma matches_created a n : matches_query0 a (mkAccount n a query0_props) = true.
Proof.
  unfold matches_query0, has_address. simpl. rewrite String.eqb_refl.
  rewrite !bool_decide_eq_true_2 by reflexivity. reflexivity.
Qed.

Lemma merge_account_twice a g : merge_account a (merge_account a g) = merge_account a g.
Proof.
  unfold merge_account at 2. destruct (existsb (matches_query0 a) (accounts g)) eqn:E.
  - unfold merge_account. now rewrite E.
  - unfold merge_account. cbn [accounts]. rewrite existsb_app. cbn [existsb].
    now rewrite matches_created, E.
Qed.

Lemma merge_account_matched a g :
  existsb (matches_query0 a) (accounts g) = true -> merge_account a g = g.
Proof. intros E. unfold merge_account. now rewrite E. Qed.

Lemma merge_account_matches a g :
  existsb (matches_query0 a) (accounts (merge_account a g)) = true.
Proof.
  pose proof (merge_account_twice a g) as H. unfold merge_account at 1 in H.
  destruct (existsb (matches_query0 a) (accounts (merge_account a g))) eqn:E; [reflexivity|].
  exfalso. apply (f_equal next_id) in H. simpl in H. lia.
Qed.

Lemma matches_kept a b g :
  existsb (matches_query0 a) (accounts g) = true ->
  existsb (matches_query0 a) (accounts (merge_account b g)) = true.
Proof.
  intros E. destruct (merge_account_grows b g) as [extra ->].
  rewrite existsb_app, E. reflexivity.
Qed.

(** The account upsert is idempotent. *)
Lemma query0_twice to_a from_a g :
  query0 to_a from_a (query0 to_a from_a g) = query0 to_a from_a g.
Proof.
  unfold query0.
  rewrite (merge_account_matched to_a (merge_account from_a (merge_account to_a g))).
  - apply merge_account_twice.
  - apply matches_kept, merge_account_matches.
Qed.

Lemma query1_accounts to_a from_a ts i c g :
  accounts (query1 to_a from_a ts i c g) = accounts g.
Proof. reflexivity. Qed.

Lemma query1_transacted to_a from_a ts i c g :
  transacted (query1 to_a from_a ts i c g) = transacted g.
Proof. reflexivity. Qed.

Lemma query1_nfts to_a from_a ts i c g :
  nfts (query1 to_a from_a ts i c g) = nfts g.
Proof. reflexivity. Qed.

Lemma insert_accounts data g :
  accounts (insert_new_trx_data data g) =
  accounts (query0 (to_address data) (from_address data) g).
Proof.
  unfold insert_new_trx_data.
  now destruct (String.eqb (ev_type data) "transfer").
Qed.

Lemma insert_nfts data g : nfts (insert_new_trx_data data g) = nfts g.
Proof.
  unfold insert_new_trx_data.
  destruct (String.eqb (ev_type data) "transfer"); cbn [nfts query2 query1];
    unfold query0, merge_account;
    repeat match goal with |- context [if ?b then _ else _] => destruct b end; reflexivity.
Qed.

Lemma count_accounts_same a g g' : accounts g = accounts g' -> count_accounts a g = count_accounts a g'.
Proof. unfold count_accounts. now intros ->. Qed.

Lemma account_ids_same a g g' : accounts g = accounts g' -> account_ids a g = account_ids a g'.
Proof. unfold account_ids. now intros ->. Qed.

Lemma has_key_transfer data k :
  has_key (transaction data) (ref_identifier (nft data)) (transfer_edge data k) = true.
Proof. unfold has_key. simpl. now rewrite !String.eqb_refl. Qed.

Lemma has_key_sale data k :
  has_key (transaction data) (ref_identifier (nft data)) (sale_edge data k) = true.
Proof. unfold has_key. simpl. now rewrite !String.eqb_refl. Qed.

Lemma filter_map_all {A B : Type} (f : B -> bool) (mk : A -> B) (l : list A) :
  (forall x, f (mk x) = true) -> List.filter f (map mk l) = map mk l.
Proof.
  intros H. induction l as [|x l IH]; simpl; [reflexivity|]. now rewrite H, IH.
Qed.

(** What one application adds to the TRANSACTED relationships of the
    event's key: one per pair of matched Account nodes. *)
Lemma insert_count data g :
  let g' := insert_new_trx_data data g in
  count_transacted (transaction data) (ref_identifier (nft data)) g' =
  (count_transacted (transaction data) (ref_identifier (nft data)) g
   + count_accounts (from_address data) g' * count_accounts (to_address data) g')%nat.
Proof.
  intros g'.
  assert (Hacc : accounts g' = accounts (query0 (to_address data) (from_address data) g))
    by apply insert_accounts.
  rewrite !(count_accounts_same _ _ _ Hacc). subst g'.
  unfold insert_new_trx_data, count_transacted.
  set (g0 := query0 (to_address data) (from_address data) g).
  set (g1 := query1 _ _ _ _ _ g0).
  assert (H1 : accounts g1 = accounts g0) by apply query1_accounts.
  assert (Ht : transacted g1 = transacted g).
  { unfold g1. rewrite query1_transacted. unfold g0, query0, merge_account.
    repeat match goal with |- context [if ?b then _ else _] => destruct b end; reflexivity. }
  destruct (String.eqb (ev_type data) "transfer"); cbn [transacted query2];
    rewrite List.filter_app, length_app, Ht, !(account_ids_same _ _ _ H1);
    (rewrite filter_map_all by (intros; first [apply has_key_transfer | apply has_key_sale]));
    rewrite length_map, length_prod, !count_accounts_ids; reflexivity.
Qed.

(** *** MERGE on OWNED relationships *)

Lemma is_edge_true k e : is_edge k e = true <-> edge_key e = k.
Proof.
  unfold is_edge, edge_key. destruct k as [a n]. simpl.
  rewrite Bool.andb_true_iff, !Nat.eqb_eq. split.
  - now intros [-> ->].
  - intros H. now inversion H.
Qed.

Lemma is_edge_false k e : is_edge k e = false <-> edge_key e <> k.
Proof.
  rewrite <- is_edge_true. destruct (is_edge k e); split; congruence.
Qed.

Lemma existsb_is_edge k es : existsb (is_edge k) es = true <-> In k (map edge_key es).
Proof.
  rewrite existsb_exists, in_map_iff. split.
  - intros (e & Hin & He). exists e. split; [now apply is_edge_true | exact Hin].
  - intros (e & He & Hin). exists e. split; [exact Hin | now apply is_edge_true].
Qed.

Section Merge.

Variable on_match : Owned -> Owned.
Variable on_create : nat * nat -> Owned.
Hypothesis match_key : forall e, edge_key (on_match e) = edge_key e.
Hypothesis create_key : forall k, edge_key (on_create k) = k.

(** What both branches of the MERGE establish on the relationship. *)
Variable set_by : Owned -> Prop.
Hypothesis match_sets : forall e, set_by (on_match e).
Hypothesis create_sets : forall k, set_by (on_create k).

Let merge := merge_owned on_match on_create.

Lemma merge_keys_matched es k :
  In k (map edge_key es) -> map edge_key (merge es k) = map edge_key es.
Proof.
  intros Hk. unfold merge, merge_owned. apply existsb_is_edge in Hk. rewrite Hk.
  rewrite map_map. apply map_ext. intros e.
  destruct (is_edge k e); [apply match_key | reflexivity].
Qed.

Lemma merge_keys_created es k :
  ~ In k (map edge_key es) -> map edge_key (merge es k) = map edge_key es ++ [k].
Proof.
  intros Hk. unfold merge, merge_owned.
  destruct (existsb (is_edge k) es) eqn:E.
  - now apply existsb_is_edge in E.
  - now rewrite map_app; simpl; rewrite create_key.
Qed.

Lemma merge_cases es k :
  map edge_key (merge es k) = map edge_key es /\ In k (map edge_key es) \/
  map edge_key (merge es k) = map edge_key es ++ [k] /\ ~ In k (map edge_key es).
Proof.
  destruct (existsb (is_edge k) es) eqn:E.
  - left. apply existsb_is_edge in E. split; [now apply merge_keys_matched | exact E].
  - right. assert (H : ~ In k (map edge_key es)).
    { intros H. apply existsb_is_edge in H. congruence. }
    split; [now apply merge_keys_created | exact H].
Qed.

Lemma merge_has_key es k : In k (map edge_key (merge es k)).
Proof.
  destruct (merge_cases es k) as [[-> H]|[-> H]]; [exact H|].
  apply in_or_app. right. now left.
Qed.

Lemma merge_keeps_keys es k k' :
  In k' (map edge_key es) -> In k' (map edge_key (merge es k)).
Proof.
  intros H'. destruct (merge_cases es k) as [[-> H]|[-> H]]; [exact H'|].
  apply in_or_app. now left.
Qed.

Lemma merge_nodup es k :
  List.NoDup (map edge_key es) -> List.NoDup (map edge_key (merge es k)).
Proof.
  intros Hnd. destruct (merge_cases es k) as [[-> H]|[-> H]]; [exact Hnd|].
  apply List.NoDup_app; [exact Hnd | repeat constructor; auto |].
  intros a Ha [<-|[]]. contradiction.
Qed.

(** An edge of the merged list was set by the MERGE when it joins the
    merged pair, and is an edge of the old list otherwise. *)
Lemma merge_in es k e :
  In e (merge es k) ->
  edge_key e = k /\ set_by e \/ edge_key e <> k /\ In e es.
Proof.
  unfold merge, merge_owned. destruct (existsb (is_edge k) es) eqn:Ex.
  - rewrite in_map_iff. intros (e0 & <- & Hin).
    destruct (is_edge k e0) eqn:E.
    + left. split; [rewrite match_key; now apply is_edge_true | apply match_sets].
    + right. split; [now apply is_edge_false | exact Hin].
  - intros Hin. apply in_app_or in Hin as [Hin|[<-|[]]].
    + right. split; [|exact Hin]. intros Hk.
      assert (In k (map edge_key es)) by (rewrite <- Hk; now apply in_map).
      apply existsb_is_edge in H. congruence.
    + left. split; [apply create_key | apply create_sets].
Qed.

(** The same over all the rows of a MATCH. *)
Lemma merge_all_in rows : forall es e,
  In e (fold_left merge rows es) ->
  In (edge_key e) rows /\ set_by e \/ ~ In (edge_key e) rows /\ In e es.
Proof.
  induction rows as [|k rows IH]; intros es e Hin; simpl in *.
  - right. auto.
  - apply IH in Hin as [[Hk Hs]|[Hk Hin]]; [left; auto|].
    apply merge_in in Hin as [[Hk' Hs]|[Hk' Hin]].
    + left. auto.
    + right. split; [|exact Hin]. intros [H|H]; [now symmetry in H | contradiction].
Qed.

Lemma merge_all_nodup rows : forall es,
  List.NoDup (map edge_key es) -> List.NoDup (map edge_key (fold_left merge rows es)).
Proof.
  induction rows as [|k rows IH]; intros es H; simpl; [exact H|].
  apply IH, merge_nodup, H.
Qed.

Lemma merge_all_keeps_keys rows : forall es k,
  In k (map edge_key es) -> In k (map edge_key (fold_left merge rows es)).
Proof.
  induction rows as [|k' rows IH]; intros es k H; simpl; [exact H|].
  apply IH, merge_keeps_keys, H.
Qed.

Lemma merge_all_has_keys rows : forall es k,
  In k rows -> In k (map edge_key (fold_left merge rows es)).
Proof.
  induction rows as [|k' rows IH]; intros es k H; simpl; [destruct H|].
  destruct H as [->|H]; [apply merge_all_keeps_keys, merge_has_key | now apply IH].
Qed.

(** A MERGE between a pair of nodes leaves the relationships into any
    other node as they are. *)
Lemma merge_frame es k n :
  snd k <> n -> List.filter (fun e => (o_dst e =? n)%nat) (merge es k)
                = List.filter (fun e => (o_dst e =? n)%nat) es.
Proof.
  intros Hn. unfold merge, merge_owned. destruct (existsb (is_edge k) es).
  - induction es as [|e es IH]; simpl; [reflexivity|].
    destruct (is_edge k e) eqn:E.
    + apply is_edge_true in E.
      assert (H1 : o_dst (on_match e) = snd k).
      { pose proof (match_key e) as Hm. rewrite E in Hm.
        now apply (f_equal snd) in Hm. }
      assert (H2 : o_dst e = snd k) by (rewrite <- E; reflexivity).
      rewrite H1, H2. destruct (Nat.eqb_spec (snd k) n); [contradiction | exact IH].
    + rewrite IH. reflexivity.
  - rewrite List.filter_app. simpl.
    assert (H1 : o_dst (on_create k) = snd k).
    { pose proof (create_key k) as Hc. now apply (f_equal snd) in Hc. }
    rewrite H1. destruct (Nat.eqb_spec (snd k) n); [contradiction | apply List.app_nil_r].
Qed.

Lemma merge_all_frame rows n : forall es,
  (forall k, In k rows -> snd k <> n) ->
  List.filter (fun e => (o_dst e =? n)%nat) (fold_left merge rows es)
  = List.filter (fun e => (o_dst e =? n)%nat) es.
Proof.
  induction rows as [|k rows IH]; intros es H; simpl; [reflexivity|].
  rewrite IH by (intros; apply H; now right).
  apply merge_frame, H. now left.
Qed.

Hypothesis match_idem : forall e, on_match (on_match e) = on_match e.

Lemma touched_true rows e : touched rows e = true <-> In (edge_key e) rows.
Proof.
  unfold touched. rewrite existsb_exists. split.
  - intros (k & Hin & Hk). apply is_edge_true in Hk. now rewrite Hk.
  - intros Hin. exists (edge_key e). split; [exact Hin | now apply is_edge_true].
Qed.

(** When every row already has its relationship, the MERGEs only run
    their ON MATCH branch. *)
Lemma merge_all_map rows : forall es,
  (forall k, In k rows -> In k (map edge_key es)) ->
  fold_left merge rows es = map (fun e => if touched rows e then on_match e else e) es.
Proof.
  induction rows as [|k rows IH]; intros es Hk; simpl.
  - symmetry. apply map_id.
  - assert (Hin : In k (map edge_key es)) by (apply Hk; now left).
    assert (Hm : merge es k = map (fun e => if is_edge k e then on_match e else e) es).
    { unfold merge, merge_owned. apply existsb_is_edge in Hin. now rewrite Hin. }
    rewrite IH.
    + rewrite Hm, map_map. apply map_ext. intros e. unfold touched. simpl.
      destruct (is_edge k e) eqn:E; simpl.
      * assert (E' : is_edge k (on_match e) = true).
        { apply is_edge_true. rewrite match_key. now apply is_edge_true. }
        destruct (existsb _ rows); [apply match_idem | reflexivity].
      * reflexivity.
    + intros k' Hk'. apply merge_keeps_keys, Hk. now right.
Qed.

End Merge.

(** *** The two MERGEs of [query1] *)

Lemma close_key ts e : edge_key (close_match ts e) = edge_key e.
Proof. reflexivity. Qed.
Lemma close_create_key ts k : edge_key (close_create ts k) = k.
Proof. now destruct k. Qed.
Lemma open_key ts e : edge_key (open_match ts e) = edge_key e.
Proof. reflexivity. Qed.
Lemma open_create_key ts k : edge_key (open_create ts k) = k.
Proof. now destruct k. Qed.

Lemma current_owners_alt n es :
  current_owners n es =
  List.filter currently_owned (List.filter (fun e => (o_dst e =? n)%nat) es).
Proof.
  unfold current_owners, holds. induction es as [|e es IH]; simpl; [reflexivity|].
  destruct (o_dst e =? n)%nat; simpl; [destruct (currently_owned e)|]; now rewrite IH.
Qed.

Lemma query0_owned to_a from_a g : owned (query0 to_a from_a g) = owned g.
Proof.
  unfold query0, merge_account.
  repeat match goal with |- context [if ?b then _ else _] => destruct b end; reflexivity.
Qed.

Lemma query0_nfts to_a from_a g : nfts (query0 to_a from_a g) = nfts g.
Proof.
  unfold query0, merge_account.
  repeat match goal with |- context [if ?b then _ else _] => destruct b end; reflexivity.
Qed.

Lemma query0_grows to_a from_a g :
  exists extra, accounts (query0 to_a from_a g) = accounts g ++ extra.
Proof.
  unfold query0.
  destruct (merge_account_grows to_a g) as [x1 E1].
  destruct (merge_account_grows from_a (merge_account to_a g)) as [x2 E2].
  exists (x1 ++ x2). now rewrite E2, E1, List.app_assoc.
Qed.

Lemma account_ids_grow a to_a from_a g x :
  In x (account_ids a g) -> In x (account_ids a (query0 to_a from_a g)).
Proof.
  unfold account_ids. destruct (query0_grows to_a from_a g) as [extra ->].
  rewrite List.filter_app, map_app. intros H. apply in_or_app. now left.
Qed.

Lemma insert_owned data g :
  owned (insert_new_trx_data data g) =
  owned (query1 (to_address data) (from_address data) (event_timestamp data)
           (ref_identifier (nft data)) (ref_collection (nft data))
           (query0 (to_address data) (from_address data) g)).
Proof.
  unfold insert_new_trx_data. now destruct (String.eqb (ev_type data) "transfer").
Qed.

Lemma existsb_eqb_In n l : existsb (Nat.eqb n) l = true <-> In n l.
Proof.
  rewrite existsb_exists. split.
  - intros (x & Hin & E). apply Nat.eqb_eq in E. now subst.
  - intros H. exists n. split; [exact H | apply Nat.eqb_refl].
Qed.

(** Relationships that all join one pair of nodes number at most one when
    the graph is simple. *)
Lemma same_key_once (f : Owned -> bool) k es :
  List.NoDup (map edge_key es) ->
  (forall e, In e es -> f e = true -> edge_key e = k) ->
  (length (List.filter f es) <= 1)%nat.
Proof.
  induction es as [|e es IH]; simpl; intros Hnd Hk; [lia|].
  apply List.NoDup_cons_iff in Hnd as [Hnot Hnd].
  destruct (f e) eqn:E.
  - assert (He : edge_key e = k) by (apply Hk; auto).
    assert (Hnil : List.filter f es = []).
    { destruct (List.filter f es) as [|e' l] eqn:El; [reflexivity|]. exfalso.
      assert (Hin : In e' (List.filter f es)) by (rewrite El; now left).
      apply filter_In in Hin as [Hin Hf]. apply Hnot.
      rewrite He, <- (Hk e') by auto. now apply in_map. }
    rewrite Hnil. simpl. lia.
  - apply IH; [exact Hnd | intros; apply Hk; auto].
Qed.

Lemma query1_simple to_a from_a ts i c g :
  simple_owned g -> simple_owned (query1 to_a from_a ts i c g).
Proof.
  unfold simple_owned, query1, query1_owned. intros H. cbn [owned].
  destruct (list_prod _ _) as [|row rows]; [exact H|].
  apply merge_all_nodup; [apply open_key | apply open_create_key |].
  apply merge_all_nodup; [apply close_key | apply close_create_key | exact H].
Qed.

Lemma insert_simple data g : simple_owned g -> simple_owned (insert_new_trx_data data g).
Proof.
  intros H. unfold simple_owned. rewrite insert_owned. apply query1_simple.
  unfold simple_owned. now rewrite query0_owned.
Qed.

(** One event keeps the succession invariant when it is applied to a
    simple graph in which its parties hold the NFT and the receiver has
    one Account node. *)
Lemma succession_step data g :
  succession g -> simple_owned g ->
  sole_receiver data g = true -> held_by_parties data g = true ->
  succession (insert_new_trx_data data g).
Proof.
  intros Hs Hsimple Hsole Hheld n. rewrite insert_owned.
  set (g0 := query0 (to_address data) (from_address data) g).
  assert (Hsimple0 : simple_owned g0) by (unfold simple_owned, g0; now rewrite query0_owned).
  pose proof (query1_simple (to_address data) (from_address data) (event_timestamp data)
                (ref_identifier (nft data)) (ref_collection (nft data)) g0 Hsimple0) as Hnd.
  unfold simple_owned in Hnd. revert Hnd. unfold query1, query1_owned. cbn [owned].
  set (N := nft_ids (ref_identifier (nft data)) (ref_collection (nft data)) g0).
  set (F := account_ids (from_address data) g0).
  set (T := account_ids (to_address data) g0).
  assert (HN : N = nft_ids (ref_identifier (nft data)) (ref_collection (nft data)) g).
  { unfold N, nft_ids, g0. now rewrite query0_nfts. }
  assert (Ho : owned g0 = owned g) by apply query0_owned.
  destruct (list_prod F N) as [|row rows] eqn:Erows.
  { intros _. rewrite Ho. apply Hs. }
  rewrite <- Erows. intros Hnd.
  set (closed := fold_left (merge_owned (close_match _) (close_create _)) (list_prod F N) (owned g0)) in *.
  set (final := fold_left (merge_owned (open_match _) (open_create _)) (list_prod T N) closed) in *.
  destruct (in_dec Nat.eq_dec n N) as [HnN|HnN].
  - (* the event's NFT: every owner left is the receiver *)
    assert (HT : exists t, T = [t]).
    { unfold sole_receiver in Hsole. apply Nat.eqb_eq in Hsole. fold g0 in Hsole.
      rewrite <- count_accounts_ids in Hsole. fold T in Hsole.
      destruct T as [|t [|? ?]]; simpl in Hsole; try lia. now exists t. }
    destruct HT as [t HT].
    apply (same_key_once _ (t, n)); [exact Hnd|].
    intros e Hin Hh. unfold holds in Hh. apply andb_prop in Hh as [Hd Hc].
    apply Nat.eqb_eq in Hd.
    apply (merge_all_in _ _ (open_key _) (open_create_key _)
             (fun e => currently_owned e = true)) in Hin; [| reflexivity | reflexivity].
    destruct Hin as [[Hk _]|[Hk Hin]].
    + rewrite HT in Hk. destruct (edge_key e) as [a m] eqn:Ek.
      apply in_prod_iff in Hk as [[<-|[]] _].
      unfold edge_key in Ek. inversion Ek. now subst.
    + exfalso.
      apply (merge_all_in _ _ (close_key _) (close_create_key _)
               (fun e => currently_owned e = false)) in Hin; [| reflexivity | reflexivity].
      destruct Hin as [[_ Hfalse]|[Hk' Hin]]; [congruence|].
      rewrite Ho in Hin. unfold held_by_parties in Hheld.
      rewrite forallb_forall in Hheld. specialize (Hheld e Hin).
      rewrite Hc in Hheld. rewrite <- HN in Hheld.
      assert (Hex : existsb (Nat.eqb (o_dst e)) N = true)
        by (apply existsb_eqb_In; now rewrite Hd).
      rewrite Hex in Hheld. simpl in Hheld. apply existsb_eqb_In in Hheld.
      apply in_app_or in Hheld as [Hf|Ht].
      * apply Hk'. unfold edge_key. apply in_prod; [|now rewrite Hd].
        now apply account_ids_grow.
      * apply Hk. unfold edge_key. apply in_prod; [|now rewrite Hd].
        now apply account_ids_grow.
  - (* any other node: its relationships are untouched *)
    rewrite current_owners_alt. unfold final, closed.
    rewrite (merge_all_frame _ _ (open_key _) (open_create_key _)).
    + rewrite (merge_all_frame _ _ (close_key _) (close_create_key _)).
      * rewrite Ho, <- current_owners_alt. apply Hs.
      * intros [a m] Hk. apply in_prod_iff in Hk as [_ Hm]. simpl. congruence.
    + intros [a m] Hk. apply in_prod_iff in Hk as [_ Hm]. simpl. congruence.
Qed.

(** *** Applying the same event again *)

Lemma query1_owned_ext to_a from_a ts i c g g' :
  accounts g = accounts g' -> nfts g = nfts g' -> owned g = owned g' ->
  owned (query1 to_a from_a ts i c g) = owned (query1 to_a from_a ts i c g').
Proof.
  intros Ha Hn Ho. unfold query1, account_ids, nft_ids. cbn [owned].
  now rewrite Ha, Hn, Ho.
Qed.

(** The relationships of [query1] are a fixed point of [query1]. *)
Lemma query1_owned_twice ts F T N es :
  query1_owned ts F T N (query1_owned ts F T N es) = query1_owned ts F T N es.
Proof.
  unfold query1_owned.
  destruct (list_prod F N) as [|row rows] eqn:Erows; [reflexivity|].
  rewrite <- Erows.
  set (closed := fold_left (merge_owned (close_match ts) (close_create ts))
                   (list_prod F N) es).
  set (final := fold_left (merge_owned (open_match ts) (open_create ts))
                  (list_prod T N) closed).
  rewrite (merge_all_map _ _ (close_key ts) (close_create_key ts)) with (es := final);
    [| reflexivity |].
  2:{ intros k Hk. apply merge_all_keeps_keys; [apply open_key | apply open_create_key |].
      apply merge_all_has_keys; [apply close_key | apply close_create_key | exact Hk]. }
  rewrite (merge_all_map _ _ (open_key ts) (open_create_key ts)); [| reflexivity |].
  2:{ intros k Hk. rewrite map_map.
      rewrite (map_ext _ edge_key)
        by (intros e; destruct (touched (list_prod F N) e); reflexivity).
      apply merge_all_has_keys; [apply open_key | apply open_create_key | exact Hk]. }
  rewrite map_map. rewrite <- (map_id final) at 2. apply map_ext_in. intros e Hin.
  assert (Hkey : forall rows', touched rows'
            (if touched (list_prod F N) e then close_match ts e else e) = touched rows' e).
  { intros rows'. destruct (touched (list_prod F N) e); reflexivity. }
  rewrite Hkey.
  apply (merge_all_in _ _ (open_key ts) (open_create_key ts)
           (fun e => open_match ts e = e)) in Hin;
    [| reflexivity | intros [? ?]; reflexivity].
  destruct Hin as [[Hk Hset]|[Hk Hin]].
  - apply touched_true in Hk. rewrite Hk.
    destruct (touched (list_prod F N) e); exact Hset.
  - assert (Hf : touched (list_prod T N) e = false).
    { destruct (touched (list_prod T N) e) eqn:E; [|reflexivity].
      apply touched_true in E. contradiction. }
    rewrite Hf.
    apply (merge_all_in _ _ (close_key ts) (close_create_key ts)
             (fun e => close_match ts e = e)) in Hin;
      [| reflexivity | intros [? ?]; reflexivity].
    destruct Hin as [[Hk' Hset]|[Hk' _]].
    + apply touched_true in Hk'. now rewrite Hk'.
    + destruct (touched (list_prod F N) e) eqn:E; [|reflexivity].
      apply touched_true in E. contradiction.
Qed.

Lemma query1_twice to_a from_a ts i c g :
  owned (query1 to_a from_a ts i c (query1 to_a from_a ts i c g))
  = owned (query1 to_a from_a ts i c g).
Proof. unfold query1. cbn [owned]. apply query1_owned_twice. Qed.

Lemma query0_matched to_a from_a g :
  existsb (matches_query0 to_a) (accounts g) = true ->
  existsb (matches_query0 from_a) (accounts g) = true ->
  query0 to_a from_a g = g.
Proof.
  intros Ht Hf. unfold query0. rewrite (merge_account_matched to_a g Ht).
  now apply merge_account_matched.
Qed.

Lemma insert_matches data g :
  let g1 := insert_new_trx_data data g in
  existsb (matches_query0 (to_address data)) (accounts g1) = true /\
  existsb (matches_query0 (from_address data)) (accounts g1) = true.
Proof.
  intros g1. unfold g1. rewrite insert_accounts. unfold query0. split.
  - apply matches_kept, merge_account_matches.
  - apply merge_account_matches.
Qed.

(** A second application of the same event leaves the Account nodes and
    the OWNED relationships as the first one made them. *)
Lemma insert_twice_nodes data g :
  let g1 := insert_new_trx_data data g in
  accounts (insert_new_trx_data data g1) = accounts g1 /\
  owned (insert_new_trx_data data g1) = owned g1.
Proof.
  intros g1. destruct (insert_matches data g) as [Ht Hf]. fold g1 in Ht, Hf.
  split.
  - rewrite insert_accounts. now rewrite query0_matched.
  - rewrite insert_owned, query0_matched by assumption.
    set (g0 := query0 (to_address data) (from_address data) g).
    set (q := query1 (to_address data) (from_address data) (event_timestamp data)
                (ref_identifier (nft data)) (ref_collection (nft data))).
    assert (H1 : owned g1 = owned (q g0)) by apply insert_owned.
    rewrite H1. transitivity (owned (q (q g0))); [|apply query1_twice].
    apply query1_owned_ext.
    + unfold g1. now rewrite insert_accounts.
    + unfold g1. rewrite insert_nfts. symmetry. apply query0_nfts.
    + exact H1.
Qed.

(** *** The claims on the per-event mutation *)

(** C1, counterexample: the transfer 0xB -> 0xC with hash 0xh1 applied
    once to the fresh store leaves one TRANSACTED relationship with the
    key (0xh1, 42); applied a second time it leaves two. *)
Lemma same_event_twice_two_edges :
  count_transacted "0xh1" "42" (insert_new_trx_data Samples.b_to_c Samples.fresh) = 1%nat /\
  count_transacted "0xh1" "42"
    (insert_new_trx_data Samples.b_to_c (insert_new_trx_data Samples.b_to_c Samples.fresh))
  = 2%nat.
Proof. split; vm_compute; reflexivity. Qed.

(** C1, as the code has it: every application of an event CREATEs one
    TRANSACTED relationship with the key (txHash, identifier) per pair of
    Account nodes matched for the from and to address, at least one; so
    a second application of the same event adds as many again.  Only the
    Account nodes and the OWNED relationships are left by the second
    application as the first one made them. *)
Theorem reapplied_event_appends data g :
  let key_count := count_transacted (transaction data) (ref_identifier (nft data)) in
  let g1 := insert_new_trx_data data g in
  let g2 := insert_new_trx_data data g1 in
  let pairs :=
    (count_accounts (from_address data) g1 * count_accounts (to_address data) g1)%nat in
  (1 <= pairs)%nat /\
  key_count g1 = (key_count g + pairs)%nat /\
  key_count g2 = (key_count g1 + pairs)%nat /\
  accounts g2 = accounts g1 /\
  owned g2 = owned g1.
Proof.
  intros key_count g1 g2 pairs.
  destruct (insert_twice_nodes data g) as [Ha Ho]. fold g1 in Ha, Ho. fold g2 in Ha, Ho.
  repeat split.
  - unfold pairs, g1. rewrite !(count_accounts_same _ _ _ (insert_accounts data g)).
    destruct (query0_present (to_address data) (from_address data) g) as [Hf Ht].
    apply (Nat.mul_le_mono 1 _ 1 _ Hf Ht).
  - apply insert_count.
  - unfold key_count, g2. rewrite insert_count. fold g2.
    now rewrite !(count_accounts_same _ _ _ Ha).
  - exact Ha.
  - exact Ho.
Qed.

(** C5, at the failing input: the store holds one Account 0xA whose
    boredapeyachtclub membership array a detection run changed to
    [7; 2; 3]; the event 0xA -> 0xB leaves two Account nodes with the
    address 0xA. *)
Theorem upsert_duplicates_detected_account :
  count_accounts "0xA" Samples.detected = 1%nat /\
  count_accounts "0xA" (insert_new_trx_data Samples.a_to_b Samples.detected) = 2%nat.
Proof. split; vm_compute; reflexivity. Qed.

(** The MERGE of [query0] is keyed by the whole property map: an address
    whose Account nodes all differ from the pattern gets one more node. *)
Lemma merge_account_unmatched a g :
  existsb (matches_query0 a) (accounts g) = false ->
  count_accounts a (merge_account a g) = S (count_accounts a g).
Proof.
  intros E. unfold merge_account, count_accounts. rewrite E. cbn [accounts].
  rewrite List.filter_app, length_app. cbn [List.filter].
  unfold has_address at 2. cbn [address]. rewrite String.eqb_refl. simpl. lia.
Qed.

(** C2, counterexample: on the fresh store the transfer 0xB -> 0xC
    followed by the older transfer 0xA -> 0xB leaves two OWNED
    relationships into the NFT flagged currently owned (those of 0xB and
    of 0xC): the second event closes the relationship of 0xA, not that of
    the holder 0xC. *)
Lemma out_of_order_two_owners :
  succession Samples.fresh /\
  ~ succession (insert_all [Samples.b_to_c; Samples.a_to_b] Samples.fresh).
Proof.
  split.
  - intros n. simpl. lia.
  - intros H. specialize (H 0%nat). vm_compute in H. lia.
Qed.

End GraphFacts.

(** ** Facts about the ingestion run *)

Module IngestFacts.
Import Graph Ingest.

(** The [break] of line 242: when the first page of a due entity carries
    events, they are applied and the run returns; no further request is
    made for this entity or for the entities after it, and no timestamp is
    written. *)
Lemma break_returns fuel feed c t addr info rest fr r code :
  is_due t (id_updated_at info) = true ->
  feed (length (requests fr)) (mkRequest addr (id info) (id_updated_at info) t None)
    = Returns r code ->
  asset_events r <> [] ->
  get_data_from_opensea fuel feed c t addr (info :: rest) fr
  = Done (mkFrame (insert_all (asset_events r) (db fr))
            (requests fr ++ [mkRequest addr (id info) (id_updated_at info) t None])
            (Some r) (Some code)).
Proof.
  intros Hdue Hfeed Hev. cbn [get_data_from_opensea]. rewrite Hdue.
  unfold first_page, call. rewrite Hfeed.
  destruct (asset_events r) as [|e evs] eqn:E; [contradiction | reflexivity].
Qed.

(** C3, at the failing input: both NFTs are due and the feed has a first
    page with one event and the cursor c1 for NFT 42.  The run makes that
    one request and returns: the page behind c1 is never requested, NFT 43
    is never walked, and NFT 42 keeps its timestamp. *)
Theorem break_ends_the_run :
  returns
    (get_data_from_opensea 10 Samples.paged_feed "boredapeyachtclub" Samples.run_at
       Samples.bayc Samples.two_ids (Samples.start Samples.two_apes))
    (fun fr =>
       requests fr = [mkRequest Samples.bayc "42" 0 Samples.run_at None] /\
       option_map next (result fr) = Some "c1" /\
       requests_for "43" fr = [] /\
       last_synchronized "boredapeyachtclub" "42" (db fr) = [0]).
Proof. vm_compute. repeat split; reflexivity. Qed.

(** C4, at the failing inputs.  With the feed that answers for NFT 42 and
    raises for NFT 43, the run ends normally and NFT 43 carries the run's
    time although its only request raised: [result] and [status_code]
    still hold what the walk of NFT 42 left.  With the feed that raises on
    every request, the walk of NFT 42 reads the unbound [result], the
    exception leaves the loop, and NFT 43 is never requested; [run_update]
    catches it and ends with the graph untouched. *)
Theorem failed_walk_marked_or_run_aborted :
  returns
    (get_data_from_opensea 10 Samples.flaky_feed "boredapeyachtclub" Samples.run_at
       Samples.bayc Samples.two_ids (Samples.start Samples.two_apes))
    (fun fr =>
       requests_for "43" fr = [mkRequest Samples.bayc "43" 0 Samples.run_at None] /\
       Samples.flaky_feed 1%nat (mkRequest Samples.bayc "43" 0 Samples.run_at None) = Fails /\
       last_synchronized "boredapeyachtclub" "43" (db fr) = [Samples.run_at]) /\
  raises
    (get_data_from_opensea 10 Samples.dead_feed "boredapeyachtclub" Samples.run_at
       Samples.bayc Samples.two_ids (Samples.start Samples.two_apes))
    UnboundLocalError
    (fun fr =>
       requests_for "43" fr = [] /\
       last_synchronized "boredapeyachtclub" "42" (db fr) = [0]) /\
  run_update 10 Samples.dead_feed Samples.run_at "boredapeyachtclub" Samples.update_infos
    Samples.two_apes = Completed Samples.two_apes.
Proof. vm_compute. repeat split; reflexivity. Qed.

End IngestFacts.

(** ** Facts about the projection catalog *)

Module CatalogFacts.
Import Store.

Lemma str_in_In x xs : str_in x xs = true <-> In x xs.
Proof.
  unfold str_in. rewrite existsb_exists. split.
  - intros (y & Hin & E). apply String.eqb_eq in E. now subst.
  - intros H. exists x. split; [exact H | apply String.eqb_refl].
Qed.

Lemma str_in_app x xs ys : str_in x (xs ++ ys) = str_in x xs || str_in x ys.
Proof. apply existsb_app. Qed.

Lemma without_gone name c : str_in name (without name c) = false.
Proof.
  destruct (str_in name (without name c)) eqn:E; [|reflexivity].
  apply str_in_In in E. apply filter_In in E as [_ E].
  now rewrite String.eqb_refl in E.
Qed.

Lemma without_other name x c : x <> name -> str_in x (without name c) = str_in x c.
Proof.
  intros Hx. unfold without. induction c as [|y c IH]; simpl; [reflexivity|].
  destruct (String.eqb_spec name y) as [<-|Hy]; simpl.
  - rewrite IH. destruct (String.eqb_spec x name); [contradiction | reflexivity].
  - now rewrite IH.
Qed.

Lemma without_absent name c : str_in name c = false -> without name c = c.
Proof.
  unfold without. induction c as [|y c IH]; simpl; [reflexivity|].
  intros H. apply Bool.orb_false_iff in H as [Hy Hc].
  rewrite Hy. simpl. now rewrite IH.
Qed.

Lemma graph_drop_present name d :
  str_in name (catalog d) = true ->
  graph_drop name d = (Ok tt, with_catalog (without name (catalog d)) d).
Proof. intros H. unfold graph_drop. now rewrite H. Qed.

Lemma graph_project_absent name d :
  str_in name (catalog d) = false ->
  graph_project name d = (Ok tt, with_catalog (catalog d ++ [name]) d).
Proof. intros H. unfold graph_project. now rewrite H. Qed.

(** The cleanup that precedes a create: afterwards the name is free and
    the other projections are as before. *)
Lemma cleanup name d :
  (graph_names ← graph_list;
   if str_in name graph_names then graph_drop name else mret tt) d
  = (Ok tt, with_catalog (without name (catalog d)) d).
Proof.
  unfold mbind, M_bind, graph_list. cbn.
  destruct (str_in name (catalog d)) eqn:E.
  - now apply graph_drop_present.
  - unfold mret, M_ret. rewrite without_absent by exact E. now destruct d.
Qed.

Lemma without_created name c : without name (without name c ++ [name]) = without name c.
Proof.
  unfold without at 1. rewrite List.filter_app. simpl. rewrite String.eqb_refl. simpl.
  rewrite List.app_nil_r. apply without_absent, without_gone.
Qed.

Lemma created_present name c : str_in name (c ++ [name]) = true.
Proof. rewrite str_in_app. simpl. rewrite String.eqb_refl. apply Bool.orb_true_r. Qed.

(** Create, use, drop on a free name: the result is that of the use; the
    projection is dropped when the use returned and left in the catalog
    when it raised. *)
Lemma create_use_drop {A : Type} (algo : string -> result A) name d :
  str_in name (catalog d) = false ->
  (_ ← graph_project name; x ← stream algo name; _ ← graph_drop name; mret x) d =
  match algo name with
  | Ok x => (Ok x, with_catalog (without name (catalog d ++ [name])) d)
  | Raise e => (Raise e, with_catalog (catalog d ++ [name]) d)
  end.
Proof.
  intros Hfree. unfold mbind, M_bind. rewrite graph_project_absent by exact Hfree.
  unfold stream. cbn [catalog with_catalog]. rewrite created_present.
  destruct (algo name) as [x|e]; [|reflexivity].
  rewrite graph_drop_present by apply created_present. reflexivity.
Qed.

(** What a call of the centrality service does to the database, once
    the collection is known: the result is the engine's, cut by LIMIT; the
    projection is dropped when a result is returned and left in the
    catalog when the scoring raised. *)
Lemma central_run {U : Casing} eng limit collection c d :
  Centrality.get_collection collection = Ok c ->
  Centrality.get_most_central_nodes eng limit collection d =
  match degree_stream eng "centralityGraph" ≫= limit_clause limit with
  | Ok nodes => (Ok nodes, with_catalog (without "centralityGraph" (catalog d)) d)
  | Raise e =>
    (Raise e, with_catalog (without "centralityGraph" (catalog d) ++ ["centralityGraph"]) d)
  end.
Proof.
  intros Hc. unfold Centrality.get_most_central_nodes.
  unfold mbind at 1. unfold M_bind at 1. unfold lift at 1. rewrite Hc.
  pose proof (cleanup "centralityGraph" d) as Hclean.
  unfold mbind, M_bind in *. unfold graph_list in *. cbn beta iota in *.
  destruct (str_in "centralityGraph" (catalog d)) eqn:E.
  - rewrite Hclean. clear Hclean.
    rewrite graph_project_absent by apply without_gone.
    unfold stream. cbn [catalog with_catalog]. rewrite created_present.
    destruct (degree_stream eng "centralityGraph") as [scored|e]; [|reflexivity].
    unfold lift. cbn. destruct (limit_clause limit scored) as [nodes|e]; [|reflexivity].
    rewrite graph_drop_present by apply created_present.
    cbn [catalog with_catalog]. now rewrite without_created.
  - unfold mret at 1. unfold M_ret at 1.
    rewrite graph_project_absent by exact E.
    unfold stream. cbn [catalog with_catalog]. rewrite created_present.
    rewrite (without_absent _ _ E).
    destruct (degree_stream eng "centralityGraph") as [scored|e]; [|reflexivity].
    unfold lift. cbn. destruct (limit_clause limit scored) as [nodes|e]; [|reflexivity].
    rewrite graph_drop_present by apply created_present.
    cbn [catalog with_catalog].
    pose proof (without_created "centralityGraph" (catalog d)) as Hw.
    rewrite (without_absent _ _ E) in Hw. now rewrite Hw.
Qed.

(** *** Dropping every listed projection *)

Lemma filter_none {A : Type} (f : A -> bool) (l : list A) :
  (forall x, In x l -> f x = false) -> List.filter f l = [].
Proof.
  induction l as [|x l IH]; simpl; intros H; [reflexivity|].
  rewrite H by now left. apply IH. intros; apply H; now right.
Qed.

Lemma drop_listed names : List.NoDup names -> forall d,
  (forall x, In x names -> In x (catalog d)) ->
  for_each graph_drop names d
  = (Ok tt, with_catalog (List.filter (fun x => negb (str_in x names)) (catalog d)) d).
Proof.
  induction 1 as [|x names Hx Hnd IH]; intros d Hin.
  - simpl. unfold mret, M_ret. f_equal. destruct d as [g i c]. unfold with_catalog. simpl.
    f_equal. induction c as [|y c IHc]; simpl; [reflexivity | now rewrite <- IHc].
  - cbn [for_each]. unfold mbind, M_bind.
    rewrite graph_drop_present by (apply str_in_In, Hin; now left).
    rewrite IH.
    + cbn [catalog with_catalog graph infos]. unfold with_catalog. f_equal. f_equal.
      unfold without. generalize (catalog d) as c. intros c.
      induction c as [|y c IHc]; simpl; [reflexivity|].
      rewrite (String.eqb_sym y x).
      destruct (String.eqb x y); simpl; [exact IHc|].
      destruct (str_in y names); simpl; [exact IHc | now rewrite IHc].
    + cbn [catalog with_catalog]. intros y Hy. apply filter_In. split.
      * apply Hin. now right.
      * destruct (String.eqb_spec x y) as [->|]; [contradiction | reflexivity].
Qed.

Lemma drop_all d :
  List.NoDup (catalog d) ->
  for_each graph_drop (catalog d) d = (Ok tt, with_catalog [] d).
Proof.
  intros Hnd. rewrite drop_listed by auto. f_equal. f_equal.
  apply filter_none. intros x Hx. apply str_in_In in Hx. now rewrite Hx.
Qed.

Lemma append_inj c a b : c +:+ a = c +:+ b -> a = b.
Proof. induction c as [|x c IH]; simpl; intros H; [exact H | inversion H; auto]. Qed.

(** [update_project_graph] on a catalog without repeated names: whatever
    was listed is dropped, the three projections of the collection are
    created, and they stay. *)
Lemma update_project_graph_run c d :
  List.NoDup (catalog d) ->
  CommunityDetection.update_project_graph c d
  = (Ok tt, with_catalog [c +:+ "_owned"; c +:+ "_trx"; c +:+ "_owned_trx"] d).
Proof.
  intros Hnd. unfold CommunityDetection.update_project_graph, mbind, M_bind, graph_list.
  rewrite drop_all by exact Hnd.
  rewrite graph_project_absent by reflexivity. cbn [catalog with_catalog].
  rewrite graph_project_absent.
  2:{ cbn [catalog with_catalog str_in existsb app]. rewrite Bool.orb_false_r.
      apply String.eqb_neq. intros H. apply append_inj in H. discriminate. }
  cbn [catalog with_catalog]. rewrite graph_project_absent.
  2:{ cbn [catalog with_catalog str_in existsb app]. rewrite Bool.orb_false_r.
      apply Bool.orb_false_iff.
      split; apply String.eqb_neq; intros H; apply append_inj in H; discriminate. }
  reflexivity.
Qed.

(** *** Code that does not touch the catalog *)

Lemma keeps_bind {A B : Type} (m : M A) (k : A -> M B) :
  keeps_catalog m -> (forall a, keeps_catalog (k a)) -> keeps_catalog (m ≫= k).
Proof.
  intros Hm Hk d. unfold mbind, M_bind. specialize (Hm d).
  destruct (m d) as [[a|e] d']; simpl in *; [|exact Hm]. now rewrite Hk.
Qed.

Lemma keeps_ret {A : Type} (a : A) : keeps_catalog (mret a).
Proof. now intros d. Qed.

Lemma keeps_lift {A : Type} (r : result A) : keeps_catalog (lift r).
Proof. now intros d. Qed.

Lemma keeps_stream {A : Type} (algo : string -> result A) name : keeps_catalog (stream algo name).
Proof. intros d. unfold stream. now destruct (str_in name (catalog d)). Qed.

Lemma keeps_for_each {A : Type} (body : A -> M unit) xs :
  (forall x, keeps_catalog (body x)) -> keeps_catalog (for_each body xs).
Proof.
  intros H. induction xs as [|x xs IH]; simpl; [apply keeps_ret|].
  apply keeps_bind; [apply H | intros _; exact IH].
Qed.

Lemma keeps_members c cid nodes scope :
  keeps_catalog (CommunityDetection.update_nodes_com_property c cid nodes scope).
Proof.
  intros d. unfold CommunityDetection.update_nodes_com_property.
  now destruct (CommunityDetection.node_updates _ _ _ _ _).
Qed.

Lemma keeps_info idList c scope :
  keeps_catalog (CommunityDetection.update_community_id_info idList c scope).
Proof.
  intros d. unfold CommunityDetection.update_community_id_info.
  destruct (infos d) as [|record rest]; [reflexivity|].
  destruct (record !! _) as [arr|]; [|reflexivity].
  now destruct (_ <? _)%nat.
Qed.

Lemma keeps_detect eng limit c suffix scope :
  keeps_catalog (CommunityDetection.detect eng limit c suffix scope).
Proof.
  unfold CommunityDetection.detect. apply keeps_bind.
  - unfold CommunityDetection.com_query. apply keeps_bind; [apply keeps_stream|].
    intros records. destruct (limit =? 0)%Z; [apply keeps_ret | apply keeps_lift].
  - intros rows. apply keeps_bind; [|intros _; apply keeps_info].
    apply keeps_for_each. intros row. apply keeps_members.
Qed.

Lemma keeps_detection eng limit c :
  keeps_catalog (CommunityDetection.update_community_detection eng limit c).
Proof.
  unfold CommunityDetection.update_community_detection.
  repeat (apply keeps_bind; [apply keeps_detect | intros _]). apply keeps_detect.
Qed.

(** The projections of a detection run are in the catalog when the run
    returns, whichever message it returns. *)
Lemma detection_leaves_projections eng cache limit c d :
  List.NoDup (catalog d) ->
  catalog (snd (CommunityDetection.run_community_detection eng cache limit c d))
  = [c +:+ "_owned"; c +:+ "_trx"; c +:+ "_owned_trx"].
Proof.
  intros Hnd. unfold CommunityDetection.run_community_detection.
  assert (Hp : (if String.eqb c "complete"
                then CommunityDetection.update_project_graph_complete
                else CommunityDetection.update_project_graph c) = 
               CommunityDetection.update_project_graph c).
  { destruct (String.eqb_spec c "complete") as [->|]; reflexivity. }
  rewrite Hp. unfold mbind, M_bind. rewrite update_project_graph_run by exact Hnd.
  pose proof (keeps_detection eng limit c
                (with_catalog [c +:+ "_owned"; c +:+ "_trx"; c +:+ "_owned_trx"] d)) as Hk.
  destruct (CommunityDetection.update_community_detection eng limit c _) as [[u|e] d'];
    [unfold lift; destruct cache|]; exact Hk.
Qed.

(** *** The claims on the projection lifecycle *)

(** C6, counterexample: with an engine whose scoring raises, the
    centrality call ends with an exception and centralityGraph is still
    in the catalog; and a detection run that completes leaves its three
    projections in the catalog. *)
Lemma projections_outlive_operations :
  (let out := Centrality.get_most_central_nodes (U := Samples.ascii_casing)
                Samples.failing_engine 10 ["boredapes"] Samples.store in
   is_ok (fst out) = false /\ str_in "centralityGraph" (catalog (snd out)) = true) /\
  (let out := CommunityDetection.run_community_detection Samples.engine (Ok tt) 100
                "boredapeyachtclub" Samples.store in
   fst out = "Update Completed" /\
   catalog (snd out) = ["boredapeyachtclub_owned"; "boredapeyachtclub_trx";
                        "boredapeyachtclub_owned_trx"]).
Proof. vm_compute. repeat split; reflexivity. Qed.

(** C6, as the code has it.  The centrality call lists the catalog and
    drops a projection named centralityGraph before it creates its own,
    so neither the create nor a drop ever raises: its result is the
    engine's, cut by LIMIT.  Its projection is dropped exactly when a
    result is returned; when the scoring raises it stays in the catalog.
    A detection run drops every listed projection, creates the three
    projections of the collection and never drops them: they are in the
    catalog when the run returns, whatever it returns. *)
Theorem projection_lifetimes {U : Casing} eng limit d :
  List.NoDup (catalog d) ->
  (forall collection c, Centrality.get_collection collection = Ok c ->
     let out := Centrality.get_most_central_nodes eng limit collection d in
     fst out = (degree_stream eng "centralityGraph" ≫= limit_clause limit) /\
     str_in "centralityGraph" (catalog (snd out)) = negb (is_ok (fst out)) /\
     (forall name, name <> "centralityGraph" ->
        str_in name (catalog (snd out)) = str_in name (catalog d))) /\
  (forall cache c,
     catalog (snd (CommunityDetection.run_community_detection eng cache limit c d))
     = [c +:+ "_owned"; c +:+ "_trx"; c +:+ "_owned_trx"]).
Proof.
  intros Hnd. split.
  - intros collection c Hc out. unfold out. rewrite (central_run _ _ _ _ _ Hc).
    destruct (degree_stream eng "centralityGraph" ≫= limit_clause limit) as [nodes|e];
      cbn [fst snd catalog with_catalog is_ok negb].
    + split; [reflexivity|]. split; [apply without_gone|].
      intros name Hname. now apply without_other.
    + split; [reflexivity|]. split; [apply created_present|].
      intros name Hname. rewrite str_in_app, without_other by exact Hname.
      cbn [str_in existsb]. destruct (String.eqb_spec name "centralityGraph");
        [contradiction | now rewrite !Bool.orb_false_r].
  - intros cache c. now apply detection_leaves_projections.
Qed.

Lemma projection_lifetimes_witness :
  (let out := Centrality.get_most_central_nodes (U := Samples.ascii_casing)
                Samples.engine 2 ["boredapes"] Samples.store in
   fst out = Ok [10%nat; 1%nat] /\
   str_in "centralityGraph" (catalog (snd out)) = false) /\
  catalog (snd (CommunityDetection.run_community_detection Samples.engine (Ok tt) 100
                  "degods-eth" Samples.store))
  = ["degods-eth_owned"; "degods-eth_trx"; "degods-eth_owned_trx"].
Proof.
  assert (Hnd : List.NoDup (catalog Samples.store)).
  { repeat constructor; simpl; tauto. }
  destruct (projection_lifetimes (U := Samples.ascii_casing) Samples.engine 2 Samples.store
              Hnd) as [Hc _].
  destruct (projection_lifetimes (U := Samples.ascii_casing) Samples.engine 100
              Samples.store Hnd) as [_ Hd].
  split.
  - destruct (Hc ["boredapes"] "boredapeyachtclub" eq_refl) as (H1 & H2 & _).
    split; [exact H1 | exact H2].
  - exact (Hd (Ok tt) "degods-eth").
Defined.

End CatalogFacts.

(** ** Facts about two callers of the centrality service *)

Module RaceFacts.
Import Store Race CatalogFacts.

(** C7, counterexample: the second caller lists the catalog while the
    projection of the first exists.  It drops that projection and creates
    its own before the first caller's drop; the first caller scores the
    second's projection and drops it, and the second caller's scoring
    raises. *)
Lemma second_create_before_first_drop :
  let s := run Samples.engine 10 Samples.racy Samples.store in
  trace s = [(true, Listed); (true, Created); (false, Listed); (false, Dropped);
             (false, Created); (true, Scored); (true, Dropped)] /\
  first s = Returned [10; 1; 11; 2; 3]%nat /\
  second s = Failed (ClientError "graph does not exist") /\
  exclusive None (trace s) = false.
Proof. vm_compute. repeat split; reflexivity. Qed.

Lemma finished_first_stays eng limit s :
  finished (first s) = true -> schedule_step eng limit s true = s.
Proof. destruct s as [d [] q tr]; simpl; intros H; try discriminate; reflexivity. Qed.

Lemma finished_second_stays eng limit s :
  finished (second s) = true -> schedule_step eng limit s false = s.
Proof. destruct s as [d p [] tr]; simpl; intros H; try discriminate; reflexivity. Qed.

Lemma idle_first eng limit n s :
  finished (first s) = true -> fold_left (schedule_step eng limit) (replicate n true) s = s.
Proof.
  intros H. induction n as [|n IH]; cbn [replicate fold_left]; [reflexivity|].
  now rewrite finished_first_stays.
Qed.

Lemma idle_second eng limit n s :
  finished (second s) = true -> fold_left (schedule_step eng limit) (replicate n false) s = s.
Proof.
  intros H. induction n as [|n IH]; cbn [replicate fold_left]; [reflexivity|].
  now rewrite finished_second_stays.
Qed.

(** A run of one caller's queries alone is a run of [steps]. *)
Lemma alone_first eng limit n : forall d p q tr,
  fold_left (schedule_step eng limit) (replicate n true) (mkSystem d p q tr)
  = let '(p', d', acts) := steps eng limit n p d in
    mkSystem d' p' q (tr ++ map (pair true) acts).
Proof.
  induction n as [|n IH]; intros d p q tr; cbn [replicate fold_left steps].
  - cbn. now rewrite List.app_nil_r.
  - unfold schedule_step at 2. cbn [first shared second trace].
    destruct (step eng limit p d) as [[p1 d1] a]. rewrite IH.
    destruct (steps eng limit n p1 d1) as [[p2 d2] acts].
    destruct a; cbn [log map]; [now rewrite <- List.app_assoc | reflexivity].
Qed.

Lemma alone_second eng limit n : forall d p q tr,
  fold_left (schedule_step eng limit) (replicate n false) (mkSystem d p q tr)
  = let '(q', d', acts) := steps eng limit n q d in
    mkSystem d' p q' (tr ++ map (pair false) acts).
Proof.
  induction n as [|n IH]; intros d p q tr; cbn [replicate fold_left steps].
  - cbn. now rewrite List.app_nil_r.
  - unfold schedule_step at 2. cbn [first shared second trace].
    destruct (step eng limit q d) as [[q1 d1] a]. rewrite IH.
    destruct (steps eng limit n q1 d1) as [[q2 d2] acts].
    destruct a; cbn [log map]; [now rewrite <- List.app_assoc | reflexivity].
Qed.

Lemma steps_finished eng limit n p d :
  finished p = true -> steps eng limit n p d = (p, d, []).
Proof.
  intros H. induction n as [|n IH]; cbn [steps]; [reflexivity|].
  destruct p; try discriminate; cbn [step]; now rewrite IH.
Qed.

Lemma step_listing eng limit d :
  step eng limit Listing d = (Cleaning (catalog d), d, Some Listed).
Proof. reflexivity. Qed.

Lemma step_cleaning_stale eng limit names d :
  str_in "centralityGraph" names = true -> str_in "centralityGraph" (catalog d) = true ->
  step eng limit (Cleaning names) d
  = (Projecting, with_catalog (without "centralityGraph" (catalog d)) d, Some Dropped).
Proof.
  intros Hn Hd. cbn [step]. rewrite Hn. unfold advance. now rewrite graph_drop_present.
Qed.

Lemma step_cleaning_free eng limit names d :
  str_in "centralityGraph" names = false -> str_in "centralityGraph" (catalog d) = false ->
  step eng limit (Cleaning names) d
  = (Scoring, with_catalog (catalog d ++ ["centralityGraph"]) d, Some Created).
Proof.
  intros Hn Hd. cbn [step]. rewrite Hn. unfold advance. now rewrite graph_project_absent.
Qed.

Lemma step_projecting eng limit d :
  str_in "centralityGraph" (catalog d) = false ->
  step eng limit Projecting d
  = (Scoring, with_catalog (catalog d ++ ["centralityGraph"]) d, Some Created).
Proof. intros Hd. cbn [step]. unfold advance. now rewrite graph_project_absent. Qed.

Lemma step_scoring eng limit d :
  str_in "centralityGraph" (catalog d) = true ->
  step eng limit Scoring d
  = match degree_stream eng "centralityGraph" ≫= limit_clause limit with
    | Ok nodes => (Dropping nodes, d, Some Scored)
    | Raise e => (Failed e, d, None)
    end.
Proof.
  intros Hd. cbn [step]. unfold advance, mbind at 1, M_bind, stream, lift. rewrite Hd.
  destruct (degree_stream eng "centralityGraph") as [scored|e]; [|reflexivity].
  cbn. now destruct (limit_clause limit scored).
Qed.

Lemma step_dropping eng limit nodes d :
  str_in "centralityGraph" (catalog d) = true ->
  step eng limit (Dropping nodes) d
  = (Returned nodes, with_catalog (without "centralityGraph" (catalog d)) d, Some Dropped).
Proof. intros Hd. cbn [step]. unfold advance. now rewrite graph_drop_present. Qed.

(** The queries of a caller that runs alone: how it ends, the database it
    leaves and what it logs. *)
Lemma steps_alone eng limit n d :
  (5 <= n)%nat ->
  steps eng limit n Listing d =
  match degree_stream eng "centralityGraph" ≫= limit_clause limit with
  | Ok nodes =>
    (Returned nodes, with_catalog (without "centralityGraph" (catalog d)) d, solo_actions d)
  | Raise e =>
    (Failed e, with_catalog (without "centralityGraph" (catalog d) ++ ["centralityGraph"]) d,
     removelast (removelast (solo_actions d)))
  end.
Proof.
  intros Hn. do 5 (destruct n as [|n]; [lia|]). clear Hn. unfold solo_actions.
  cbn [steps]. rewrite step_listing. cbn beta iota zeta.
  pose proof (without_created "centralityGraph" (catalog d)) as Hw.
  destruct (str_in "centralityGraph" (catalog d)) eqn:E.
  - rewrite step_cleaning_stale by exact E. cbn beta iota zeta.
    rewrite step_projecting by apply without_gone. cbn beta iota zeta.
    rewrite step_scoring by apply created_present.
    destruct (degree_stream eng "centralityGraph" ≫= limit_clause limit) as [nodes|e].
    + cbn beta iota zeta. rewrite step_dropping by apply created_present.
      cbn beta iota zeta. rewrite steps_finished by reflexivity.
      cbn [catalog with_catalog]. now rewrite Hw.
    + cbn beta iota zeta. cbn [step]. now rewrite steps_finished by reflexivity.
  - rewrite (without_absent _ _ E) in *.
    rewrite step_cleaning_free by exact E. cbn beta iota zeta.
    rewrite step_scoring by apply created_present.
    destruct (degree_stream eng "centralityGraph" ≫= limit_clause limit) as [nodes|e].
    + cbn beta iota zeta. rewrite step_dropping by apply created_present.
      cbn beta iota zeta. cbn [step]. rewrite steps_finished by reflexivity.
      cbn [catalog with_catalog]. now rewrite Hw.
    + cbn beta iota zeta. cbn [step]. now rewrite steps_finished by reflexivity.
Qed.

(** Five queries of a caller that runs alone are the function: the same
    result and the same database. *)
Lemma steps_are_the_function {U : Casing} eng limit collection c n d :
  Centrality.get_collection collection = Ok c -> (5 <= n)%nat ->
  let '(p, d', _) := steps eng limit n Listing d in
  answer p = Some (fst (Centrality.get_most_central_nodes eng limit collection d)) /\
  d' = snd (Centrality.get_most_central_nodes eng limit collection d).
Proof.
  intros Hc Hn. rewrite (central_run _ _ _ _ _ Hc), steps_alone by exact Hn.
  now destruct (degree_stream eng "centralityGraph" ≫= limit_clause limit).
Qed.

(** C7, as the code has it: there is no lock, and the calls exclude each
    other only when they do not overlap.  When the second caller's queries
    all come after the first caller's, and the engine answers, both calls
    return, the second caller's create follows the first caller's drop,
    every query between a create and the matching drop is the creator's,
    and no projection is left. *)
Theorem back_to_back_callers eng limit n m d nodes :
  degree_stream eng "centralityGraph" ≫= limit_clause limit = Ok nodes ->
  (5 <= n)%nat -> (5 <= m)%nat ->
  let s := run eng limit (replicate n true ++ replicate m false) d in
  first s = Returned nodes /\
  second s = Returned nodes /\
  trace s = map (pair true) (solo_actions d)
            ++ [(false, Listed); (false, Created); (false, Scored); (false, Dropped)] /\
  exclusive None (trace s) = true /\
  str_in "centralityGraph" (catalog (shared s)) = false.
Proof.
  intros Heng Hn Hm s. unfold s, run. rewrite fold_left_app.
  rewrite alone_first, steps_alone by exact Hn. rewrite Heng.
  rewrite alone_second, steps_alone by exact Hm. rewrite Heng.
  cbn [first second trace shared catalog with_catalog app].
  assert (Hfree : solo_actions (with_catalog (without "centralityGraph" (catalog d)) d)
                  = [Listed; Created; Scored; Dropped]).
  { unfold solo_actions. cbn [catalog with_catalog]. now rewrite without_gone. }
  rewrite Hfree. repeat split.
  - unfold solo_actions. now destruct (str_in "centralityGraph" (catalog d)).
  - rewrite without_absent by apply without_gone. apply without_gone.
Qed.

Lemma back_to_back_callers_witness :
  let s := run Samples.engine 2 (replicate 5 true ++ replicate 5 false) Samples.store in
  first s = Returned [10; 1]%nat /\ second s = Returned [10; 1]%nat /\
  exclusive None (trace s) = true.
Proof.
  destruct (back_to_back_callers Samples.engine 2 5 5 Samples.store [10; 1]%nat
              eq_refl (le_n 5) (le_n 5)) as (H1 & H2 & _ & H4 & _).
  exact (conj H1 (conj H2 H4)).
Defined.

End RaceFacts.

(** ** Facts about the community membership writer *)

Module CommunityFacts.
Import Graph Store CommunityDetection CatalogFacts.

(** *** Reading and writing a node property *)

Lemma find_map_id {A : Type} (key : A -> nat) (f : A -> A) (v : nat) (l : list A) :
  (forall a, key (f a) = key a) ->
  List.find (fun a => (key a =? v)%nat) (map f l)
  = f <$> List.find (fun a => (key a =? v)%nat) l.
Proof.
  intros Hk. induction l as [|a l IH]; simpl; [reflexivity|].
  rewrite Hk. destruct (key a =? v)%nat; [reflexivity | exact IH].
Qed.

Lemma find_key {A : Type} (key : A -> nat) (v : nat) (l : list A) a :
  List.find (fun a => (key a =? v)%nat) l = Some a -> key a = v.
Proof. intros H. apply find_some in H as [_ H]. now apply Nat.eqb_eq. Qed.

Lemma node_property_set_same p v value g :
  is_Some (node_property p v g) ->
  node_property p v (set_node_property p v value g) = Some value.
Proof.
  unfold node_property, set_node_property. cbn [accounts nfts].
  rewrite (find_map_id acc_id), (find_map_id nft_id)
    by (intros a; destruct (_ =? v)%nat; reflexivity).
  destruct (List.find _ (accounts g)) as [a|] eqn:Ea; cbn [fmap option_fmap option_map].
  - intros _. rewrite (find_key _ _ _ _ Ea), Nat.eqb_refl. cbn [acc_props].
    apply lookup_insert_eq.
  - destruct (List.find _ (nfts g)) as [n|] eqn:En; cbn [fmap option_fmap option_map].
    + intros _. rewrite (find_key _ _ _ _ En), Nat.eqb_refl. cbn [nft_props].
      apply lookup_insert_eq.
    + intros [x Hx]. discriminate.
Qed.

Lemma node_property_set_other p v value p' v' g :
  v <> v' \/ p <> p' ->
  node_property p' v' (set_node_property p v value g) = node_property p' v' g.
Proof.
  intros Hne. unfold node_property, set_node_property. cbn [accounts nfts].
  rewrite (find_map_id acc_id), (find_map_id nft_id)
    by (intros a; destruct (_ =? v)%nat; reflexivity).
  destruct (List.find _ (accounts g)) as [a|] eqn:Ea; cbn [fmap option_fmap option_map].
  - destruct (Nat.eqb_spec (acc_id a) v) as [Hv|Hv]; [|reflexivity]. cbn [acc_props].
    destruct Hne as [Hne|Hne].
    + exfalso. apply Hne. now rewrite <- Hv, (find_key _ _ _ _ Ea).
    + now apply lookup_insert_ne.
  - destruct (List.find _ (nfts g)) as [n|] eqn:En; cbn [fmap option_fmap option_map];
      [|reflexivity].
    destruct (Nat.eqb_spec (nft_id n) v) as [Hv|Hv]; [|reflexivity]. cbn [nft_props].
    destruct Hne as [Hne|Hne].
    + exfalso. apply Hne. now rewrite <- Hv, (find_key _ _ _ _ En).
    + now apply lookup_insert_ne.
Qed.

Lemma updates_frame p p' v' updates : forall g,
  ~ In v' (map fst updates) \/ p <> p' ->
  node_property p' v' (update_node_properties updates p g) = node_property p' v' g.
Proof.
  unfold update_node_properties.
  induction updates as [|u updates IH]; intros g H; cbn [fold_left]; [reflexivity|].
  rewrite IH.
  - apply node_property_set_other. destruct H as [H|H]; [left|now right].
    intros E. apply H. now left.
  - destruct H as [H|H]; [left|now right]. intros E. apply H. now right.
Qed.

(** After the batch of SETs every updated node carries its update. *)
Lemma updates_written p updates : forall g,
  (forall u, In u updates -> is_Some (node_property p (fst u) g)) ->
  (forall u u', In u updates -> In u' updates -> fst u = fst u' -> snd u = snd u') ->
  forall u, In u updates ->
  node_property p (fst u) (update_node_properties updates p g) = Some (snd u).
Proof.
  unfold update_node_properties.
  induction updates as [|u0 updates IH]; intros g Hsome Hfun u Hin; [destruct Hin|].
  cbn [fold_left].
  assert (Hsome' : forall u, In u updates ->
            is_Some (node_property p (fst u) (set_node_property p (fst u0) (snd u0) g))).
  { intros u1 H1. destruct (Nat.eq_dec (fst u0) (fst u1)) as [E|E].
    - rewrite <- E, node_property_set_same; [eauto | apply Hsome; now left].
    - rewrite node_property_set_other by now left. apply Hsome. now right. }
  assert (Hfun' : forall u u', In u updates -> In u' updates -> fst u = fst u' ->
            snd u = snd u') by (intros; apply Hfun; auto; now right).
  destruct (in_dec Nat.eq_dec (fst u) (map fst updates)) as [Hlater|Hlater].
  - apply in_map_iff in Hlater as (u' & E & Hu').
    rewrite <- E, (IH _ Hsome' Hfun' u' Hu'). f_equal.
    apply Hfun; [now right | exact Hin | exact E].
  - destruct Hin as [<-|Hin]; [|exfalso; apply Hlater; now apply in_map].
    fold (update_node_properties updates p (set_node_property p (fst u0) (snd u0) g)).
    rewrite updates_frame by now left.
    apply node_property_set_same, Hsome. now left.
Qed.

(** What [node_updates] returns: one update per listed node, the value
    read for it with the slot overwritten. *)
Lemma node_updates_spec p scope cid g nodes : forall updates,
  node_updates p scope cid nodes g = Ok updates ->
  map fst updates = nodes /\
  forall u, In u updates ->
    exists l, node_property p (fst u) g = Some l /\ (scope < length l)%nat /\
              snd u = <[scope := cid]> l.
Proof.
  induction nodes as [|v nodes IH]; intros updates H; cbn [node_updates] in H.
  - inversion H. split; [reflexivity | intros u []].
  - unfold assign_slot in H. destruct (node_property p v g) as [l|] eqn:El; [|discriminate].
    destruct (Nat.ltb_spec scope (length l)) as [Hlt|]; [|discriminate].
    cbn [mbind result_bind] in H.
    destruct (node_updates p scope cid nodes g) as [more|] eqn:Em; [|discriminate].
    cbn [mbind result_bind] in H. inversion H. subst updates. clear H.
    destruct (IH more eq_refl) as [Hfst Hval]. split; [cbn; now rewrite Hfst|].
    intros u [<-|Hin]; [|now apply Hval]. exists l. auto.
Qed.

(** *** One community written into one slot *)

Lemma members_written c cid nodes scope d d' :
  update_nodes_com_property c cid nodes scope d = (Ok tt, d') ->
  infos d' = infos d /\
  (forall v, In v nodes -> membership c v scope (graph d') = Some cid) /\
  (forall v, ~ In v nodes -> forall p, node_property p v (graph d') = node_property p v (graph d)) /\
  (forall v scope', scope' <> scope ->
     membership c v scope' (graph d') = membership c v scope' (graph d)).
Proof.
  unfold update_nodes_com_property.
  destruct (node_updates (com_id_list c) scope cid nodes (graph d)) as [updates|] eqn:E;
    [|discriminate].
  intros H. inversion H. subst d'. clear H. cbn [infos graph with_graph].
  destruct (node_updates_spec _ _ _ _ _ _ E) as [Hfst Hval].
  assert (Hw : forall u, In u updates ->
            node_property (com_id_list c) (fst u)
              (update_node_properties updates (com_id_list c) (graph d)) = Some (snd u)).
  { apply updates_written.
    - intros u Hu. destruct (Hval u Hu) as (l & Hl & _). rewrite Hl. eauto.
    - intros u u' Hu Hu' Efst.
      destruct (Hval u Hu) as (l & Hl & _ & ->).
      destruct (Hval u' Hu') as (l' & Hl' & _ & ->).
      rewrite Efst in Hl. congruence. }
  split; [reflexivity|]. split; [|split].
  - intros v Hv. rewrite <- Hfst in Hv. apply in_map_iff in Hv as (u & <- & Hu).
    unfold membership. rewrite (Hw u Hu). cbn [mbind option_bind].
    destruct (Hval u Hu) as (l & _ & Hlt & ->). now apply list_lookup_insert_eq.
  - intros v Hv p. apply updates_frame. left. now rewrite Hfst.
  - intros v scope' Hs. unfold membership.
    destruct (in_dec Nat.eq_dec v nodes) as [Hv|Hv].
    + rewrite <- Hfst in Hv. apply in_map_iff in Hv as (u & <- & Hu).
      rewrite (Hw u Hu). destruct (Hval u Hu) as (l & -> & _ & ->).
      cbn [mbind option_bind]. apply list_lookup_insert_ne. congruence.
    + rewrite updates_frame; [reflexivity | left; now rewrite Hfst].
Qed.

(** *** The loop over the rows of the detection query *)

Lemma rows_written c scope rows : forall d d',
  for_each (fun record =>
      update_nodes_com_property c (communityId record) (nodeList record) scope) rows d
  = (Ok tt, d') ->
  infos d' = infos d /\ catalog d' = catalog d /\
  (forall v, membership c v scope (graph d')
             = match assigned v rows with
               | Some cid => Some cid
               | None => membership c v scope (graph d)
               end) /\
  (forall v scope', scope' <> scope ->
     membership c v scope' (graph d') = membership c v scope' (graph d)).
Proof.
  induction rows as [|r rows IH]; intros d d' H; cbn [for_each] in H.
  - inversion H. subst. now repeat split.
  - unfold mbind, M_bind in H.
    destruct (update_nodes_com_property c (communityId r) (nodeList r) scope d)
      as [[[]|e] d1] eqn:E1; [|discriminate].
    pose proof (keeps_members c (communityId r) (nodeList r) scope d) as Hcat.
    rewrite E1 in Hcat. cbn [snd] in Hcat.
    destruct (members_written _ _ _ _ _ _ E1) as (Hi1 & Hin1 & Hout1 & Hoth1).
    destruct (IH _ _ H) as (Hi & Hc & Hm & Hoth).
    split; [congruence|]. split; [congruence|]. split.
    + intros v. rewrite Hm. cbn [assigned]. destruct (assigned v rows); [reflexivity|].
      destruct (existsb (Nat.eqb v) (nodeList r)) eqn:Ev.
      * apply Hin1. now apply GraphFacts.existsb_eqb_In.
      * unfold membership. rewrite Hout1; [reflexivity|].
        intros Hv. apply GraphFacts.existsb_eqb_In in Hv. congruence.
    + intros v scope' Hs. rewrite Hoth by exact Hs. now apply Hoth1.
Qed.

(** *** ORDER BY size DESC *)

Lemma place_perm r rows : Permutation (place r rows) (r :: rows).
Proof.
  induction rows as [|x rows IH]; cbn [place]; [reflexivity|].
  destruct (size x <? size r)%nat; [reflexivity|].
  rewrite IH. apply perm_swap.
Qed.

Lemma order_perm rows : Permutation (order_by_size_desc rows) rows.
Proof.
  unfold order_by_size_desc. induction rows as [|r rows IH]; cbn [fold_right]; [reflexivity|].
  rewrite place_perm. now constructor.
Qed.

Lemma place_descending r rows : descending rows -> descending (place r rows).
Proof.
  unfold descending. induction 1 as [|x rows Hs IH Hx]; cbn [place].
  - repeat constructor.
  - destruct (Nat.ltb_spec (size x) (size r)) as [Hlt|Hge].
    + constructor; [now constructor|]. constructor; [lia|].
      eapply Forall_impl; [|exact Hx]. cbn. intros; lia.
    + constructor; [exact IH|].
      apply Forall_forall. intros y Hy.
      apply (Permutation_in _ (place_perm r rows)) in Hy as [<-|Hy]; [exact Hge|].
      rewrite Forall_forall in Hx. now apply Hx.
Qed.

Lemma order_descending rows : descending (order_by_size_desc rows).
Proof.
  unfold order_by_size_desc. induction rows as [|r rows IH]; cbn [fold_right].
  - constructor.
  - now apply place_descending.
Qed.

Lemma descending_app top rest :
  descending (top ++ rest) ->
  descending top /\ forall r r', In r top -> In r' rest -> (size r' <= size r)%nat.
Proof.
  unfold descending. induction top as [|x top IH]; cbn [app]; intros H.
  - split; [constructor | intros r r' []].
  - inversion H as [|? ? Hs Hx]; subst. destruct (IH Hs) as [Htop Hle]. split.
    + constructor; [exact Htop|]. apply Forall_forall. intros y Hy.
      rewrite Forall_forall in Hx. apply Hx, in_or_app. now left.
    + intros r r' [<-|Hr] Hr'; [|now apply Hle].
      rewrite Forall_forall in Hx. apply Hx, in_or_app. now right.
Qed.

(** The rows of the query are the largest communities, largest first. *)
Lemma query_rows_top limit records :
  exists rest,
    Permutation (query_rows limit records ++ rest) (collect records) /\
    descending (query_rows limit records) /\
    (forall r r', In r (query_rows limit records) -> In r' rest -> (size r' <= size r)%nat) /\
    length (query_rows limit records)
    = (if (limit =? 0)%Z then length (collect records)
       else Nat.min (Z.to_nat limit) (length (collect records))).
Proof.
  unfold query_rows.
  set (rows := order_by_size_desc (collect records)).
  assert (Hperm : Permutation rows (collect records)) by apply order_perm.
  assert (Hdesc : descending rows) by apply order_descending.
  destruct (limit =? 0)%Z.
  - exists []. rewrite List.app_nil_r. split; [exact Hperm|]. split; [exact Hdesc|].
    split; [intros r r' _ []|]. now apply Permutation_length.
  - exists (skipn (Z.to_nat limit) rows). rewrite firstn_skipn. split; [exact Hperm|].
    rewrite <- (firstn_skipn (Z.to_nat limit) rows) in Hdesc.
    destruct (descending_app _ _ Hdesc) as [Htop Hle]. split; [exact Htop|].
    split; [exact Hle|]. rewrite length_firstn. now rewrite (Permutation_length Hperm).
Qed.

(** *** COLLECT: the stream grouped by community *)

Lemma members_of_app cid seen more :
  members_of cid (seen ++ more) = members_of cid seen ++ members_of cid more.
Proof. unfold members_of. now rewrite List.filter_app, map_app. Qed.

Lemma add_member_ids v cid rows :
  map communityId (add_member v cid rows)
  = if existsb (fun r => (communityId r =? cid)%Z) rows
    then map communityId rows else map communityId rows ++ [cid].
Proof.
  induction rows as [|r rows IH]; cbn [add_member existsb map]; [reflexivity|].
  destruct (Z.eqb_spec (communityId r) cid) as [->|Hne]; cbn [orb map]; [reflexivity|].
  rewrite IH. now destruct (existsb _ rows).
Qed.

Lemma existsb_id cid rows :
  existsb (fun r => (communityId r =? cid)%Z) rows = true <-> In cid (map communityId rows).
Proof.
  rewrite existsb_exists, in_map_iff. split.
  - intros (r & Hin & E). apply Z.eqb_eq in E. eauto.
  - intros (r & E & Hin). exists r. split; [exact Hin | now apply Z.eqb_eq].
Qed.

Lemma members_of_last cid seen v cid' :
  members_of cid (seen ++ [(v, cid')])
  = members_of cid seen ++ (if (cid' =? cid)%Z then [v] else []).
Proof.
  rewrite members_of_app. f_equal. unfold members_of. cbn.
  now destruct (cid' =? cid)%Z.
Qed.

Lemma add_member_lists seen v cid rows :
  List.NoDup (map communityId rows) ->
  (forall r, In r rows -> nodeList r = members_of (communityId r) seen) ->
  (~ In cid (map communityId rows) -> members_of cid seen = []) ->
  forall r, In r (add_member v cid rows) ->
    nodeList r = members_of (communityId r) (seen ++ [(v, cid)]).
Proof.
  induction rows as [|x rows IH]; intros Hnd Hrows Hnew r; cbn [add_member].
  - intros [<-|[]]. rewrite members_of_last. cbn [communityId nodeList].
    rewrite Z.eqb_refl, Hnew by (intros []). reflexivity.
  - cbn [map] in Hnd. apply List.NoDup_cons_iff in Hnd as [Hx Hnd].
    destruct (Z.eqb_spec (communityId x) cid) as [Ex|Ex].
    + intros [<-|Hin]; rewrite members_of_last.
      * cbn [communityId nodeList]. rewrite Z.eqb_refl, <- Ex.
        f_equal. apply Hrows. now left.
      * assert (Hne : communityId r <> cid).
        { intros E. apply Hx. rewrite Ex, <- E. now apply in_map. }
        destruct (Z.eqb_spec cid (communityId r)); [congruence|].
        rewrite List.app_nil_r. apply Hrows. now right.
    + intros [<-|Hin].
      * rewrite members_of_last. destruct (Z.eqb_spec cid (communityId x)); [congruence|].
        rewrite List.app_nil_r. apply Hrows. now left.
      * apply IH; auto.
        -- intros; apply Hrows; now right.
        -- intros Hnot. apply Hnew. intros [E|E]; [congruence | contradiction].
Qed.

Lemma add_member_grouped seen v cid rows :
  grouped seen rows -> grouped (seen ++ [(v, cid)]) (add_member v cid rows).
Proof.
  intros (Hnd & Hrows & Hseen).
  assert (Hids := add_member_ids v cid rows).
  split; [|split].
  - rewrite Hids. destruct (existsb _ rows) eqn:E; [exact Hnd|].
    apply List.NoDup_app; [exact Hnd | repeat constructor; auto |].
    intros a Ha [<-|[]]. apply existsb_id in Ha. congruence.
  - apply add_member_lists; auto.
    intros Hnot. unfold members_of.
    destruct (List.filter _ seen) as [|p l] eqn:Ef; [reflexivity|]. exfalso.
    assert (Hp : In p (List.filter (fun p => (snd p =? cid)%Z) seen))
      by (rewrite Ef; now left).
    apply filter_In in Hp as [Hp E]. apply Z.eqb_eq in E. apply Hnot.
    rewrite <- E. now apply Hseen.
  - intros p Hp. rewrite Hids. apply in_app_or in Hp as [Hp|[<-|[]]].
    + destruct (existsb _ rows); [|apply in_or_app; left]; now apply Hseen.
    + destruct (existsb _ rows) eqn:E; [now apply existsb_id|].
      apply in_or_app. right. now left.
Qed.

(** The rows COLLECT builds are the communities of the stream. *)
Lemma collect_grouped records : grouped records (collect records).
Proof.
  unfold collect.
  assert (H : forall more seen rows, grouped seen rows ->
            grouped (seen ++ more)
              (fold_left (fun rows p => add_member (fst p) (snd p) rows) more rows)).
  { induction more as [|[v cid] more IH]; intros seen rows Hg; cbn [fold_left fst snd].
    - now rewrite List.app_nil_r.
    - replace (seen ++ (v, cid) :: more) with ((seen ++ [(v, cid)]) ++ more)
        by now rewrite <- List.app_assoc.
      now apply IH, add_member_grouped. }
  apply (H records [] []). split; [constructor|]. split; intros ? [].
Qed.

(** *** The detection query and the summary record *)

(** The query reads the catalog and the engine, and writes nothing. *)
Lemma com_query_run eng name limit d :
  com_query eng name limit d =
  (if str_in name (catalog d)
   then records ← louvain_stream eng name;
        if (limit =? 0)%Z then Ok (query_rows limit records)
        else if (limit <? 0)%Z then Raise (ClientError "negative LIMIT")
        else Ok (query_rows limit records)
   else Raise (ClientError "graph does not exist"), d).
Proof.
  unfold com_query, mbind at 1, M_bind, stream, query_rows.
  destruct (str_in name (catalog d)); [|reflexivity].
  destruct (louvain_stream eng name) as [records|e]; [|reflexivity].
  cbn [mbind result_bind]. destruct (limit =? 0)%Z; [reflexivity|].
  unfold lift, limit_clause. now destruct (limit <? 0)%Z.
Qed.

Lemma com_query_same_catalog eng name limit d d' :
  catalog d = catalog d' ->
  fst (com_query eng name limit d) = fst (com_query eng name limit d').
Proof. intros H. now rewrite !com_query_run, H. Qed.

Lemma com_query_rows eng name limit d rows :
  fst (com_query eng name limit d) = Ok rows ->
  exists records, louvain_stream eng name = Ok records /\ rows = query_rows limit records.
Proof.
  rewrite com_query_run. cbn [fst]. destruct (str_in name (catalog d)); [|discriminate].
  destruct (louvain_stream eng name) as [records|e]; [|discriminate].
  cbn [mbind result_bind]. intros H. exists records. split; [reflexivity|].
  destruct (limit =? 0)%Z; [congruence|]. destruct (limit <? 0)%Z; [discriminate | congruence].
Qed.

Lemma summary_insert c scope scope' idList array_property (record : gmap string (list (list Z))) :
  summary c scope' (<[id_list c := <[scope := idList]> array_property]> record)
  = (<[scope := idList]> array_property) !! scope'.
Proof. unfold summary. now rewrite lookup_insert_eq. Qed.

(** [update_community_id_info] replaces slot [scope] of the summary array
    in every [:Community_Info] node and keeps the other slots. *)
Lemma info_written idList c scope d d' :
  update_community_id_info idList c scope d = (Ok tt, d') ->
  graph d' = graph d /\
  (forall record, In record (infos d') -> summary c scope record = Some idList) /\
  (forall scope' l, scope' <> scope ->
     (forall record, In record (infos d) -> summary c scope' record = Some l) ->
     forall record, In record (infos d') -> summary c scope' record = Some l).
Proof.
  unfold update_community_id_info.
  destruct (infos d) as [|first rest] eqn:Ei; [discriminate|].
  destruct (first !! id_list c) as [array_property|] eqn:Ea; [|discriminate].
  destruct (Nat.ltb_spec scope (length array_property)) as [Hlt|]; [|discriminate].
  intros H. inversion H. subst d'. clear H. cbn [graph infos with_infos].
  assert (Hnew : forall record,
            In record (map (fun n => <[id_list c := <[scope := idList]> array_property]> n)
                         (first :: rest)) ->
            exists n, record = <[id_list c := <[scope := idList]> array_property]> n).
  { intros record Hin. apply in_map_iff in Hin as (n & <- & _). now exists n. }
  split; [reflexivity|]. split.
  - intros record Hin. apply Hnew in Hin as [n ->].
    rewrite summary_insert. now apply list_lookup_insert_eq.
  - intros scope' l Hs Hold record Hin. apply Hnew in Hin as [n ->].
    rewrite summary_insert, list_lookup_insert_ne by congruence.
    specialize (Hold first (or_introl eq_refl)). unfold summary in Hold.
    rewrite Ea in Hold. exact Hold.
Qed.

(** One block of the detection run. *)
Lemma detect_written eng limit c suffix scope d d' :
  detect eng limit c suffix scope d = (Ok tt, d') ->
  exists rows,
    fst (com_query eng (c +:+ suffix) limit d) = Ok rows /\
    catalog d' = catalog d /\
    (forall v, membership c v scope (graph d')
               = match assigned v rows with
                 | Some cid => Some cid
                 | None => membership c v scope (graph d)
                 end) /\
    (forall v scope', scope' <> scope ->
       membership c v scope' (graph d') = membership c v scope' (graph d)) /\
    (forall record, In record (infos d') ->
       summary c scope record = Some (map communityId rows)) /\
    (forall scope' l, scope' <> scope ->
       (forall record, In record (infos d) -> summary c scope' record = Some l) ->
       forall record, In record (infos d') -> summary c scope' record = Some l).
Proof.
  intros H. pose proof (keeps_detect eng limit c suffix scope d) as Hcat.
  rewrite H in Hcat. cbn [snd] in Hcat.
  unfold detect, mbind at 1, M_bind at 1 in H.
  pose proof (com_query_run eng (c +:+ suffix) limit d) as Hq.
  destruct (com_query eng (c +:+ suffix) limit d) as [[rows|e] d0] eqn:Eq; [|discriminate].
  assert (d0 = d) by (now inversion Hq). subst d0.
  unfold mbind at 1, M_bind at 1 in H.
  destruct (for_each _ rows d) as [[[]|e] d1] eqn:Ef; [|discriminate].
  destruct (rows_written _ _ _ _ _ Ef) as (Hi1 & _ & Hm1 & Ho1).
  destruct (info_written _ _ _ _ _ H) as (Hg & Hs & Hso).
  exists rows. split; [reflexivity|]. split; [exact Hcat|]. rewrite Hg.
  split; [exact Hm1|]. split; [exact Ho1|]. split; [exact Hs|].
  intros scope' l Hne Hold. apply Hso; [exact Hne|]. now rewrite Hi1.
Qed.

(** The three blocks in a row: every slot holds what its own block wrote. *)
Lemma detection_written eng limit c d d' :
  update_community_detection eng limit c d = (Ok tt, d') ->
  forall suffix scope,
    In (suffix, scope) [("_owned", 0%nat); ("_trx", 1%nat); ("_owned_trx", 2%nat)] ->
    exists rows,
      fst (com_query eng (c +:+ suffix) limit d) = Ok rows /\
      (forall v cid, assigned v rows = Some cid ->
         membership c v scope (graph d') = Some cid) /\
      (forall record, In record (infos d') ->
         summary c scope record = Some (map communityId rows)).
Proof.
  unfold update_community_detection. intros H.
  unfold mbind at 1, M_bind at 1 in H.
  destruct (detect eng limit c "_owned" 0%nat d) as [[[]|e] d1] eqn:E0; [|discriminate].
  unfold mbind at 1, M_bind at 1 in H.
  destruct (detect eng limit c "_trx" 1%nat d1) as [[[]|e] d2] eqn:E1; [|discriminate].
  destruct (detect_written _ _ _ _ _ _ _ E0) as (rows0 & Hq0 & Hc0 & Hm0 & _ & Hs0 & _).
  destruct (detect_written _ _ _ _ _ _ _ E1) as (rows1 & Hq1 & Hc1 & Hm1 & Ho1 & Hs1 & Hso1).
  destruct (detect_written _ _ _ _ _ _ _ H) as (rows2 & Hq2 & Hc2 & Hm2 & Ho2 & Hs2 & Hso2).
  rewrite (com_query_same_catalog _ _ _ d1 d) in Hq1 by exact Hc0.
  rewrite (com_query_same_catalog _ _ _ d2 d) in Hq2 by congruence.
  intros suffix scope [E|[E|[E|[]]]]; inversion E; subst suffix scope; clear E.
  - exists rows0. split; [exact Hq0|]. split.
    + intros v cid Hv. rewrite Ho2, Ho1 by discriminate. rewrite Hm0. now rewrite Hv.
    + apply Hso2; [discriminate|]. apply Hso1; [discriminate | exact Hs0].
  - exists rows1. split; [exact Hq1|]. split.
    + intros v cid Hv. rewrite Ho2 by discriminate. rewrite Hm1. now rewrite Hv.
    + apply Hso2; [discriminate | exact Hs1].
  - exists rows2. split; [exact Hq2|]. split.
    + intros v cid Hv. rewrite Hm2. now rewrite Hv.
    + exact Hs2.
Qed.

(** *** A run on a well-formed database completes *)

Lemma has_slots_set c g v v' scope cid l :
  node_property (com_id_list c) v g = Some l ->
  has_slots c g v' = true ->
  has_slots c (set_node_property (com_id_list c) v (<[scope := cid]> l) g) v' = true.
Proof.
  intros Hl. unfold has_slots. destruct (Nat.eq_dec v v') as [<-|Hne].
  - rewrite node_property_set_same by (rewrite Hl; eauto). now rewrite Hl, length_insert.
  - now rewrite node_property_set_other by now left.
Qed.

Lemma has_slots_updates c scope cid updates : forall g v',
  (forall u, In u updates ->
     exists l, node_property (com_id_list c) (fst u) g = Some l /\
               snd u = <[scope := cid]> l) ->
  has_slots c g v' = true ->
  has_slots c (update_node_properties updates (com_id_list c) g) v' = true.
Proof.
  unfold update_node_properties.
  induction updates as [|u updates IH]; intros g v' Hval Hv'; cbn [fold_left]; [exact Hv'|].
  destruct (Hval u (or_introl eq_refl)) as (l & Hl & Hs).
  apply IH; [|rewrite Hs; now apply has_slots_set].
  intros u' Hu'. destruct (Hval u' (or_intror Hu')) as (l' & Hl' & Hs').
  destruct (Nat.eq_dec (fst u) (fst u')) as [E|E].
  - rewrite <- E, node_property_set_same by (rewrite Hl; eauto).
    exists (snd u). split; [reflexivity|].
    rewrite Hs', Hs. rewrite E in Hl. assert (l = l') by congruence. subst l'.
    symmetry. apply list_insert_insert_eq.
  - rewrite node_property_set_other by now left. eauto.
Qed.

Lemma node_updates_ok c scope cid g nodes :
  (scope < 3)%nat -> (forall v, In v nodes -> has_slots c g v = true) ->
  exists updates, node_updates (com_id_list c) scope cid nodes g = Ok updates.
Proof.
  intros Hscope. induction nodes as [|v nodes IH]; intros H; cbn [node_updates]; [eauto|].
  destruct IH as [more ->]; [intros; apply H; now right|].
  specialize (H v (or_introl eq_refl)). unfold has_slots in H. unfold assign_slot.
  destruct (node_property (com_id_list c) v g) as [l|]; [|discriminate].
  apply Nat.leb_le in H. destruct (Nat.ltb_spec scope (length l)); [|lia].
  cbn. eauto.
Qed.

Lemma members_ok c cid nodes scope d :
  (scope < 3)%nat -> (forall v, In v nodes -> has_slots c (graph d) v = true) ->
  exists d', update_nodes_com_property c cid nodes scope d = (Ok tt, d') /\
             infos d' = infos d /\
             forall v, has_slots c (graph d) v = true -> has_slots c (graph d') v = true.
Proof.
  intros Hscope Hnodes. unfold update_nodes_com_property.
  destruct (node_updates_ok c scope cid (graph d) nodes Hscope Hnodes) as [updates E].
  rewrite E. eexists. split; [reflexivity|]. split; [reflexivity|].
  intros v Hv. cbn [graph with_graph]. apply has_slots_updates with (scope := scope) (cid := cid);
    [|exact Hv].
  intros u Hu. destruct (node_updates_spec _ _ _ _ _ _ E) as [_ Hval].
  destruct (Hval u Hu) as (l & Hl & _ & Hs). eauto.
Qed.

Lemma rows_ok c scope rows : forall d,
  (scope < 3)%nat ->
  (forall r v, In r rows -> In v (nodeList r) -> has_slots c (graph d) v = true) ->
  exists d',
    for_each (fun record =>
        update_nodes_com_property c (communityId record) (nodeList record) scope) rows d
    = (Ok tt, d') /\
    infos d' = infos d /\
    forall v, has_slots c (graph d) v = true -> has_slots c (graph d') v = true.
Proof.
  induction rows as [|r rows IH]; intros d Hscope Hrows; cbn [for_each].
  - exists d. now repeat split.
  - destruct (members_ok c (communityId r) (nodeList r) scope d Hscope)
      as (d1 & E1 & Hi1 & Hk1); [intros v Hv; apply (Hrows r); auto; now left|].
    destruct (IH d1 Hscope) as (d' & E & Hi & Hk).
    { intros r' v Hr' Hv. apply Hk1, (Hrows r'); auto. now right. }
    exists d'. unfold mbind, M_bind. rewrite E1. split; [exact E|].
    split; [congruence | auto].
Qed.

(** The nodes of the rows of the query are nodes of the stream. *)
Lemma query_rows_nodes limit records r v :
  In r (query_rows limit records) -> In v (nodeList r) -> In v (map fst records).
Proof.
  intros Hr Hv.
  assert (Hc : In r (collect records)).
  { apply (Permutation_in _ (order_perm (collect records))).
    unfold query_rows in Hr. destruct (limit =? 0)%Z; [exact Hr|].
    rewrite <- (firstn_skipn (Z.to_nat limit)). apply in_or_app. now left. }
  destruct (collect_grouped records) as (_ & Hlist & _).
  rewrite (Hlist r Hc) in Hv. unfold members_of in Hv.
  apply in_map_iff in Hv as (p & <- & Hp). apply filter_In in Hp as [Hp _].
  now apply in_map.
Qed.

Lemma info_ok idList c scope d :
  (scope < 3)%nat -> shaped c d ->
  exists d', update_community_id_info idList c scope d = (Ok tt, d') /\
    graph d' = graph d /\ shaped c d'.
Proof.
  intros Hscope (record & rest & arr & Hi & Ha & Hlen).
  unfold shaped, update_community_id_info.
  rewrite Hi, Ha. destruct (Nat.ltb_spec scope (length arr)); [|lia].
  eexists. split; [reflexivity|]. split; [reflexivity|].
  cbn [infos with_infos map]. do 3 eexists. split; [reflexivity|].
  rewrite lookup_insert_eq. split; [reflexivity|]. now rewrite length_insert.
Qed.

Lemma detect_ok eng limit c suffix scope records d :
  (scope < 3)%nat -> (0 <= limit)%Z ->
  str_in (c +:+ suffix) (catalog d) = true ->
  louvain_stream eng (c +:+ suffix) = Ok records ->
  (forall p, In p records -> has_slots c (graph d) (fst p) = true) ->
  shaped c d ->
  exists d', detect eng limit c suffix scope d = (Ok tt, d') /\
    catalog d' = catalog d /\ shaped c d' /\
    forall v, has_slots c (graph d) v = true -> has_slots c (graph d') v = true.
Proof.
  intros Hscope Hlimit Hcat Hstream Hnodes Hshape.
  unfold detect, mbind at 1, M_bind at 1. rewrite com_query_run, Hcat, Hstream.
  cbn [mbind result_bind].
  assert (Hq : (if (limit =? 0)%Z then Ok (query_rows limit records)
                else if (limit <? 0)%Z then Raise (ClientError "negative LIMIT")
                     else Ok (query_rows limit records)) = Ok (query_rows limit records)).
  { destruct (limit =? 0)%Z; [reflexivity|]. destruct (Z.ltb_spec limit 0); [lia|reflexivity]. }
  rewrite Hq. clear Hq.
  destruct (rows_ok c scope (query_rows limit records) d Hscope) as (d1 & E1 & Hi1 & Hk1).
  { intros r v Hr Hv. apply (query_rows_nodes _ _ _ _ Hr) in Hv.
    apply in_map_iff in Hv as (p & <- & Hp). now apply Hnodes. }
  unfold mbind at 1, M_bind at 1. rewrite E1.
  destruct (info_ok (map communityId (query_rows limit records)) c scope d1 Hscope)
    as (d' & E & Hg & Hshape').
  { unfold shaped in *. now rewrite Hi1. }
  exists d'. split; [exact E|].
  pose proof (keeps_info (map communityId (query_rows limit records)) c scope d1) as K2.
  pose proof (keeps_for_each _ (query_rows limit records)
                (fun r => keeps_members c (communityId r) (nodeList r) scope) d) as K1.
  rewrite E in K2. rewrite E1 in K1. cbn [snd] in K1, K2.
  split; [congruence|]. split; [exact Hshape'|]. intros v Hv. rewrite Hg. auto.
Qed.

(** A detection run on a ready database returns normally. *)
Lemma detection_completes eng limit c d :
  ready eng limit c d = true ->
  exists d', update_community_detection eng limit c d = (Ok tt, d').
Proof.
  unfold ready. intros H.
  apply andb_prop in H as [H Hinfo]. apply andb_prop in H as [Hlimit Hproj].
  apply Z.leb_le in Hlimit. cbn [forallb] in Hproj.
  apply andb_prop in Hproj as [H0 Hproj]. apply andb_prop in Hproj as [H1 Hproj].
  apply andb_prop in Hproj as [H2 _].
  apply andb_prop in H0 as [Hc0 Hs0]. apply andb_prop in H1 as [Hc1 Hs1].
  apply andb_prop in H2 as [Hc2 Hs2].
  destruct (louvain_stream eng (c +:+ "_owned")) as [rec0|] eqn:E0; [|discriminate].
  destruct (louvain_stream eng (c +:+ "_trx")) as [rec1|] eqn:E1; [|discriminate].
  destruct (louvain_stream eng (c +:+ "_owned_trx")) as [rec2|] eqn:E2; [|discriminate].
  rewrite forallb_forall in Hs0, Hs1, Hs2.
  assert (Hshape : shaped c d).
  { unfold shaped. destruct (infos d) as [|record rest]; [discriminate|].
    destruct (record !! id_list c) as [arr|] eqn:Ea; [|discriminate].
    apply Nat.leb_le in Hinfo. eauto 6. }
  unfold update_community_detection.
  assert (Hlt : (0 < 3 /\ 1 < 3 /\ 2 < 3)%nat) by lia. destruct Hlt as (L0 & L1 & L2).
  destruct (detect_ok eng limit c "_owned" 0%nat rec0 d L0 Hlimit Hc0 E0 Hs0 Hshape)
    as (d1 & D0 & C0 & S0 & K0).
  rewrite <- C0 in Hc1, Hc2.
  destruct (detect_ok eng limit c "_trx" 1%nat rec1 d1 L1 Hlimit Hc1 E1
              (fun p Hp => K0 _ (Hs1 p Hp)) S0) as (d2 & D1 & C1 & S1 & K1).
  rewrite <- C1 in Hc2.
  destruct (detect_ok eng limit c "_owned_trx" 2%nat rec2 d2 L2 Hlimit Hc2 E2
              (fun p Hp => K1 _ (K0 _ (Hs2 p Hp))) S1) as (d3 & D2 & _).
  exists d3. unfold mbind, M_bind. now rewrite D0, D1.
Qed.

(** *** The claim on the summary list *)

(** C9: a detection run on a ready database completes, and the summary
    list it stored for a scope holds the ids of the rows of that scope's
    query.  These rows are the communities of the engine's stream (one row
    per community id with the nodes streamed for it) cut to the [limit]
    largest, largest first: they are in descending order of size, no
    community left out is larger than one kept, and their number is
    [limit], or the number of communities when that is smaller or [limit]
    is 0. *)
Theorem summary_largest_first eng limit c d :
  ready eng limit c d = true ->
  exists d',
    update_community_detection eng limit c d = (Ok tt, d') /\
    forall label suffix scope, In (label, (suffix, scope)) scope_projection ->
    exists records communities rest,
      louvain_stream eng (c +:+ suffix) = Ok records /\
      grouped records communities /\
      Permutation (query_rows limit records ++ rest) communities /\
      descending (query_rows limit records) /\
      (forall r r', In r (query_rows limit records) -> In r' rest ->
         (size r' <= size r)%nat) /\
      length (query_rows limit records)
      = (if (limit =? 0)%Z then length communities
         else Nat.min (Z.to_nat limit) (length communities)) /\
      forall record, In record (infos d') ->
        summary c scope record = Some (map communityId (query_rows limit records)).
Proof.
  intros Hready. destruct (detection_completes _ _ _ _ Hready) as [d' Hrun].
  exists d'. split; [exact Hrun|]. intros label suffix scope Hin.
  assert (Hs : In (suffix, scope)
                 [("_owned", 0%nat); ("_trx", 1%nat); ("_owned_trx", 2%nat)]).
  { destruct Hin as [E|[E|[E|[]]]]; inversion E; cbn; auto. }
  destruct (detection_written _ _ _ _ _ Hrun _ _ Hs) as (rows & Hq & _ & Hsum).
  destruct (com_query_rows _ _ _ _ _ Hq) as (records & Hrec & ->).
  destruct (query_rows_top limit records) as (rest & Hperm & Hdesc & Hle & Hlen).
  exists records, (collect records), rest.
  repeat split; auto using collect_grouped; apply collect_grouped.
Qed.

Lemma map_constant {A B : Type} (f : A -> B) (y : B) (l : list A) :
  (forall x, In x l -> f x = y) -> map f l = repeat y (length l).
Proof.
  induction l as [|x l IH]; intros H; cbn; [reflexivity|].
  rewrite H by now left. f_equal. apply IH. intros; apply H; now right.
Qed.

Lemma summary_largest_first_witness :
  map (summary "boredapeyachtclub" 0)
    (infos (snd (update_community_detection Samples.five_engine 3 "boredapeyachtclub"
                   Samples.five_store)))
  = [Some [64; 65; 62]].
Proof.
  destruct (summary_largest_first Samples.five_engine 3 "boredapeyachtclub"
              Samples.five_store) as (d' & Hrun & Htop); [vm_compute; reflexivity|].
  destruct (Htop "ownership" "_owned" 0%nat (or_introl eq_refl))
    as (records & communities & rest & Hrec & _ & _ & _ & _ & _ & Hsum).
  injection Hrec as <-. rewrite Hrun. cbn [snd].
  rewrite (map_constant _ _ _ Hsum).
  assert (Hlen : length (infos d') = 1%nat).
  { apply (f_equal (fun x => length (infos (snd x)))) in Hrun. cbn [snd] in Hrun.
    rewrite <- Hrun. vm_compute. reflexivity. }
  rewrite Hlen. reflexivity.
Defined.

End CommunityFacts.

(** ** Facts about the readers *)

Module ReaderFacts.
Import Graph Store CommunityDetection CommunityLogic CatalogFacts CommunityFacts.

Lemma get_scope_cases {U : Casing} scope :
  (upper scope = "OWNERSHIP" /\ get_scope scope = Ok 0%nat) \/
  (upper scope = "TRANSACTION" /\ get_scope scope = Ok 1%nat) \/
  (upper scope = "ALL" /\ get_scope scope = Ok 2%nat) \/
  (~ In (upper scope) ["OWNERSHIP"; "TRANSACTION"; "ALL"] /\
   get_scope scope
   = Raise (NotExistsException ("scope " +:+ scope +:+ " does not exists"))).
Proof.
  unfold get_scope.
  destruct (String.eqb_spec (upper scope) "OWNERSHIP") as [E0|N0]; [now left|].
  destruct (String.eqb_spec (upper scope) "TRANSACTION") as [E1|N1]; [right; now left|].
  destruct (String.eqb_spec (upper scope) "ALL") as [E2|N2]; [right; right; now left|].
  right. right. right. split; [|reflexivity].
  intros [H|[H|[H|[]]]]; congruence.
Qed.

(** The scope labels of the writer's projections are ASCII: every case
    mapping sends them to the reader's constants. *)
Lemma get_scope_labels {U : Casing} label suffix scope :
  In (label, (suffix, scope)) scope_projection ->
  In (suffix, scope) [("_owned", 0%nat); ("_trx", 1%nat); ("_owned_trx", 2%nat)] /\
  get_scope label = Ok scope.
Proof.
  intros [E|[E|[E|[]]]]; inversion E; subst; (split; [cbn; auto|]);
    unfold get_scope; rewrite upper_plain by reflexivity; reflexivity.
Qed.

(** C8, counterexample: the labels OWNERSHIP and All are none of
    "ownership", "transaction", "all", and they are mapped to the slots 0
    and 2. *)
Lemma upper_case_scope_accepted :
  get_scope (U := Samples.ascii_casing) "OWNERSHIP" = Ok 0%nat /\
  get_scope (U := Samples.ascii_casing) "All" = Ok 2%nat /\
  ~ In "OWNERSHIP" ["ownership"; "transaction"; "all"] /\
  ~ In "All" ["ownership"; "transaction"; "all"].
Proof.
  repeat split; try reflexivity; intros [H|[H|[H|[]]]]; discriminate.
Qed.

(** C8, as the code has it.  A detection run on a ready database
    completes and has written,
    for the projection of each scope, the community of every member node
    into the slot the reader maps the scope's label to: 0 for
    "ownership", 1 for "transaction", 2 for "all".  The reader compares
    labels after upper-casing them with [str.upper]: a label is mapped to
    slot 0, 1, 2 exactly when its upper-case form is OWNERSHIP,
    TRANSACTION, ALL, and every other label is rejected with the
    does-not-exist exception.  For a label of ASCII characters the
    upper-case form is the label with a-z turned into A-Z, so OWNERSHIP
    and All are mapped to a slot like ownership and all. *)
Theorem scope_slots {U : Casing} :
  (forall eng limit c d,
     ready eng limit c d = true ->
     exists d',
       update_community_detection eng limit c d = (Ok tt, d') /\
       forall label suffix scope, In (label, (suffix, scope)) scope_projection ->
         get_scope label = Ok scope /\
         exists rows,
           fst (com_query eng (c +:+ suffix) limit d) = Ok rows /\
           forall v cid, assigned v rows = Some cid ->
             membership c v scope (graph d') = Some cid) /\
  (forall scope k,
     get_scope scope = Ok k <->
     nth_error ["OWNERSHIP"; "TRANSACTION"; "ALL"] k = Some (upper scope)) /\
  (forall scope,
     ~ In (upper scope) ["OWNERSHIP"; "TRANSACTION"; "ALL"] ->
     get_scope scope
     = Raise (NotExistsException ("scope " +:+ scope +:+ " does not exists"))) /\
  (forall scope k,
     plain scope = true ->
     (get_scope scope = Ok k <->
      nth_error ["OWNERSHIP"; "TRANSACTION"; "ALL"] k = Some (ascii_upper scope))).
Proof.
  assert (Hiff : forall scope k,
            get_scope scope = Ok k <->
            nth_error ["OWNERSHIP"; "TRANSACTION"; "ALL"] k = Some (upper scope)).
  { intros scope k.
    destruct (get_scope_cases scope) as [[E ->]|[[E ->]|[[E ->]|[N ->]]]]; rewrite ?E.
    + split; [intros H; now inversion H|].
      destruct k as [|[|[|k]]]; cbn; try discriminate; try reflexivity.
      now destruct k.
    + split; [intros H; now inversion H|].
      destruct k as [|[|[|k]]]; cbn; try discriminate; try reflexivity.
      now destruct k.
    + split; [intros H; now inversion H|].
      destruct k as [|[|[|k]]]; cbn; try discriminate; try reflexivity.
      now destruct k.
    + split; [discriminate|]. intros H. exfalso. apply N.
      apply nth_error_In in H. exact H. }
  split; [|split; [exact Hiff | split]].
  - intros eng limit c d Hready.
    destruct (detection_completes _ _ _ _ Hready) as [d' Hrun].
    exists d'. split; [exact Hrun|]. intros label suffix scope Hin.
    destruct (get_scope_labels _ _ _ Hin) as [Hs Hlabel]. split; [exact Hlabel|].
    destruct (detection_written _ _ _ _ _ Hrun _ _ Hs) as (rows & Hq & Hm & _).
    now exists rows.
  - intros scope N.
    destruct (get_scope_cases scope) as [[E _]|[[E _]|[[E _]|[_ H]]]]; [| | |exact H];
      exfalso; apply N; rewrite E; cbn; auto.
  - intros scope k Hplain. rewrite <- (upper_plain scope Hplain). apply Hiff.
Qed.

Lemma scope_slots_witness :
  membership "boredapeyachtclub" 10 1
    (graph (snd (update_community_detection Samples.engine 100 "boredapeyachtclub"
                   Samples.projected))) = Some 70 /\
  get_scope (U := Samples.ascii_casing) "owners"
  = Raise (NotExistsException "scope owners does not exists") /\
  get_scope (U := Samples.ascii_casing) "Transaction" = Ok 1%nat.
Proof.
  destruct (scope_slots (U := Samples.ascii_casing)) as (Hwrite & _ & Hreject & Hplain).
  split; [|split].
  - destruct (Hwrite Samples.engine 100 "boredapeyachtclub" Samples.projected)
      as (d' & Hrun & Hslots); [vm_compute; reflexivity|].
    destruct (Hslots "transaction" "_trx" 1%nat (or_intror (or_introl eq_refl)))
      as (_ & rows & Hq & Hm).
    rewrite Hrun. cbn [snd]. apply Hm. vm_compute in Hq. injection Hq as <-. reflexivity.
  - apply (Hreject "owners"). vm_compute. intros [H|[H|[H|[]]]]; discriminate.
  - apply Hplain; reflexivity.
Defined.

(** *** Unknown collections, scopes and community ids *)

Lemma upper_length {U : Casing} l : length (map upper l) = length l.
Proof. apply length_map. Qed.

Lemma community_collection_unknown {U : Casing} collection :
  ~ known_collection collection ->
  CommunityLogic.get_collection collection
  = Raise (NotExistsException "Collection does not exist").
Proof.
  unfold known_collection, CommunityLogic.get_collection.
  destruct (map upper collection) as [|a [|b [|x rest]]]; intros H; try reflexivity.
  - destruct (String.eqb_spec a "BOREDAPES") as [->|]; [exfalso; apply H; now left|].
    destruct (String.eqb_spec a "DEGODS") as [->|]; [exfalso; apply H; right; now left|].
    reflexivity.
  - destruct (str_in "BOREDAPES" [a; b]) eqn:E1; [|reflexivity].
    destruct (str_in "DEGODS" [a; b]) eqn:E2; [|reflexivity].
    exfalso. apply H. right. right. apply str_in_In in E1, E2. auto.
Qed.

Lemma centrality_collection_unknown {U : Casing} collection :
  ~ known_collection collection ->
  Centrality.get_collection collection
  = Raise (NotExistsException "Collection does not exist").
Proof.
  unfold known_collection, Centrality.get_collection.
  destruct (map upper collection) as [|a [|b [|x rest]]]; intros H; try reflexivity.
  - destruct (String.eqb_spec a "BOREDAPES") as [->|]; [exfalso; apply H; now left|].
    destruct (String.eqb_spec a "DEGODS") as [->|]; [exfalso; apply H; right; now left|].
    reflexivity.
  - destruct (str_in "BOREDAPES" [a; b]) eqn:E1; [|reflexivity].
    destruct (str_in "DEGODS" [a; b]) eqn:E2; [|reflexivity].
    exfalso. apply H. right. right. apply str_in_In in E1, E2. auto.
Qed.

(** A community id that no node carries in the slot of the scope. *)
Lemma community_unknown {U : Casing} eng community_id scope collection limit d k c :
  get_scope scope = Ok k -> CommunityLogic.get_collection collection = Ok c ->
  node_count (c +:+ "_com_id_list") k community_id (graph d) = 0%nat ->
  fst (get_single_community eng community_id scope collection limit d)
  = Raise (NotExistsException "the collection with this id does not exist").
Proof.
  intros Hs Hc Hn. unfold get_single_community.
  unfold mbind at 1, M_bind at 1, lift at 1. rewrite Hs.
  unfold mbind at 1, M_bind at 1, lift at 1. rewrite Hc.
  pose proof (cleanup "tempGraph" d) as Hclean.
  unfold mbind, M_bind in *. unfold graph_list in *. cbn beta iota in *.
  destruct (str_in "tempGraph" (catalog d)).
  - rewrite Hclean. cbn [graph with_catalog]. now rewrite Hn.
  - unfold mret at 1, M_ret at 1. now rewrite Hn.
Qed.

(** What the single-community reader does for a known scope and
    collection. *)
Lemma single_community_run {U : Casing} eng community_id scope collection limit d k c :
  get_scope scope = Ok k -> CommunityLogic.get_collection collection = Ok c ->
  get_single_community eng community_id scope collection limit d =
  let n := node_count (c +:+ "_com_id_list") k community_id (graph d) in
  let free := without "tempGraph" (catalog d) in
  if (n =? 0)%nat
  then (Raise (NotExistsException "the collection with this id does not exist"),
        with_catalog free d)
  else match degree_stream eng "tempGraph" ≫= limit_clause limit with
       | Ok nodes => (Ok (n, nodes), with_catalog free d)
       | Raise e => (Raise e, with_catalog (free ++ ["tempGraph"]) d)
       end.
Proof.
  intros Hs Hc. unfold get_single_community.
  unfold mbind at 1, M_bind at 1, lift at 1. rewrite Hs.
  unfold mbind at 1, M_bind at 1, lift at 1. rewrite Hc.
  pose proof (cleanup "tempGraph" d) as Hclean.
  unfold mbind, M_bind in *. unfold graph_list in *. cbn beta iota zeta in *.
  destruct (str_in "tempGraph" (catalog d)) eqn:E.
  - rewrite Hclean. clear Hclean. cbn [graph with_catalog].
    destruct (_ =? 0)%nat; [reflexivity|].
    rewrite graph_project_absent by apply without_gone.
    unfold stream. cbn [catalog with_catalog]. rewrite created_present.
    destruct (degree_stream eng "tempGraph") as [scored|e]; [|reflexivity].
    unfold lift. cbn. destruct (limit_clause limit scored) as [nodes|e]; [|reflexivity].
    rewrite graph_drop_present by apply created_present.
    cbn [catalog with_catalog]. now rewrite without_created.
  - unfold mret at 1, M_ret at 1. clear Hclean. rewrite (without_absent _ _ E).
    assert (Hd : with_catalog (catalog d) d = d) by now destruct d.
    destruct (_ =? 0)%nat; [unfold throw; now rewrite Hd|].
    rewrite graph_project_absent by exact E.
    unfold stream. cbn [catalog with_catalog]. rewrite created_present.
    destruct (degree_stream eng "tempGraph") as [scored|e]; [|reflexivity].
    unfold lift. cbn. destruct (limit_clause limit scored) as [nodes|e]; [|reflexivity].
    rewrite graph_drop_present by apply created_present.
    cbn [catalog with_catalog].
    pose proof (without_created "tempGraph" (catalog d)) as Hw.
    rewrite (without_absent _ _ E) in Hw. now rewrite Hw.
Qed.

(** An unknown scope or collection ends a reader before its first
    query. *)
Lemma single_community_unknown_scope {U : Casing} eng community_id scope collection limit d e :
  get_scope scope = Raise e ->
  get_single_community eng community_id scope collection limit d = (Raise e, d).
Proof.
  intros H. unfold get_single_community, mbind, M_bind, lift. now rewrite H.
Qed.

Lemma single_community_unknown_collection {U : Casing} eng community_id scope collection
    limit d k e :
  get_scope scope = Ok k -> CommunityLogic.get_collection collection = Raise e ->
  get_single_community eng community_id scope collection limit d = (Raise e, d).
Proof.
  intros Hs Hc. unfold get_single_community, mbind, M_bind, lift. now rewrite Hs, Hc.
Qed.

Lemma central_unknown_collection {U : Casing} eng limit collection d e :
  Centrality.get_collection collection = Raise e ->
  Centrality.get_most_central_nodes eng limit collection d = (Raise e, d).
Proof.
  intros H. unfold Centrality.get_most_central_nodes, mbind, M_bind, lift. now rewrite H.
Qed.

Lemma summary_unknown {U : Casing} limit scope collection d :
  (forall e, get_scope scope = Raise e ->
     Summary.selected_community_ids limit scope collection d = (Raise e, d)) /\
  (forall k e, get_scope scope = Ok k ->
     CommunityLogic.get_collection collection = Raise e ->
     Summary.selected_community_ids limit scope collection d = (Raise e, d)).
Proof.
  split.
  - intros e H. unfold Summary.selected_community_ids, mbind, M_bind, lift. now rewrite H.
  - intros k e Hs Hc. unfold Summary.selected_community_ids, mbind, M_bind, lift.
    now rewrite Hs, Hc.
Qed.

(** C10, counterexample: no [:Update_Info] node exists for the collection
    cryptopunks, and its refresh frequency reads 86000 seconds. *)
Lemma unknown_collection_default_frequency :
  Ingest.info_for "cryptopunks" Samples.update_infos = [] /\
  Ingest.get_update_frequency "cryptopunks" Samples.update_infos = 86000.
Proof. split; reflexivity. Qed.

(** C10, as the code has it.  A scope label whose upper-case form
    ([str.upper]) is none of OWNERSHIP, TRANSACTION, ALL is rejected by
    [get_scope] with the does-not-exist exception, and the community and
    summary readers end with that exception before their first query.  A
    collection list whose upper-case form is not one the readers know is
    rejected in the same way by both [get_collection], and the
    community, summary and centrality readers end with that exception
    before their first query.  A community id that no node carries in
    the slot of the scope ends [get_single_community] with the
    does-not-exist exception after the stale projection, if any, was
    dropped and before one is created.  Reading the refresh frequency of
    a collection without an [:Update_Info] node returns the default 86000
    seconds. *)
Theorem unknown_inputs {U : Casing} :
  (forall scope,
     ~ In (upper scope) ["OWNERSHIP"; "TRANSACTION"; "ALL"] ->
     exists msg,
       get_scope scope = Raise (NotExistsException msg) /\
       (forall eng community_id collection limit d,
          get_single_community eng community_id scope collection limit d
          = (Raise (NotExistsException msg), d)) /\
       (forall limit collection d,
          Summary.selected_community_ids limit scope collection d
          = (Raise (NotExistsException msg), d))) /\
  (forall collection,
     ~ known_collection collection ->
     exists msg,
       CommunityLogic.get_collection collection = Raise (NotExistsException msg) /\
       Centrality.get_collection collection = Raise (NotExistsException msg) /\
       (forall eng limit d,
          Centrality.get_most_central_nodes eng limit collection d
          = (Raise (NotExistsException msg), d)) /\
       (forall eng community_id scope limit d k,
          get_scope scope = Ok k ->
          get_single_community eng community_id scope collection limit d
          = (Raise (NotExistsException msg), d)) /\
       (forall limit scope d k,
          get_scope scope = Ok k ->
          Summary.selected_community_ids limit scope collection d
          = (Raise (NotExistsException msg), d))) /\
  (forall eng community_id scope collection limit d k c,
     get_scope scope = Ok k -> CommunityLogic.get_collection collection = Ok c ->
     node_count (c +:+ "_com_id_list") k community_id (graph d) = 0%nat ->
     exists msg,
       get_single_community eng community_id scope collection limit d
       = (Raise (NotExistsException msg),
          with_catalog (without "tempGraph" (catalog d)) d)) /\
  (forall c infos,
     Ingest.info_for c infos = [] -> Ingest.get_update_frequency c infos = 86000).
Proof.
  split; [|split; [|split]].
  - intros scope N. eexists.
    assert (H : get_scope scope
                = Raise (NotExistsException ("scope " +:+ scope +:+ " does not exists"))).
    { destruct (get_scope_cases scope) as [[E _]|[[E _]|[[E _]|[_ H]]]]; [| | |exact H];
        exfalso; apply N; rewrite E; cbn; auto. }
    split; [exact H|]. split.
    + intros. now apply single_community_unknown_scope.
    + intros. now apply summary_unknown.
  - intros collection H. eexists.
    pose proof (community_collection_unknown _ H) as H1.
    pose proof (centrality_collection_unknown _ H) as H2.
    split; [exact H1|]. split; [exact H2|]. split; [|split].
    + intros. now apply central_unknown_collection.
    + intros. now apply (single_community_unknown_collection _ _ _ _ _ _ k).
    + intros limit scope d k Hs.
      destruct (summary_unknown limit scope collection d) as [_ Hsum].
      now apply (Hsum k).
  - intros eng community_id scope collection limit d k c Hs Hc Hn. eexists.
    rewrite (single_community_run _ _ _ _ _ _ _ _ Hs Hc). cbn zeta. now rewrite Hn.
  - intros c infos H. unfold Ingest.get_update_frequency. now rewrite H.
Qed.

Lemma unknown_inputs_witness :
  (exists msg, get_scope (U := Samples.ascii_casing) "owners"
               = Raise (NotExistsException msg)) /\
  (exists msg, CommunityLogic.get_collection (U := Samples.ascii_casing) ["cryptopunks"]
               = Raise (NotExistsException msg)) /\
  (exists msg,
     get_single_community (U := Samples.ascii_casing) Samples.engine 99 "ownership"
       ["boredapes"] 10 Samples.store
     = (Raise (NotExistsException msg), Store.with_catalog [] Samples.store)) /\
  Ingest.get_update_frequency "cryptopunks" Samples.update_infos = 86000.
Proof.
  destruct (unknown_inputs (U := Samples.ascii_casing))
    as (Hscope & Hcollection & Hcommunity & Hfrequency).
  split; [|split; [|split]].
  - destruct (Hscope "owners") as (msg & H & _); [|now exists msg].
    vm_compute. intros [H|[H|[H|[]]]]; discriminate.
  - destruct (Hcollection ["cryptopunks"]) as (msg & H & _); [|now exists msg].
    unfold known_collection. vm_compute.
    intros [H|[H|(H & _)]]; discriminate.
  - destruct (Hcommunity Samples.engine 99 "ownership" ["boredapes"] 10 Samples.store
                0%nat "boredapeyachtclub") as [msg H]; try reflexivity.
    exists msg. exact H.
  - apply Hfrequency. reflexivity.
Defined.

End ReaderFacts.

(** ** Further facts about the ingestion run *)

Module IngestMoreFacts.
Import Graph Ingest Frequency Views.

(** *** Entities that are not due *)

Lemma skip_all fuel feed c t addr ids_list fr :
  (forall info, In info ids_list -> is_due t (id_updated_at info) = false) ->
  get_data_from_opensea fuel feed c t addr ids_list fr = Done fr.
Proof.
  induction ids_list as [|info rest IH]; intros H; cbn [get_data_from_opensea];
    [reflexivity|].
  rewrite (H info) by now left. apply IH. intros; apply H; now right.
Qed.

(** An entity synchronised less than two days before the run is skipped:
    when no entity of the list is due, the run makes no request and
    leaves the graph and its locals as they were. *)
Theorem nothing_due_nothing_done fuel feed c t addr ids_list fr :
  (forall info, In info ids_list -> t - id_updated_at info < 2 * 86400) ->
  get_data_from_opensea fuel feed c t addr ids_list fr = Done fr.
Proof.
  intros H. apply skip_all. intros info Hin. unfold is_due. apply Z.leb_gt. now apply H.
Qed.

Lemma nothing_due_nothing_done_witness :
  get_data_from_opensea 10 Samples.dead_feed "boredapeyachtclub" 172799 Samples.bayc
    Samples.two_ids (Samples.start Samples.two_apes)
  = Done (Samples.start Samples.two_apes).
Proof.
  apply nothing_due_nothing_done.
  intros info [<-|[<-|[]]]; simpl; lia.
Defined.

(** *** A feed with nothing new *)

Lemma quiet_run_frame fuel feed c t addr ids_list : forall fr,
  (forall n rq, feed n rq = Returns (mkResponse [] EmptyString) 200) ->
  returns (get_data_from_opensea fuel feed c t addr ids_list fr)
    (fun fr' =>
       db fr' = stamp_all c t (due_ids t ids_list) (db fr) /\
       requests fr' = requests fr ++ map (first_request addr t) (due_ids t ids_list)).
Proof.
  induction ids_list as [|info rest IH]; intros fr Hfeed;
    cbn [get_data_from_opensea due_ids List.filter].
  - cbn. now rewrite List.app_nil_r.
  - fold (due_ids t rest). destruct (is_due t (id_updated_at info)) eqn:Hdue.
    + unfold first_page, call. rewrite Hfeed. cbn [asset_events].
      destruct fuel as [|fuel]; cbn [page_walk result next String.eqb];
        unfold mark_done; cbn [status_code Z.eqb Pos.eqb db requests result].
      * specialize (IH (mkFrame (update_nft_node c (id info) t (db fr))
                          (requests fr ++ [first_request addr t info])
                          (Some (mkResponse [] EmptyString)) (Some 200)) Hfeed).
        unfold first_request in *.
        destruct (get_data_from_opensea 0 feed c t addr rest _); cbn in *; try contradiction.
        destruct IH as [-> ->]. now rewrite <- List.app_assoc.
      * specialize (IH (mkFrame (update_nft_node c (id info) t (db fr))
                          (requests fr ++ [first_request addr t info])
                          (Some (mkResponse [] EmptyString)) (Some 200)) Hfeed).
        unfold first_request in *.
        destruct (get_data_from_opensea (S fuel) feed c t addr rest _); cbn in *;
          try contradiction.
        destruct IH as [-> ->]. now rewrite <- List.app_assoc.
    + apply IH, Hfeed.
Qed.

Lemma stamp_all_nfts c t ids_list : forall g,
  nfts (stamp_all c t ids_list g)
  = map (fun n => if String.eqb (collection_name n) c && listed ids_list (identifier n)
                  then restamp t n else n) (nfts g).
Proof.
  unfold stamp_all.
  induction ids_list as [|info rest IH]; intros g; cbn [fold_left].
  - cbn. symmetry. rewrite <- (map_id (nfts g)) at 2. apply map_ext.
    intros n. now rewrite Bool.andb_false_r.
  - rewrite IH. cbn [update_nft_node nfts]. rewrite map_map. apply map_ext. intros n.
    unfold matches_nft, listed. cbn [existsb].
    destruct (String.eqb (identifier n) (id info)) eqn:Ei; cbn [andb orb].
    + destruct (String.eqb (collection_name n) c) eqn:Ec; cbn [andb].
      * cbn [collection_name identifier restamp]. rewrite Ec. cbn [andb].
        now destruct (existsb _ rest).
      * cbn. now rewrite Ec.
    + reflexivity.
Qed.

Lemma stamp_all_others c t ids_list g :
  accounts (stamp_all c t ids_list g) = accounts g /\
  owned (stamp_all c t ids_list g) = owned g /\
  transacted (stamp_all c t ids_list g) = transacted g.
Proof.
  unfold stamp_all. revert g.
  induction ids_list as [|info rest IH]; intros g; cbn [fold_left]; [auto|].
  destruct (IH (update_nft_node c (id info) t g)) as (-> & -> & ->). auto.
Qed.

Lemma listed_In ids_list i :
  listed ids_list i = true <-> exists info, In info ids_list /\ id info = i.
Proof.
  unfold listed. rewrite existsb_exists. split.
  - intros (info & Hin & E). apply String.eqb_eq in E. eauto.
  - intros (info & Hin & E). exists info. split; [exact Hin | now apply String.eqb_eq].
Qed.

Lemma stamped_synchronized c t ids_list i g :
  last_synchronized c i (stamp_all c t ids_list g)
  = if listed ids_list i
    then map (fun _ => t) (last_synchronized c i g)
    else last_synchronized c i g.
Proof.
  unfold last_synchronized. rewrite stamp_all_nfts.
  set (f := fun n => if String.eqb (collection_name n) c && listed ids_list (identifier n)
                     then restamp t n else n).
  assert (Hm : forall n, matches_nft i c (f n) = matches_nft i c n).
  { intros n. unfold f. now destruct (_ && _). }
  induction (nfts g) as [|n l IH]; cbn [map List.filter].
  - now destruct (listed ids_list i).
  - rewrite Hm. destruct (matches_nft i c n) eqn:Em; [|exact IH].
    unfold matches_nft in Em. apply andb_prop in Em as [Ei Ec].
    apply String.eqb_eq in Ei. cbn [map]. rewrite IH. unfold f. rewrite Ec, Ei.
    cbn [andb]. destruct (listed ids_list i); reflexivity.
Qed.

(** When the feed has nothing new (every request returns an empty page
    with an empty cursor and status 200), the run returns, makes exactly
    one request per due entity, stamps the NFT nodes of every due entity
    with the run's time and leaves every other timestamp, the accounts and
    the relationships as they were. *)
Theorem quiet_run_stamps_due fuel feed c t addr ids_list fr :
  (forall n rq, feed n rq = Returns (mkResponse [] EmptyString) 200) ->
  returns (get_data_from_opensea fuel feed c t addr ids_list fr)
    (fun fr' =>
       requests fr' = requests fr ++ map (first_request addr t) (due_ids t ids_list) /\
       (forall i, listed (due_ids t ids_list) i = true ->
          Forall (fun z => z = t) (last_synchronized c i (db fr'))) /\
       (forall i, listed (due_ids t ids_list) i = false ->
          last_synchronized c i (db fr') = last_synchronized c i (db fr)) /\
       accounts (db fr') = accounts (db fr) /\
       owned (db fr') = owned (db fr) /\
       transacted (db fr') = transacted (db fr)).
Proof.
  intros Hfeed. pose proof (quiet_run_frame fuel feed c t addr ids_list fr Hfeed) as H.
  destruct (get_data_from_opensea fuel feed c t addr ids_list fr) as [fr'| |];
    cbn [returns] in *; try contradiction.
  destruct H as [Hdb Hreq]. split; [exact Hreq|]. rewrite Hdb.
  destruct (stamp_all_others c t (due_ids t ids_list) (db fr)) as (Ha & Ho & Ht).
  repeat split; auto.
  - intros i Hi. rewrite stamped_synchronized, Hi. apply Forall_forall.
    intros z Hz. apply in_map_iff in Hz as (? & <- & _). reflexivity.
  - intros i Hi. now rewrite stamped_synchronized, Hi.
Qed.

Lemma quiet_run_stamps_due_witness :
  returns
    (get_data_from_opensea 0 (fun _ _ => Returns (mkResponse [] EmptyString) 200)
       "boredapeyachtclub" Samples.run_at Samples.bayc Samples.two_ids
       (Samples.start Samples.two_apes))
    (fun fr' =>
       length (requests fr') = 2%nat /\
       Forall (fun z => z = Samples.run_at)
         (last_synchronized "boredapeyachtclub" "43" (db fr'))).
Proof.
  pose proof (quiet_run_stamps_due 0 (fun _ _ => Returns (mkResponse [] EmptyString) 200)
                "boredapeyachtclub" Samples.run_at Samples.bayc Samples.two_ids
                (Samples.start Samples.two_apes) (fun _ _ => eq_refl)) as H.
  destruct (get_data_from_opensea 0 _ "boredapeyachtclub" Samples.run_at Samples.bayc
              Samples.two_ids (Samples.start Samples.two_apes)) as [fr'| |];
    cbn [returns] in *; try contradiction.
  destruct H as (Hreq & Hstamp & _). split.
  - rewrite Hreq. reflexivity.
  - apply Hstamp. reflexivity.
Defined.

(** *** A second run after a quiet one *)

Lemma quiet_run_settles c t g info :
  get_processed_collection_name c = c ->
  In info (get_identifier_id_list c
             (stamp_all c t (due_ids t (get_identifier_id_list c g)) g)) ->
  is_due t (id_updated_at info) = false.
Proof.
  intros Hc Hin. unfold get_identifier_id_list in Hin at 1.
  rewrite stamp_all_nfts, Hc in Hin.
  apply in_map_iff in Hin as (n' & <- & Hn'). apply filter_In in Hn' as [Hn' Hcol].
  apply in_map_iff in Hn' as (n & <- & Hn). cbn [id_updated_at].
  destruct (String.eqb (collection_name n) c
            && listed (due_ids t (get_identifier_id_list c g)) (identifier n)) eqn:E.
  - cbn [restamp updated_at]. unfold is_due. apply Z.leb_gt. lia.
  - destruct (is_due t (updated_at n)) eqn:Hdue; [|reflexivity]. exfalso.
    rewrite Hcol in E. cbn [andb] in E.
    assert (Hl : listed (due_ids t (get_identifier_id_list c g)) (identifier n) = true).
    { apply listed_In. exists (mkIdInfo (identifier n) (updated_at n)). split; [|reflexivity].
      unfold due_ids. apply filter_In. split; [|exact Hdue].
      unfold get_identifier_id_list. rewrite Hc.
      apply in_map_iff. exists n. split; [reflexivity|]. apply filter_In. now split. }
    congruence.
Qed.

(** A run of [run_update] against a feed with nothing new, for a
    collection stored under its given name, completes and leaves no
    entity of the collection due at the time of the run: a second run at
    that time makes no request and no change, whatever the feed would
    answer. *)
Theorem quiet_run_leaves_nothing_due fuel feed feed' t c infos g n rest :
  get_processed_collection_name c = c ->
  info_for c infos = n :: rest ->
  (forall k rq, feed k rq = Returns (mkResponse [] EmptyString) 200) ->
  exists g',
    run_update fuel feed t c infos g = Completed g' /\
    (forall info, In info (get_identifier_id_list c g') ->
       is_due t (id_updated_at info) = false) /\
    get_data_from_opensea fuel feed' c t (collection_address n)
      (get_identifier_id_list c g') (mkFrame g' [] None None)
    = Done (mkFrame g' [] None None) /\
    run_update fuel feed' t c infos g' = Completed g'.
Proof.
  intros Hc Hinfo Hfeed.
  exists (stamp_all c t (due_ids t (get_identifier_id_list c g)) g).
  assert (Hsettled : forall info,
            In info (get_identifier_id_list c
                       (stamp_all c t (due_ids t (get_identifier_id_list c g)) g)) ->
            is_due t (id_updated_at info) = false)
    by (intros info; now apply quiet_run_settles).
  split; [|split; [exact Hsettled | split]].
  - unfold run_update. rewrite Hinfo.
    pose proof (quiet_run_frame fuel feed c t (collection_address n)
                  (get_identifier_id_list c g) (mkFrame g [] None None) Hfeed) as H.
    destruct (get_data_from_opensea fuel feed c t (collection_address n)
                (get_identifier_id_list c g) (mkFrame g [] None None)) as [fr'| |];
      cbn [returns] in H; try contradiction.
    destruct H as [-> _]. reflexivity.
  - now apply skip_all.
  - unfold run_update. rewrite Hinfo. now rewrite skip_all.
Qed.

Lemma quiet_run_leaves_nothing_due_witness :
  exists g',
    run_update 0 (fun _ _ => Returns (mkResponse [] EmptyString) 200) Samples.run_at
      "boredapeyachtclub" Samples.update_infos Samples.two_apes = Completed g' /\
    (forall info, In info (get_identifier_id_list "boredapeyachtclub" g') ->
       is_due Samples.run_at (id_updated_at info) = false) /\
    get_data_from_opensea 0 Samples.dead_feed "boredapeyachtclub" Samples.run_at Samples.bayc
      (get_identifier_id_list "boredapeyachtclub" g') (mkFrame g' [] None None)
    = Done (mkFrame g' [] None None) /\
    run_update 0 Samples.dead_feed Samples.run_at "boredapeyachtclub" Samples.update_infos g'
    = Completed g'.
Proof.
  apply (quiet_run_leaves_nothing_due 0 _ Samples.dead_feed Samples.run_at
           "boredapeyachtclub" Samples.update_infos Samples.two_apes
           (mkUpdateInfo "boredapeyachtclub" Samples.bayc 7200) []);
    reflexivity.
Defined.

(** *** An entity with several pages *)

Lemma insert_all_app evs evs' g :
  insert_all (evs ++ evs') g = insert_all evs' (insert_all evs g).
Proof. unfold insert_all. apply fold_left_app. Qed.

Lemma page_walk_pages feed addr info t : forall rest fuel r fr,
  result fr = Some r -> chain r rest -> (length rest <= fuel)%nat ->
  (forall j r', nth_error rest j = Some r' ->
     forall rq, feed (length (requests fr) + j)%nat rq = Returns r' 200) ->
  returns (page_walk fuel feed addr info t fr)
    (fun fr' =>
       db fr' = insert_all (concat (map asset_events rest)) (db fr) /\
       requests fr' = requests fr ++ cursor_requests addr info t r rest /\
       status_code fr' = match rest with [] => status_code fr | _ :: _ => Some 200 end).
Proof.
  induction rest as [|r' rest IH]; intros fuel r fr Hr Hchain Hfuel Hfeed.
  - cbn [chain] in Hchain.
    assert (E : page_walk fuel feed addr info t fr = Done fr).
    { destruct fuel; cbn [page_walk]; now rewrite Hr, Hchain. }
    rewrite E. cbn. now rewrite List.app_nil_r.
  - destruct Hchain as [Hnext Hchain].
    destruct fuel as [|fuel]; [cbn [length] in Hfuel; lia|].
    cbn [page_walk]. rewrite Hr, (proj2 (String.eqb_neq _ _) Hnext).
    unfold call.
    assert (H0 : forall rq, feed (length (requests fr)) rq = Returns r' 200).
    { intros rq. rewrite <- (Nat.add_0_r (length (requests fr))). now apply Hfeed. }
    rewrite H0.
    match goal with |- returns (page_walk fuel feed addr info t ?f) _ =>
      specialize (IH fuel r' f eq_refl Hchain) end.
    cbn [db requests status_code length] in IH.
    assert (Hlen : (length rest <= fuel)%nat) by (cbn [length] in Hfuel; lia).
    specialize (IH Hlen).
    assert (Hfeed' : forall j r'0, nth_error rest j = Some r'0 ->
              forall rq, feed (length (requests fr ++
                 [mkRequest addr (id info) (id_updated_at info) t (Some (next r))]) + j)%nat rq
                         = Returns r'0 200).
    { intros j r0 Hj rq. rewrite length_app. cbn [length].
      replace (length (requests fr) + 1 + j)%nat with (length (requests fr) + S j)%nat by lia.
      now apply Hfeed. }
    specialize (IH Hfeed').
    destruct (page_walk fuel feed addr info t _) as [fr'| |]; cbn [returns] in *;
      try contradiction.
    destruct IH as (Hdb & Hreq & Hst). repeat split.
    + cbn [map concat]. now rewrite insert_all_app.
    + cbn [cursor_requests]. now rewrite Hreq, <- List.app_assoc.
    + rewrite Hst. now destruct rest.
Qed.

(** The walk through the pages of one entity: when the entity is due, its
    first page is empty and names a cursor, the following pages are linked
    by cursors up to a last page without one, and every request is
    answered with status 200, the run returns once it is allowed as many
    page requests as there are pages; it has then inserted the events of
    all pages in page order, stamped the entity with the run's time, and
    made the first request followed by one request per cursor.  The
    entities after it that are not due are skipped. *)
Theorem paged_entity_ingested fuel feed c t addr info others fr nxt pages :
  is_due t (id_updated_at info) = true ->
  (forall o, In o others -> is_due t (id_updated_at o) = false) ->
  (forall rq, feed (length (requests fr)) rq = Returns (mkResponse [] nxt) 200) ->
  chain (mkResponse [] nxt) pages ->
  (forall j r', nth_error pages j = Some r' ->
     forall rq, feed (S (length (requests fr)) + j)%nat rq = Returns r' 200) ->
  (length pages <= fuel)%nat ->
  returns (get_data_from_opensea fuel feed c t addr (info :: others) fr)
    (fun fr' =>
       db fr' = update_nft_node c (id info) t
                  (insert_all (concat (map asset_events pages)) (db fr)) /\
       requests fr' = requests fr ++ first_request addr t info
                        :: cursor_requests addr info t (mkResponse [] nxt) pages).
Proof.
  intros Hdue Hothers Hfirst Hchain Hfeed Hfuel.
  cbn [get_data_from_opensea]. rewrite Hdue.
  unfold first_page, call. rewrite Hfirst. cbn [asset_events db requests].
  match goal with |- context [page_walk fuel feed addr info t ?f] =>
    pose proof (page_walk_pages feed addr info t pages fuel (mkResponse [] nxt) f
                  eq_refl Hchain Hfuel) as Hwalk end.
  cbn [db requests status_code] in Hwalk.
  assert (Hfeed' : forall j r', nth_error pages j = Some r' ->
            forall rq, feed (length (requests fr ++
               [mkRequest addr (id info) (id_updated_at info) t None]) + j)%nat rq
                       = Returns r' 200).
  { intros j r' Hj rq. rewrite length_app. cbn [length].
    replace (length (requests fr) + 1 + j)%nat with (S (length (requests fr)) + j)%nat by lia.
    now apply Hfeed. }
  specialize (Hwalk Hfeed').
  destruct (page_walk fuel feed addr info t _) as [fr2| |]; cbn [returns] in Hwalk;
    try contradiction.
  destruct Hwalk as (Hdb & Hreq & Hst).
  assert (Hcode : status_code fr2 = Some 200) by (rewrite Hst; now destruct pages).
  unfold mark_done. rewrite Hcode. cbn [Z.eqb Pos.eqb].
  rewrite skip_all by exact Hothers. cbn [returns db requests].
  rewrite Hdb, Hreq, <- List.app_assoc. split; reflexivity.
Qed.

Lemma paged_entity_ingested_witness :
  returns
    (get_data_from_opensea 1
       (fun k _ => match k with
                   | O => Returns (mkResponse [] "c1") 200
                   | _ => Returns (mkResponse [Samples.b_to_c] EmptyString) 200
                   end)
       "boredapeyachtclub" Samples.run_at Samples.bayc [mkIdInfo "42" 0]
       (Samples.start Samples.two_apes))
    (fun fr' =>
       db fr' = update_nft_node "boredapeyachtclub" "42" Samples.run_at
                  (insert_all [Samples.b_to_c] Samples.two_apes) /\
       requests fr' = [mkRequest Samples.bayc "42" 0 Samples.run_at None;
                       mkRequest Samples.bayc "42" 0 Samples.run_at (Some "c1")]).
Proof.
  apply (paged_entity_ingested 1 _ "boredapeyachtclub" Samples.run_at Samples.bayc
           (mkIdInfo "42" 0) [] (Samples.start Samples.two_apes) "c1"
           [mkResponse [Samples.b_to_c] EmptyString]).
  - reflexivity.
  - intros o [].
  - reflexivity.
  - split; [discriminate | reflexivity].
  - intros [|[|j]] r' H rq; cbn in H; try discriminate; now inversion H.
  - cbn. lia.
Defined.

(** *** A feed that keeps raising inside the page loop *)

Lemma page_walk_starves fuel feed addr info t : forall fr r,
  result fr = Some r -> next r <> EmptyString ->
  (forall n rq, cursor rq <> None -> feed n rq = Fails) ->
  page_walk fuel feed addr info t fr = NoFuel.
Proof.
  induction fuel as [|fuel IH]; intros fr r Hr Hnext Hfeed; cbn [page_walk]; rewrite Hr;
    destruct (String.eqb_spec (next r) EmptyString) as [E|_]; try contradiction;
    [reflexivity|].
  unfold call. rewrite Hfeed by discriminate. now apply (IH _ r).
Qed.

(** An exception of the feed inside the page loop is logged and the loop
    condition is read again with the same cursor: when the first page of a
    due entity is empty but names a next cursor, and the feed raises on
    every request with a cursor, the run does not end, whatever number of
    requests it is given. *)
Theorem page_loop_retries_without_end fuel feed c t addr info rest fr nxt code :
  is_due t (id_updated_at info) = true ->
  feed (length (requests fr)) (mkRequest addr (id info) (id_updated_at info) t None)
    = Returns (mkResponse [] nxt) code ->
  nxt <> EmptyString ->
  (forall n rq, cursor rq <> None -> feed n rq = Fails) ->
  get_data_from_opensea fuel feed c t addr (info :: rest) fr = NoFuel.
Proof.
  intros Hdue Hfirst Hnxt Hfeed. cbn [get_data_from_opensea]. rewrite Hdue.
  unfold first_page, call. rewrite Hfirst. cbn [asset_events].
  now rewrite (page_walk_starves fuel feed addr info t _ (mkResponse [] nxt)).
Qed.

Lemma page_loop_retries_without_end_witness :
  get_data_from_opensea 1000
    (fun _ rq => match cursor rq with
                 | None => Returns (mkResponse [] "c1") 200
                 | Some _ => Fails
                 end)
    "boredapeyachtclub" Samples.run_at Samples.bayc Samples.two_ids
    (Samples.start Samples.two_apes) = NoFuel.
Proof.
  apply (page_loop_retries_without_end _ _ _ _ _ _ _ _ "c1" 200).
  - reflexivity.
  - reflexivity.
  - discriminate.
  - intros n rq H. destruct (cursor rq); [reflexivity | contradiction].
Defined.

(** *** The collection whose stored name differs from its given name *)

Lemma update_nft_node_enumeration c i t g :
  get_processed_collection_name c <> c ->
  get_identifier_id_list c (update_nft_node c i t g) = get_identifier_id_list c g.
Proof.
  intros Hc. unfold get_identifier_id_list, update_nft_node. cbn [nfts].
  induction (Graph.nfts g) as [|n l IH]; cbn [map List.filter]; [reflexivity|].
  assert (Hn : (if matches_nft i c n
                then mkNFT (nft_id n) (identifier n) (collection_name n) t (nft_props n)
                else n) = n
               \/ String.eqb (collection_name n) (get_processed_collection_name c) = false).
  { unfold matches_nft.
    destruct (String.eqb_spec (collection_name n) c) as [E|E].
    - right. apply String.eqb_neq. congruence.
    - left. now rewrite Bool.andb_false_r. }
  destruct Hn as [-> | Hn].
  - destruct (String.eqb (collection_name n) (get_processed_collection_name c));
      cbn [map]; now rewrite IH.
  - destruct (matches_nft i c n); cbn [collection_name]; rewrite Hn; exact IH.
Qed.

Lemma insert_all_nfts events : forall g, nfts (insert_all events g) = nfts g.
Proof.
  unfold insert_all. induction events as [|e events IH]; intros g; cbn [fold_left];
    [reflexivity|].
  now rewrite IH, GraphFacts.insert_nfts.
Qed.

Lemma enumeration_same c g g' :
  nfts g = nfts g' -> get_identifier_id_list c g = get_identifier_id_list c g'.
Proof. unfold get_identifier_id_list. now intros ->. Qed.

Lemma page_walk_enumeration c fuel feed addr info t : forall fr,
  match page_walk fuel feed addr info t fr with
  | Done fr' | Throws _ fr' =>
    get_identifier_id_list c (db fr') = get_identifier_id_list c (db fr)
  | NoFuel => True
  end.
Proof.
  induction fuel as [|fuel IH]; intros fr; cbn [page_walk];
    (destruct (result fr) as [r|]; [|reflexivity]);
    (destruct (String.eqb (next r) EmptyString); [reflexivity|]); [exact I|].
  unfold call. destruct (feed _ _) as [r' code|].
  - match goal with |- context [page_walk fuel feed addr info t ?f] =>
      specialize (IH f) end.
    destruct (page_walk fuel feed addr info t _); try exact I;
      cbn [db] in IH; rewrite IH; apply enumeration_same, insert_all_nfts.
  - match goal with |- context [page_walk fuel feed addr info t ?f] =>
      specialize (IH f) end.
    destruct (page_walk fuel feed addr info t _); try exact I; exact IH.
Qed.

(** The entities of a run are the NFT nodes stored under the processed
    collection name, while the timestamp is written to the nodes stored
    under the name as given.  For a collection whose processed name
    differs from its given name ("degods-eth"), no run changes the list of
    entities with their last-synchronized times, whatever the feed
    returns: they are as due after the run as before. *)
Theorem renamed_collection_never_stamped fuel feed c t addr ids_list : forall fr,
  get_processed_collection_name c <> c ->
  match get_data_from_opensea fuel feed c t addr ids_list fr with
  | Done fr' | Throws _ fr' =>
    get_identifier_id_list c (db fr') = get_identifier_id_list c (db fr)
  | NoFuel => True
  end.
Proof.
  induction ids_list as [|info rest IH]; intros fr Hc; cbn [get_data_from_opensea];
    [reflexivity|].
  destruct (is_due t (id_updated_at info)); [|now apply IH].
  assert (Hfirst : get_identifier_id_list c (db (fst (first_page feed addr info t fr)))
                   = get_identifier_id_list c (db fr)).
  { unfold first_page, call. destruct (feed _ _) as [r code|]; [|reflexivity].
    destruct (asset_events r); [reflexivity|].
    cbn [fst db]. apply enumeration_same, insert_all_nfts. }
  destruct (first_page feed addr info t fr) as [fr1 [|]]; cbn [fst] in Hfirst;
    [exact Hfirst|].
  pose proof (page_walk_enumeration c fuel feed addr info t fr1) as Hwalk.
  destruct (page_walk fuel feed addr info t fr1) as [fr2|e fr2|]; [|congruence|exact I].
  unfold mark_done. destruct (status_code fr2) as [code|]; [|congruence].
  destruct (code =? 200)%Z.
  - match goal with |- context [get_data_from_opensea fuel feed c t addr rest ?f] =>
      specialize (IH f Hc) end.
    destruct (get_data_from_opensea fuel feed c t addr rest _); try exact I;
      cbn [db] in IH; rewrite IH, update_nft_node_enumeration by exact Hc; congruence.
  - specialize (IH fr2 Hc).
    destruct (get_data_from_opensea fuel feed c t addr rest fr2); try exact I; congruence.
Qed.

Lemma renamed_collection_never_stamped_witness :
  exists fr',
    get_data_from_opensea 0 (fun _ _ => Returns Samples.last_page 200) "degods-eth"
      Samples.run_at "0x8821bee2ba0df28761afff119d66390d594cd280"
      (get_identifier_id_list "degods-eth" Samples.gods) (Samples.start Samples.gods)
    = Done fr' /\
    length (requests fr') = 1%nat /\
    get_identifier_id_list "degods-eth" (db fr') = [mkIdInfo "7" 0].
Proof.
  pose proof (renamed_collection_never_stamped 0 (fun _ _ => Returns Samples.last_page 200)
                "degods-eth" Samples.run_at "0x8821bee2ba0df28761afff119d66390d594cd280"
                (get_identifier_id_list "degods-eth" Samples.gods)
                (Samples.start Samples.gods)) as H.
  destruct (get_data_from_opensea 0 (fun _ _ => Returns Samples.last_page 200) "degods-eth"
              Samples.run_at "0x8821bee2ba0df28761afff119d66390d594cd280"
              (get_identifier_id_list "degods-eth" Samples.gods)
              (Samples.start Samples.gods)) as [fr'|e fr'|] eqn:E.
  - exists fr'. split; [reflexivity|]. split.
    + vm_compute in E. injection E as <-. reflexivity.
    + rewrite H by discriminate. reflexivity.
  - vm_compute in E. discriminate.
  - vm_compute in E. discriminate.
Defined.

(** *** Setting and reading the refresh frequency *)

Lemma info_for_set c c' frequency infos :
  info_for c' (set_update_frequency c frequency infos)
  = map (fun n =>
           if String.eqb (info_collection_name n) (get_processed_collection_name c)
           then mkUpdateInfo (info_collection_name n) (collection_address n) frequency
           else n) (info_for c' infos).
Proof.
  unfold info_for, set_update_frequency.
  induction infos as [|n infos IH]; cbn [map List.filter]; [reflexivity|].
  destruct (String.eqb (info_collection_name n) (get_processed_collection_name c)) eqn:E;
    cbn [info_collection_name];
    destruct (String.eqb (info_collection_name n) (get_processed_collection_name c'));
    cbn [map]; rewrite ?E, IH; reflexivity.
Qed.

(** The frequency written for a collection is the frequency read for it
    when an [:Update_Info] node of the collection exists; without such a
    node the write changes nothing and the read returns the default
    86000.  The write leaves the frequency read for every collection with
    another processed name as it was. *)
Theorem frequency_set_then_get c frequency infos :
  get_update_frequency c (set_update_frequency c frequency infos)
  = (match info_for c infos with [] => 86000 | _ :: _ => frequency end) /\
  (info_for c infos = [] -> set_update_frequency c frequency infos = infos) /\
  (forall c', get_processed_collection_name c' <> get_processed_collection_name c ->
     get_update_frequency c' (set_update_frequency c frequency infos)
     = get_update_frequency c' infos).
Proof.
  split; [|split].
  - unfold get_update_frequency. rewrite info_for_set.
    destruct (info_for c infos) as [|n l] eqn:E; [reflexivity|]. cbn [map].
    assert (Hn : In n (info_for c infos)) by (rewrite E; now left).
    apply filter_In in Hn as [_ Hn]. now rewrite Hn.
  - unfold info_for, set_update_frequency. intros H.
    rewrite <- (map_id infos) at 2. apply map_ext_in. intros n Hn.
    destruct (String.eqb (info_collection_name n) (get_processed_collection_name c)) eqn:E;
      [|reflexivity].
    exfalso. assert (Hf : In n (List.filter
        (fun n => String.eqb (info_collection_name n) (get_processed_collection_name c))
        infos)) by (apply filter_In; auto).
    now rewrite H in Hf.
  - intros c' Hc'. unfold get_update_frequency. rewrite info_for_set.
    destruct (info_for c' infos) as [|n l] eqn:E; [reflexivity|]. cbn [map].
    assert (Hn : In n (info_for c' infos)) by (rewrite E; now left).
    apply filter_In in Hn as [_ Hn]. apply String.eqb_eq in Hn.
    destruct (String.eqb_spec (info_collection_name n) (get_processed_collection_name c));
      [congruence | reflexivity].
Qed.

End IngestMoreFacts.

(** ** More facts about the per-event mutation *)

Module GraphMoreFacts.
Import Graph Views GraphFacts.

(** *** How the Account nodes grow *)

Lemma matches_query0_address a x : matches_query0 a x = true -> address x = a.
Proof.
  unfold matches_query0. intros H. repeat (apply andb_prop in H as [H _]).
  now apply has_address_true.
Qed.

Lemma matches_other a b n : b <> a -> matches_query0 a (mkAccount n b query0_props) = false.
Proof.
  intros H. unfold matches_query0, has_address. cbn [address].
  now rewrite (proj2 (String.eqb_neq b a) H).
Qed.

Lemma merge_account_count a b g :
  count_accounts a (merge_account b g)
  = (count_accounts a g + (if String.eqb b a && negb (matched a g) then 1 else 0))%nat /\
  matched a (merge_account b g) = matched a g || String.eqb b a.
Proof.
  unfold merge_account, matched, count_accounts.
  destruct (existsb (matches_query0 b) (accounts g)) eqn:E.
  - destruct (String.eqb_spec b a) as [->|Hne].
    + rewrite E. cbn [andb negb orb]. split; [lia | reflexivity].
    + cbn [andb]. rewrite Bool.orb_false_r. split; [lia | reflexivity].
  - cbn [accounts]. rewrite List.filter_app, length_app, existsb_app.
    cbn [List.filter existsb]. unfold has_address at 2. cbn [address].
    destruct (String.eqb_spec b a) as [->|Hne].
    + rewrite E, matches_created. cbn. split; [lia | reflexivity].
    + rewrite (matches_other a b _ Hne). cbn. rewrite !Bool.orb_false_r.
      split; [lia | reflexivity].
Qed.

Lemma insert_count_accounts a data g :
  count_accounts a (insert_new_trx_data data g)
  = (count_accounts a g + (if mentions a [data] && negb (matched a g) then 1 else 0))%nat /\
  matched a (insert_new_trx_data data g) = matched a g || mentions a [data].
Proof.
  unfold matched. rewrite (count_accounts_same _ _ _ (insert_accounts data g)).
  rewrite (insert_accounts data g). fold (matched a g).
  fold (matched a (query0 (to_address data) (from_address data) g)). unfold query0.
  destruct (merge_account_count a (from_address data) (merge_account (to_address data) g))
    as [C2 M2].
  destruct (merge_account_count a (to_address data) g) as [C1 M1].
  rewrite C2, M2, C1, M1. unfold mentions. cbn [existsb].
  destruct (String.eqb (to_address data) a), (String.eqb (from_address data) a),
    (matched a g); cbn; split; (lia || reflexivity).
Qed.

Lemma insert_all_accounts a events : forall g,
  count_accounts a (insert_all events g)
  = (count_accounts a g + (if mentions a events && negb (matched a g) then 1 else 0))%nat /\
  matched a (insert_all events g) = matched a g || mentions a events.
Proof.
  unfold insert_all. induction events as [|d rest IH]; intros g; cbn [fold_left].
  - cbn. rewrite Bool.orb_false_r. split; [lia | reflexivity].
  - destruct (IH (insert_new_trx_data d g)) as [C M].
    destruct (insert_count_accounts a d g) as [C1 M1].
    rewrite C, M, C1, M1. unfold mentions. cbn [existsb].
    destruct (String.eqb (to_address d) a || String.eqb (from_address d) a),
      (existsb _ rest), (matched a g); cbn; split; (lia || reflexivity).
Qed.

(** A sequence of events adds at most one Account node per address:
    exactly one when the address is the sender or the receiver of one of
    the events and no Account node with that address carries the three
    placeholder arrays of the upsert pattern, and none otherwise. *)
Theorem account_nodes_grow_once a events g :
  count_accounts a (insert_all events g)
  = (count_accounts a g + (if mentions a events && negb (matched a g) then 1 else 0))%nat.
Proof. apply insert_all_accounts. Qed.

(** *** Stores no detection run has touched *)

Lemma merge_account_pristine b g : pristine g -> pristine (merge_account b g).
Proof.
  intros [Hall Hnd]. unfold merge_account.
  destruct (existsb (matches_query0 b) (accounts g)) eqn:E; [now split|].
  split; cbn [accounts].
  - apply List.Forall_app. split; [exact Hall|].
    constructor; [apply matches_created | constructor].
  - rewrite map_app. cbn [map address].
    apply List.NoDup_app; [exact Hnd | repeat constructor; auto |].
    intros a Ha [<-|[]]. apply in_map_iff in Ha as (x & Hx & Hin).
    assert (Hex : existsb (matches_query0 b) (accounts g) = true).
    { apply existsb_exists. exists x. split; [exact Hin|].
      rewrite <- Hx. rewrite List.Forall_forall in Hall. now apply Hall. }
    congruence.
Qed.

Lemma pristine_same g g' : accounts g = accounts g' -> pristine g -> pristine g'.
Proof. unfold pristine. now intros ->. Qed.

Lemma insert_pristine data g : pristine g -> pristine (insert_new_trx_data data g).
Proof.
  intros H. apply (pristine_same (query0 (to_address data) (from_address data) g)).
  - symmetry. apply insert_accounts.
  - unfold query0. now apply merge_account_pristine, merge_account_pristine.
Qed.

Lemma nodup_count a (l : list Account) :
  List.NoDup (map address l) -> (length (List.filter (has_address a) l) <= 1)%nat.
Proof.
  induction l as [|x l IH]; cbn [map List.filter]; intros Hnd; [simpl; lia|].
  apply List.NoDup_cons_iff in Hnd as [Hnot Hnd].
  destruct (has_address a x) eqn:E; [|now apply IH].
  apply has_address_true in E.
  destruct (List.filter (has_address a) l) as [|y l'] eqn:El; [simpl; lia|].
  exfalso. assert (Hy : In y (List.filter (has_address a) l)) by (rewrite El; now left).
  apply filter_In in Hy as [Hy Ha]. apply has_address_true in Ha.
  apply Hnot. rewrite E, <- Ha. now apply in_map.
Qed.

Lemma query0_transacted to_a from_a g : transacted (query0 to_a from_a g) = transacted g.
Proof.
  unfold query0, merge_account.
  repeat match goal with |- context [if ?b then _ else _] => destruct b end; reflexivity.
Qed.

(** The relationships one event appends. *)
Lemma insert_transacted data g :
  transacted (insert_new_trx_data data g)
  = transacted g ++
    map (edge_of data)
      (list_prod (account_ids (from_address data) (insert_new_trx_data data g))
                 (account_ids (to_address data) (insert_new_trx_data data g))).
Proof.
  rewrite !(account_ids_same _ _ _ (insert_accounts data g)).
  unfold insert_new_trx_data, edge_of.
  destruct (String.eqb (ev_type data) "transfer"); cbn [transacted query2 query1 accounts];
    now rewrite query0_transacted.
Qed.

Lemma pristine_one_edge data g :
  pristine g ->
  length (transacted (insert_new_trx_data data g)) = S (length (transacted g)).
Proof.
  intros Hp. rewrite insert_transacted, length_app, length_map, length_prod.
  rewrite !count_accounts_ids.
  rewrite !(count_accounts_same _ _ _ (insert_accounts data g)).
  destruct (query0_present (to_address data) (from_address data) g) as [Hf Ht].
  pose proof (insert_pristine data g Hp) as [_ Hnd].
  rewrite (insert_accounts data g) in Hnd.
  pose proof (nodup_count (from_address data) _ Hnd) as Hf'.
  pose proof (nodup_count (to_address data) _ Hnd) as Ht'.
  unfold count_accounts in *. nia.
Qed.

(** While every Account node carries the placeholder arrays and no two
    share an address, ingestion keeps it so, and every event adds exactly
    one TRANSACTED relationship. *)
Theorem pristine_store_one_edge_per_event events : forall g,
  pristine g ->
  pristine (insert_all events g) /\
  length (transacted (insert_all events g)) = (length (transacted g) + length events)%nat.
Proof.
  unfold insert_all. induction events as [|d rest IH]; intros g Hp; cbn [fold_left length].
  - split; [exact Hp | lia].
  - destruct (IH (insert_new_trx_data d g) (insert_pristine d g Hp)) as [Hp' Hlen].
    split; [exact Hp'|]. rewrite Hlen, (pristine_one_edge d g Hp). lia.
Qed.

Lemma pristine_store_one_edge_per_event_witness :
  pristine (insert_all [Samples.a_to_b; Samples.b_to_c] Samples.fresh) /\
  length (transacted (insert_all [Samples.a_to_b; Samples.b_to_c] Samples.fresh)) = 2%nat.
Proof.
  apply (pristine_store_one_edge_per_event [Samples.a_to_b; Samples.b_to_c] Samples.fresh).
  split; constructor.
Defined.

(** *** What ingestion leaves in place *)

Lemma query1_keeps_keys to_a from_a ts i c g k :
  In k (map edge_key (owned g)) -> In k (map edge_key (owned (query1 to_a from_a ts i c g))).
Proof.
  intros H. unfold query1, query1_owned. cbn [owned].
  destruct (list_prod _ _) as [|row rows]; [exact H|].
  apply merge_all_keeps_keys; [apply open_key | apply open_create_key |].
  apply merge_all_keeps_keys; [apply close_key | apply close_create_key | exact H].
Qed.

Lemma merge_account_new b g :
  exists extra, accounts (merge_account b g) = accounts g ++ extra /\
                Forall (fun x => acc_props x = query0_props) extra.
Proof.
  unfold merge_account. destruct (existsb (matches_query0 b) (accounts g)).
  - exists []. split; [now rewrite List.app_nil_r | constructor].
  - eexists. split; [reflexivity|]. repeat constructor.
Qed.

Lemma insert_only_adds data g :
  exists new_accounts new_edges,
    accounts (insert_new_trx_data data g) = accounts g ++ new_accounts /\
    Forall (fun x => acc_props x = query0_props) new_accounts /\
    transacted (insert_new_trx_data data g) = transacted g ++ new_edges /\
    (forall k, In k (map edge_key (owned g)) ->
               In k (map edge_key (owned (insert_new_trx_data data g)))).
Proof.
  destruct (merge_account_new (to_address data) g) as (x1 & E1 & F1).
  destruct (merge_account_new (from_address data) (merge_account (to_address data) g))
    as (x2 & E2 & F2).
  exists (x1 ++ x2). eexists. repeat split.
  - rewrite insert_accounts. unfold query0. now rewrite E2, E1, List.app_assoc.
  - apply List.Forall_app. now split.
  - apply insert_transacted.
  - intros k Hk. rewrite insert_owned. apply query1_keeps_keys.
    now rewrite query0_owned.
Qed.

(** Ingestion only adds: after any sequence of events the Account nodes
    and the TRANSACTED relationships of before are still there, in their
    places and unchanged, the added Account nodes carry the placeholder
    arrays, the NFT nodes are as before, and every pair of nodes joined by
    an OWNED relationship still is. *)
Theorem ingestion_only_adds events : forall g,
  exists new_accounts new_edges,
    accounts (insert_all events g) = accounts g ++ new_accounts /\
    Forall (fun x => acc_props x = query0_props) new_accounts /\
    nfts (insert_all events g) = nfts g /\
    transacted (insert_all events g) = transacted g ++ new_edges /\
    (forall k, In k (map edge_key (owned g)) ->
               In k (map edge_key (owned (insert_all events g)))).
Proof.
  unfold insert_all. induction events as [|d rest IH]; intros g; cbn [fold_left].
  - exists [], []. rewrite !List.app_nil_r. repeat split; auto.
  - destruct (IH (insert_new_trx_data d g)) as (a2 & e2 & Ha2 & Fa2 & Hn2 & Ht2 & Ho2).
    destruct (insert_only_adds d g) as (a1 & e1 & Ha1 & Fa1 & Ht1 & Ho1).
    exists (a1 ++ a2), (e1 ++ e2). repeat split.
    + now rewrite Ha2, Ha1, List.app_assoc.
    + apply List.Forall_app. now split.
    + now rewrite Hn2, insert_nfts.
    + now rewrite Ht2, Ht1, List.app_assoc.
    + intros k Hk. now apply Ho2, Ho1.
Qed.

(** *** The relationship an event records *)

(** Every TRANSACTED relationship an event adds leads from an Account
    node with the event's from address to one with its to address and
    carries the event's transaction hash, identifier, collection and
    timestamp.  Only the event type "transfer", spelled so, gives a
    "Transfer" relationship without payment terms; every other event is
    recorded as "Sale and Transfer", with the payment of the event or,
    when it has none, with value 0 and "unknown" for symbol, decimals and
    token. *)
Theorem recorded_relationship data g :
  exists new_edges,
    transacted (insert_new_trx_data data g) = transacted g ++ new_edges /\
    new_edges <> [] /\
    Forall (fun e =>
        In (t_src e) (account_ids (from_address data) (insert_new_trx_data data g)) /\
        In (t_dst e) (account_ids (to_address data) (insert_new_trx_data data g)) /\
        transaction_hash e = transaction data /\
        t_identifier e = ref_identifier (nft data) /\
        t_collection_name e = ref_collection (nft data) /\
        transaction_timestamp e = event_timestamp data /\
        (event_type e, t_terms e) =
          if String.eqb (ev_type data) "transfer" then ("Transfer", None)
          else ("Sale and Transfer",
                Some match payment data with
                     | Some p => mkTerms (quantity p) (symbol p) (PInt (decimals p))
                                   (token_address p)
                     | None => mkTerms 0 "unknown" (PStr "unknown") "unknown"
                     end))
      new_edges.
Proof.
  eexists. split; [apply insert_transacted|]. split.
  - intros H. apply (f_equal (@length _)) in H.
    rewrite length_map, length_prod, !count_accounts_ids in H.
    rewrite !(count_accounts_same _ _ _ (insert_accounts data g)) in H.
    destruct (query0_present (to_address data) (from_address data) g) as [Hf Ht].
    cbn [length] in H. nia.
  - apply List.Forall_forall. intros e He.
    apply in_map_iff in He as ([x y] & <- & Hk). apply in_prod_iff in Hk as [Hx Hy].
    unfold edge_of. destruct (String.eqb (ev_type data) "transfer"); cbn;
      repeat split; assumption.
Qed.

(** *** The ownership an event records *)

(** A relationship that joins none of the merged pairs stays in the
    list. *)
Lemma merge_all_stays on_match on_create rows : forall es e,
  In e es -> ~ In (edge_key e) rows ->
  In e (fold_left (merge_owned on_match on_create) rows es).
Proof.
  induction rows as [|k rows IH]; intros es e Hin Hk; cbn [fold_left]; [exact Hin|].
  apply IH; [|intros H; apply Hk; now right].
  assert (Hne : is_edge k e = false).
  { apply is_edge_false. intros H. apply Hk. now left. }
  unfold merge_owned. destruct (existsb (is_edge k) es).
  - apply in_map_iff. exists e. now rewrite Hne.
  - apply in_or_app. now left.
Qed.

Section Handover.

Variable data : Event.
Variable g : graph.

Let g' := insert_new_trx_data data g.
Let ts := event_timestamp data.
Let N := nft_ids (ref_identifier (nft data)) (ref_collection (nft data)) g.

Lemma insert_owned_as_merges :
  owned g' = query1_owned ts (account_ids (from_address data) g')
               (account_ids (to_address data) g') N (owned g).
Proof.
  unfold g'. rewrite insert_owned, !(account_ids_same _ _ _ (insert_accounts data g)).
  unfold query1. cbn [owned]. rewrite query0_owned. unfold N, nft_ids.
  now rewrite query0_nfts.
Qed.

Lemma sender_present : account_ids (from_address data) g' <> [].
Proof.
  intros H. apply (f_equal (@length _)) in H. rewrite count_accounts_ids in H.
  unfold g' in H. rewrite (count_accounts_same _ _ _ (insert_accounts data g)) in H.
  destruct (query0_present (to_address data) (from_address data) g) as [Hf _].
  cbn [length] in H. lia.
Qed.

Lemma insert_owned_matched n :
  In n N ->
  owned g' =
  fold_left (merge_owned (open_match ts) (open_create ts))
    (list_prod (account_ids (to_address data) g') N)
    (fold_left (merge_owned (close_match ts) (close_create ts))
       (list_prod (account_ids (from_address data) g') N) (owned g)).
Proof.
  intros Hn. rewrite insert_owned_as_merges. unfold query1_owned.
  destruct (list_prod (account_ids (from_address data) g') N) as [|row rows] eqn:E;
    [|reflexivity].
  exfalso. destruct (account_ids (from_address data) g') as [|y ys] eqn:Ey;
    [now apply sender_present|].
  assert (Hin : In (y, n) (list_prod (y :: ys) N)) by (apply in_prod; [now left | exact Hn]).
  now rewrite E in Hin.
Qed.

Lemma receiver_edges n x :
  In n N -> In x (account_ids (to_address data) g') ->
  (exists e, In e (owned g') /\ edge_key e = (x, n)) /\
  (forall e, In e (owned g') -> edge_key e = (x, n) ->
     currently_owned e = true /\ owned_from e = Some ts /\ owned_until e = 0).
Proof.
  intros Hn Hx. rewrite (insert_owned_matched n Hn).
  assert (Hk : In (x, n) (list_prod (account_ids (to_address data) g') N))
    by now apply in_prod.
  split.
  - apply (merge_all_has_keys _ _ (open_key ts) (open_create_key ts)) with
      (es := fold_left (merge_owned (close_match ts) (close_create ts))
               (list_prod (account_ids (from_address data) g') N) (owned g)) in Hk.
    apply in_map_iff in Hk as (e & He & Hin). now exists e.
  - intros e Hin He.
    apply (merge_all_in _ _ (open_key ts) (open_create_key ts)
             (fun e => currently_owned e = true /\ owned_from e = Some ts /\
                       owned_until e = 0)) in Hin; [| now repeat split | now repeat split].
    destruct Hin as [[_ Hs]|[Hnot _]]; [exact Hs|]. rewrite He in Hnot. contradiction.
Qed.

Lemma sender_edges n y :
  In n N -> In y (account_ids (from_address data) g') ->
  ~ In y (account_ids (to_address data) g') ->
  (exists e, In e (owned g') /\ edge_key e = (y, n)) /\
  (forall e, In e (owned g') -> edge_key e = (y, n) ->
     currently_owned e = false /\ owned_until e = ts).
Proof.
  intros Hn Hy Hnot. rewrite (insert_owned_matched n Hn).
  assert (Hk : In (y, n) (list_prod (account_ids (from_address data) g') N))
    by now apply in_prod.
  split.
  - apply (merge_all_has_keys _ _ (close_key ts) (close_create_key ts)) with
      (es := owned g) in Hk.
    apply (merge_all_keeps_keys _ _ (open_key ts) (open_create_key ts)
             (list_prod (account_ids (to_address data) g') N)) in Hk.
    apply in_map_iff in Hk as (e & He & Hin). now exists e.
  - intros e Hin He.
    apply (merge_all_in _ _ (open_key ts) (open_create_key ts) (fun _ => True)) in Hin;
      [| intros; exact I | intros; exact I].
    destruct Hin as [[Hin _]|[_ Hin]].
    + rewrite He in Hin. apply in_prod_iff in Hin as [Hin _]. contradiction.
    + apply (merge_all_in _ _ (close_key ts) (close_create_key ts)
               (fun e => currently_owned e = false /\ owned_until e = ts)) in Hin;
        [| now split | now split].
      destruct Hin as [[_ Hs]|[Hno _]]; [exact Hs|]. rewrite He in Hno. contradiction.
Qed.

Lemma other_nft_edges m : ~ In m N -> owned_into m g' = owned_into m g.
Proof.
  intros Hm. unfold owned_into. rewrite insert_owned_as_merges. unfold query1_owned.
  destruct (list_prod (account_ids (from_address data) g') N) as [|row rows] eqn:E;
    [reflexivity|].
  rewrite (merge_all_frame _ _ (open_key _) (open_create_key _)).
  - rewrite (merge_all_frame _ _ (close_key _) (close_create_key _)); [reflexivity|].
    rewrite <- E. intros [a k] Hk. apply in_prod_iff in Hk as [_ Hk]. cbn. congruence.
  - intros [a k] Hk. apply in_prod_iff in Hk as [_ Hk]. cbn. congruence.
Qed.

Lemma bystander_edges e :
  ~ In (o_src e) (account_ids (from_address data) g') ->
  ~ In (o_src e) (account_ids (to_address data) g') ->
  (In e (owned g') <-> In e (owned g)).
Proof.
  intros Hf Ht. rewrite insert_owned_as_merges. unfold query1_owned.
  destruct (list_prod (account_ids (from_address data) g') N) as [|row rows] eqn:E;
    [reflexivity|]. rewrite <- E.
  assert (Kf : ~ In (edge_key e) (list_prod (account_ids (from_address data) g') N)).
  { unfold edge_key. intros H. apply in_prod_iff in H as [H _]. contradiction. }
  assert (Kt : ~ In (edge_key e) (list_prod (account_ids (to_address data) g') N)).
  { unfold edge_key. intros H. apply in_prod_iff in H as [H _]. contradiction. }
  split.
  - intros Hin.
    apply (merge_all_in _ _ (open_key ts) (open_create_key ts) (fun _ => True)) in Hin;
      [| intros; exact I | intros; exact I].
    destruct Hin as [[Hin _]|[_ Hin]]; [contradiction|].
    apply (merge_all_in _ _ (close_key ts) (close_create_key ts) (fun _ => True)) in Hin;
      [| intros; exact I | intros; exact I].
    destruct Hin as [[Hin _]|[_ Hin]]; [contradiction | exact Hin].
  - intros Hin. apply merge_all_stays; [|exact Kt]. now apply merge_all_stays.
Qed.

End Handover.

(** C2, as the code has it.  An event whose identifier and collection
    match an NFT node closes (not currently owned, until the event's
    timestamp) the OWNED relationship to that NFT of every account with
    its from address, whoever holds the NFT, and opens (currently owned,
    from the event's timestamp, until 0) that of every account with its
    to address; an account with both addresses ends open.  The OWNED
    relationships of every other account, the holder's among them, are
    left as they are.  So, on a graph without parallel OWNED
    relationships, a sequence of events keeps at most one currently-owned
    relationship per NFT when each event finds every current holder of
    its NFT among the accounts with its from or to address, and its to
    address has one Account node after the upsert. *)
Theorem succession_of_chained_events :
  (forall data g n,
     In n (nft_ids (ref_identifier (nft data)) (ref_collection (nft data)) g) ->
     let g' := insert_new_trx_data data g in
     (forall y, In y (account_ids (from_address data) g') ->
        ~ In y (account_ids (to_address data) g') ->
        (exists e, In e (owned g') /\ edge_key e = (y, n)) /\
        (forall e, In e (owned g') -> edge_key e = (y, n) ->
           currently_owned e = false /\ owned_until e = event_timestamp data)) /\
     (forall x, In x (account_ids (to_address data) g') ->
        (exists e, In e (owned g') /\ edge_key e = (x, n)) /\
        (forall e, In e (owned g') -> edge_key e = (x, n) ->
           currently_owned e = true /\ owned_from e = Some (event_timestamp data) /\
           owned_until e = 0))) /\
  (forall data g e,
     let g' := insert_new_trx_data data g in
     ~ In (o_src e) (account_ids (from_address data) g') ->
     ~ In (o_src e) (account_ids (to_address data) g') ->
     (In e (owned g') <-> In e (owned g))) /\
  (forall events g,
     succession g -> simple_owned g -> well_chained events g ->
     succession (insert_all events g)).
Proof.
  split; [|split].
  - intros data g n Hn g'. split.
    + intros y Hy Hnot. now apply sender_edges.
    + intros x Hx. now apply receiver_edges.
  - intros data g e g'. apply bystander_edges.
  - induction events as [|data rest IH]; intros g Hs Hsimple Hc; simpl in *; [exact Hs|].
    destruct Hc as (Hsole & Hheld & Hrest).
    apply IH; [now apply succession_step | now apply insert_simple | exact Hrest].
Qed.

Lemma succession_of_chained_events_witness :
  succession (insert_all [Samples.a_to_b; Samples.b_to_c] Samples.fresh) /\
  (forall e, In e (owned (insert_new_trx_data Samples.a_to_b Samples.fresh)) ->
     edge_key e = (2%nat, 0%nat) -> currently_owned e = false /\ owned_until e = 5) /\
  (forall e, In e (owned (insert_new_trx_data Samples.a_to_b Samples.fresh)) ->
     edge_key e = (1%nat, 0%nat) ->
     currently_owned e = true /\ owned_from e = Some 5 /\ owned_until e = 0).
Proof.
  destruct succession_of_chained_events as (Hevent & _ & Hchain).
  destruct (Hevent Samples.a_to_b Samples.fresh 0%nat) as [Hfrom Hto];
    [vm_compute; now left|].
  split; [|split].
  - apply Hchain.
    + intros n. simpl. lia.
    + constructor.
    + simpl. repeat split; vm_compute; reflexivity.
  - apply (Hfrom 2%nat).
    + vm_compute. now left.
    + vm_compute. intros [H|[]]. discriminate.
  - apply (Hto 1%nat). vm_compute. now left.
Defined.

(** When the event's identifier and collection match an NFT node, then
    after the event every Account node with the to address has an OWNED
    relationship to that NFT, and each such relationship is flagged
    currently owned, from the event's timestamp, until 0; every Account
    node with the from address that is not one with the to address has an
    OWNED relationship to the NFT too, flagged not currently owned, until
    the event's timestamp. *)
Theorem ownership_handed_over data g n :
  In n (nft_ids (ref_identifier (nft data)) (ref_collection (nft data)) g) ->
  let g' := insert_new_trx_data data g in
  (forall x, In x (account_ids (to_address data) g') ->
     (exists e, In e (owned g') /\ edge_key e = (x, n)) /\
     (forall e, In e (owned g') -> edge_key e = (x, n) ->
        currently_owned e = true /\ owned_from e = Some (event_timestamp data) /\
        owned_until e = 0)) /\
  (forall y, In y (account_ids (from_address data) g') ->
     ~ In y (account_ids (to_address data) g') ->
     (exists e, In e (owned g') /\ edge_key e = (y, n)) /\
     (forall e, In e (owned g') -> edge_key e = (y, n) ->
        currently_owned e = false /\ owned_until e = event_timestamp data)).
Proof.
  intros Hn g'. split.
  - intros x Hx. now apply receiver_edges.
  - intros y Hy Hnot. now apply sender_edges.
Qed.

Lemma ownership_handed_over_witness :
  let g' := insert_new_trx_data Samples.b_to_c Samples.fresh in
  (forall x, In x (account_ids "0xC" g') ->
     (exists e, In e (owned g') /\ edge_key e = (x, 0%nat)) /\
     (forall e, In e (owned g') -> edge_key e = (x, 0%nat) ->
        currently_owned e = true /\ owned_from e = Some 10 /\ owned_until e = 0)) /\
  (forall y, In y (account_ids "0xB" g') ->
     ~ In y (account_ids "0xC" g') ->
     (exists e, In e (owned g') /\ edge_key e = (y, 0%nat)) /\
     (forall e, In e (owned g') -> edge_key e = (y, 0%nat) ->
        currently_owned e = false /\ owned_until e = 10)).
Proof.
  apply (ownership_handed_over Samples.b_to_c Samples.fresh 0%nat).
  vm_compute. now left.
Defined.

(** An event changes no OWNED relationship into an NFT node that its
    identifier and collection do not match. *)
Theorem other_nfts_untouched data g m :
  ~ In m (nft_ids (ref_identifier (nft data)) (ref_collection (nft data)) g) ->
  owned_into m (insert_new_trx_data data g) = owned_into m g.
Proof. apply other_nft_edges. Qed.

Lemma other_nfts_untouched_witness :
  owned_into 1 (insert_new_trx_data Samples.b_to_c Samples.held43)
  = [mkOwned 3 1 false None 3; mkOwned 2 1 true (Some 3) 0].
Proof.
  rewrite (other_nfts_untouched Samples.b_to_c Samples.held43 1).
  - vm_compute. reflexivity.
  - vm_compute. intros [H|[]]. discriminate.
Defined.

(** An event whose identifier and collection match no NFT node leaves
    the OWNED relationships as they are; its Account nodes and its
    TRANSACTED relationship are created all the same. *)
Theorem unknown_nft_recorded_without_owner data g :
  nft_ids (ref_identifier (nft data)) (ref_collection (nft data)) g = [] ->
  owned (insert_new_trx_data data g) = owned g /\
  (1 <= count_accounts (from_address data) (insert_new_trx_data data g))%nat /\
  (1 <= count_accounts (to_address data) (insert_new_trx_data data g))%nat /\
  (count_transacted (transaction data) (ref_identifier (nft data)) g
   < count_transacted (transaction data) (ref_identifier (nft data))
       (insert_new_trx_data data g))%nat.
Proof.
  intros HN.
  destruct (query0_present (to_address data) (from_address data) g) as [Hf Ht].
  rewrite <- (count_accounts_same (from_address data) _ _ (insert_accounts data g)) in Hf.
  rewrite <- (count_accounts_same (to_address data) _ _ (insert_accounts data g)) in Ht.
  repeat split; [| exact Hf | exact Ht |].
  - rewrite insert_owned_as_merges, HN. unfold query1_owned.
    destruct (account_ids (from_address data) (insert_new_trx_data data g)) as [|y ys];
      [reflexivity|].
    assert (E : list_prod (y :: ys) (@nil nat) = []).
    { induction (y :: ys) as [|z zs IH]; [reflexivity | exact IH]. }
    now rewrite E.
  - rewrite insert_count. nia.
Qed.

Lemma unknown_nft_recorded_without_owner_witness :
  let g := mkGraph [] [Samples.ape43] [] [] 2 in
  owned (insert_new_trx_data Samples.a_to_b g) = owned g /\
  (1 <= count_accounts "0xA" (insert_new_trx_data Samples.a_to_b g))%nat /\
  (1 <= count_accounts "0xB" (insert_new_trx_data Samples.a_to_b g))%nat /\
  (count_transacted "0xh0" "42" g
   < count_transacted "0xh0" "42" (insert_new_trx_data Samples.a_to_b g))%nat.
Proof.
  apply (unknown_nft_recorded_without_owner Samples.a_to_b (mkGraph [] [Samples.ape43] [] [] 2)).
  reflexivity.
Defined.

End GraphMoreFacts.

(** ** More facts about the readers *)

Module ReaderMoreFacts.
Import Graph Store CommunityDetection CommunityLogic Summary CatalogFacts CommunityFacts
  ReaderFacts.

(** *** The projection of the single-community reader *)

(** The single-community reader, for a known scope and collection: a
    projection named tempGraph left in the catalog is dropped first; a
    community without nodes is rejected before a projection is created;
    otherwise the node count is returned with the engine's nodes cut by
    LIMIT.  tempGraph is in the catalog afterwards exactly when the call
    ended with an exception of the scoring or of LIMIT; every other
    projection, the graph and the summary records are as before. *)
Theorem temp_graph_lifetime {U : Casing} eng community_id scope collection limit d k c :
  get_scope scope = Ok k -> CommunityLogic.get_collection collection = Ok c ->
  let out := get_single_community eng community_id scope collection limit d in
  let n := node_count (c +:+ "_com_id_list") k community_id (graph d) in
  graph (snd out) = graph d /\ infos (snd out) = infos d /\
  (forall name, name <> "tempGraph" ->
     str_in name (catalog (snd out)) = str_in name (catalog d)) /\
  (n = 0%nat ->
     fst out = Raise (NotExistsException "the collection with this id does not exist") /\
     str_in "tempGraph" (catalog (snd out)) = false) /\
  (n <> 0%nat ->
     fst out = (nodes ← degree_stream eng "tempGraph" ≫= limit_clause limit; Ok (n, nodes)) /\
     str_in "tempGraph" (catalog (snd out)) = negb (is_ok (fst out))).
Proof.
  intros Hs Hc out n. unfold out. rewrite (single_community_run _ _ _ _ _ _ _ _ Hs Hc).
  cbn zeta. fold n. destruct (Nat.eqb_spec n 0) as [E|E].
  - cbn [fst snd graph infos catalog with_catalog]. repeat split.
    + intros name Hname. now apply without_other.
    + apply without_gone.
    + contradiction.
    + contradiction.
  - destruct (degree_stream eng "tempGraph" ≫= limit_clause limit) as [nodes|e];
      cbn [fst snd graph infos catalog with_catalog is_ok negb mbind result_bind];
      repeat split; try contradiction.
    + intros name Hname. now apply without_other.
    + apply without_gone.
    + intros name Hname. rewrite str_in_app, without_other by exact Hname.
      cbn [str_in existsb]. destruct (String.eqb_spec name "tempGraph");
        [contradiction | now rewrite !Bool.orb_false_r].
    + apply created_present.
Qed.

Lemma temp_graph_lifetime_witness :
  let out := get_single_community (U := Samples.ascii_casing) Samples.failing_engine 1
               "ownership" ["boredapes"] 10 Samples.store in
  graph (snd out) = Samples.members /\
  str_in "tempGraph" (catalog (snd out)) = true /\
  is_ok (fst out) = false.
Proof.
  destruct (temp_graph_lifetime (U := Samples.ascii_casing) Samples.failing_engine 1
              "ownership" ["boredapes"] 10 Samples.store 0%nat "boredapeyachtclub"
              eq_refl eq_refl)
    as (Hg & _ & _ & _ & Hrun).
  destruct Hrun as [Hout Hcat]; [vm_compute; discriminate|].
  split; [exact Hg|]. rewrite Hcat, Hout. split; reflexivity.
Defined.

(** *** The collection lists the readers accept *)

Lemma map_upper_plain {U : Casing} l :
  forallb plain l = true -> map upper l = map ascii_upper l.
Proof.
  induction l as [|x l IH]; cbn [forallb map]; [reflexivity|].
  intros H. apply andb_prop in H as [Hx Hl]. now rewrite (upper_plain x Hx), IH.
Qed.

Lemma community_pick {U : Casing} collection :
  CommunityLogic.get_collection collection
  = Summary.pick "boredapeyachtclub" "degods" "complete" (map upper collection).
Proof. reflexivity. Qed.

Lemma centrality_pick {U : Casing} collection :
  Centrality.get_collection collection
  = Summary.pick "boredapeyachtclub" "degods-eth" EmptyString (map upper collection).
Proof. reflexivity. Qed.

Lemma pick_rev bored degods both l :
  Summary.pick bored degods both (rev l) = Summary.pick bored degods both l.
Proof.
  destruct l as [|a [|b [|x rest]]]; try reflexivity.
  - cbn [rev app Summary.pick str_in existsb].
    now rewrite !Bool.orb_false_r, (Bool.orb_comm (String.eqb "BOREDAPES" b)),
      (Bool.orb_comm (String.eqb "DEGODS" b)).
  - destruct (rev (a :: b :: x :: rest)) as [|a' [|b' [|x' rest']]] eqn:R; try reflexivity;
      apply (f_equal (@length _)) in R; rewrite length_rev in R; discriminate.
Qed.

Lemma pick_known {U : Casing} bored degods both collection :
  is_ok (Summary.pick bored degods both (map upper collection)) = true
  <-> known_collection collection.
Proof.
  unfold known_collection. cbn zeta.
  destruct (map upper collection) as [|a [|b [|x rest]]]; cbn [Summary.pick].
  - split; [discriminate|]. intros [H|[H|(H & _)]]; discriminate.
  - destruct (String.eqb_spec a "BOREDAPES") as [->|Na]; [split; auto|].
    destruct (String.eqb_spec a "DEGODS") as [->|Nd]; [split; auto|].
    split; [discriminate|]. intros [H|[H|(H & _)]]; [congruence | congruence | discriminate].
  - destruct (str_in "BOREDAPES" [a; b]) eqn:E1; cbn [andb].
    + destruct (str_in "DEGODS" [a; b]) eqn:E2.
      * split; [|reflexivity]. intros _. right. right.
        apply str_in_In in E1, E2. auto.
      * split; [discriminate|]. intros [H|[H|(_ & _ & H)]]; try discriminate.
        apply str_in_In in H. congruence.
    + split; [discriminate|]. intros [H|[H|(_ & H & _)]]; try discriminate.
      apply str_in_In in H. congruence.
  - split; [discriminate|]. intros [H|[H|(H & _)]]; discriminate.
Qed.

(** Both [get_collection] readers accept exactly the lists whose
    upper-case form ([str.upper] of each name) is BOREDAPES alone, DEGODS
    alone, or two names with both among them; their answer does not
    depend on the order of the names.  A list of ASCII names is judged by
    the names with a-z turned into A-Z. *)
Theorem collection_lists_accepted {U : Casing} collection :
  (is_ok (CommunityLogic.get_collection collection) = true <-> known_collection collection) /\
  (is_ok (Centrality.get_collection collection) = true <-> known_collection collection) /\
  CommunityLogic.get_collection (rev collection) = CommunityLogic.get_collection collection /\
  Centrality.get_collection (rev collection) = Centrality.get_collection collection /\
  (forallb plain collection = true ->
   CommunityLogic.get_collection collection
   = Summary.pick "boredapeyachtclub" "degods" "complete" (map ascii_upper collection) /\
   Centrality.get_collection collection
   = Summary.pick "boredapeyachtclub" "degods-eth" EmptyString (map ascii_upper collection)).
Proof.
  rewrite !community_pick, !centrality_pick, !map_rev, !pick_rev.
  repeat split; try apply pick_known; try (intros H; now apply pick_known in H);
    now rewrite (map_upper_plain _ H).
Qed.

(** *** Reading back the summary a detection run wrote *)

Lemma info_nonempty idList c scope d d' :
  update_community_id_info idList c scope d = (Ok tt, d') -> infos d' <> [].
Proof.
  unfold update_community_id_info. destruct (infos d) as [|record rest]; [discriminate|].
  destruct (record !! id_list c) as [arr|]; [|discriminate].
  destruct (scope <? length arr)%nat; [|discriminate].
  intros H. inversion H. discriminate.
Qed.

Lemma detect_nonempty eng limit c suffix scope d d' :
  detect eng limit c suffix scope d = (Ok tt, d') -> infos d' <> [].
Proof.
  unfold detect, mbind, M_bind.
  destruct (com_query eng (c +:+ suffix) limit d) as [[rows|e] d1]; [|discriminate].
  destruct (for_each _ rows d1) as [[u|e] d2]; [|discriminate].
  apply info_nonempty.
Qed.

Lemma detection_nonempty eng limit c d d' :
  update_community_detection eng limit c d = (Ok tt, d') -> infos d' <> [].
Proof.
  unfold update_community_detection, mbind, M_bind.
  destruct (detect eng limit c "_owned" 0 d) as [[u|e] d1]; [|discriminate].
  destruct (detect eng limit c "_trx" 1 d1) as [[u'|e] d2]; [|discriminate].
  apply detect_nonempty.
Qed.

(** What a detection run writes, the summary reader reads back: after a
    run on a ready database, the reader's selection for a scope label and
    a bound is the Python slice, up to the bound, of the ids of the
    communities the run's query returned for the projection of that
    scope, largest first.  The collection list of the reader has to name
    the collection of the run. *)
Theorem summary_read_back {U : Casing} eng limit c d collection bound label suffix scope :
  ready eng limit c d = true ->
  CommunityLogic.get_collection collection = Ok (get_processed_collection_name c) ->
  In (label, (suffix, scope)) scope_projection ->
  exists d' records,
    update_community_detection eng limit c d = (Ok tt, d') /\
    louvain_stream eng (c +:+ suffix) = Ok records /\
    selected_community_ids bound label collection d'
    = (Ok (slice_to bound (map communityId (query_rows limit records))), d').
Proof.
  intros Hready Hc Hin.
  destruct (detection_completes _ _ _ _ Hready) as [d' Hrun].
  destruct (get_scope_labels _ _ _ Hin) as [Hs Hlabel].
  destruct (detection_written _ _ _ _ _ Hrun _ _ Hs) as (rows & Hq & _ & Hsum).
  destruct (com_query_rows _ _ _ _ _ Hq) as (records & Hrec & ->).
  exists d', records. split; [exact Hrun|]. split; [exact Hrec|].
  unfold selected_community_ids.
  unfold mbind at 1, M_bind at 1, lift at 1. rewrite Hlabel.
  unfold mbind at 1, M_bind at 1, lift at 1. rewrite Hc.
  unfold biggest_communities.
  pose proof (detection_nonempty _ _ _ _ _ Hrun) as Hne.
  destruct (infos d') as [|record rest]; [contradiction|].
  specialize (Hsum record (or_introl eq_refl)). unfold summary, id_list in Hsum.
  destruct (record !! (get_processed_collection_name c +:+ "_id_list")) as [arr|];
    [|discriminate]. cbn in Hsum. now rewrite Hsum.
Qed.

Lemma summary_read_back_witness :
  fst (selected_community_ids (U := Samples.ascii_casing) (-1) "ownership" ["BoredApes"]
         (snd (update_community_detection Samples.five_engine 3 "boredapeyachtclub"
                 Samples.five_store)))
  = Ok [64; 65].
Proof.
  destruct (summary_read_back (U := Samples.ascii_casing) Samples.five_engine 3
              "boredapeyachtclub" Samples.five_store
              ["BoredApes"] (-1) "ownership" "_owned" 0%nat)
    as (d' & records & Hrun & Hrec & Hsel).
  - vm_compute. reflexivity.
  - reflexivity.
  - now left.
  - rewrite Hrun. cbn [snd]. rewrite Hsel. cbn [fst].
    vm_compute in Hrec. injection Hrec as <-. vm_compute. reflexivity.
Defined.

End ReaderMoreFacts.

(** ** More facts about the detection run *)

Module CommunityMoreFacts.
Import Graph Store CommunityDetection DetectionViews CatalogFacts CommunityFacts.

(** *** What a detection run leaves alone *)

Section Frame.

Variable c : string.

Lemma only_refl d : only_memberships c d d.
Proof. now split. Qed.

Lemma only_trans d1 d2 d3 :
  only_memberships c d1 d2 -> only_memberships c d2 d3 -> only_memberships c d1 d3.
Proof.
  intros [S1 P1] [S2 P2]. split; [congruence|].
  intros p v Hp. now rewrite P2, P1.
Qed.

Lemma only_same_graph d d' : graph d' = graph d -> only_memberships c d d'.
Proof. intros H. unfold only_memberships. rewrite H. now split. Qed.

Lemma framed_bind {A B : Type} (m : M A) (k : A -> M B) :
  framed c m -> (forall a, framed c (k a)) -> framed c (m ≫= k).
Proof.
  intros Hm Hk d. unfold mbind, M_bind. specialize (Hm d).
  destruct (m d) as [[a|e] d1]; cbn [snd] in *; [|exact Hm].
  eapply only_trans; [exact Hm | apply Hk].
Qed.

Lemma framed_ret {A : Type} (a : A) : framed c (mret a).
Proof. intros d. apply only_refl. Qed.

Lemma framed_lift {A : Type} (r : result A) : framed c (lift r).
Proof. intros d. apply only_refl. Qed.

Lemma framed_list : framed c graph_list.
Proof. intros d. apply only_refl. Qed.

Lemma framed_drop name : framed c (graph_drop name).
Proof.
  intros d. unfold graph_drop. destruct (str_in name (catalog d)); now apply only_same_graph.
Qed.

Lemma framed_project name : framed c (graph_project name).
Proof.
  intros d. unfold graph_project. destruct (str_in name (catalog d)); now apply only_same_graph.
Qed.

Lemma framed_stream {A : Type} (algo : string -> result A) name : framed c (stream algo name).
Proof. intros d. unfold stream. destruct (str_in name (catalog d)); apply only_refl. Qed.

Lemma framed_for_each {A : Type} (body : A -> M unit) xs :
  (forall x, framed c (body x)) -> framed c (for_each body xs).
Proof.
  intros H. induction xs as [|x xs IH]; cbn [for_each]; [apply framed_ret|].
  apply framed_bind; [apply H | intros _; exact IH].
Qed.

Lemma map_key_same {A B : Type} (key : A -> B) (f : A -> A) (l : list A) :
  (forall a, key (f a) = key a) -> map key (map f l) = map key l.
Proof. intros H. rewrite map_map. apply map_ext. exact H. Qed.

Lemma skeleton_set p v value g : skeleton (set_node_property p v value g) = skeleton g.
Proof.
  unfold skeleton, set_node_property. cbn [accounts nfts owned transacted next_id].
  rewrite (map_key_same (fun a => (acc_id a, address a)))
    by (intros a; now destruct (acc_id a =? v)%nat).
  rewrite (map_key_same (fun n => (nft_id n, identifier n, collection_name n, updated_at n)))
    by (intros n; now destruct (nft_id n =? v)%nat).
  reflexivity.
Qed.

Lemma skeleton_updates p updates : forall g,
  skeleton (update_node_properties updates p g) = skeleton g.
Proof.
  unfold update_node_properties.
  induction updates as [|u updates IH]; intros g; cbn [fold_left]; [reflexivity|].
  now rewrite IH, skeleton_set.
Qed.

Lemma framed_members cid nodes scope :
  framed c (update_nodes_com_property c cid nodes scope).
Proof.
  intros d. unfold update_nodes_com_property.
  destruct (node_updates (com_id_list c) scope cid nodes (graph d)) as [updates|e];
    [|apply only_refl].
  split; cbn [snd graph with_graph].
  - apply skeleton_updates.
  - intros p v Hp. apply updates_frame. right. congruence.
Qed.

Lemma framed_info idList scope : framed c (update_community_id_info idList c scope).
Proof.
  intros d. unfold update_community_id_info.
  destruct (infos d) as [|record rest]; [apply only_refl|].
  destruct (record !! id_list c) as [arr|]; [|apply only_refl].
  destruct (scope <? length arr)%nat; [now apply only_same_graph | apply only_refl].
Qed.

Lemma framed_detect eng limit suffix scope : framed c (detect eng limit c suffix scope).
Proof.
  unfold detect. apply framed_bind.
  - unfold com_query. apply framed_bind; [apply framed_stream|].
    intros records. destruct (limit =? 0)%Z; [apply framed_ret | apply framed_lift].
  - intros rows. apply framed_bind; [|intros _; apply framed_info].
    apply framed_for_each. intros row. apply framed_members.
Qed.

Lemma framed_detection eng limit : framed c (update_community_detection eng limit c).
Proof.
  unfold update_community_detection.
  repeat (apply framed_bind; [apply framed_detect | intros _]). apply framed_detect.
Qed.

Lemma framed_projection name : framed c (update_project_graph name).
Proof.
  unfold update_project_graph.
  apply framed_bind; [apply framed_list | intros names].
  apply framed_bind; [apply framed_for_each; intros; apply framed_drop | intros _].
  repeat (apply framed_bind; [apply framed_project | intros _]). apply framed_project.
Qed.

Lemma framed_run eng cache limit d :
  only_memberships c d (snd (run_community_detection eng cache limit c d)).
Proof.
  unfold run_community_detection.
  assert (H : framed c (_ ← (if String.eqb c "complete" then update_project_graph_complete
                           else update_project_graph c);
                      _ ← update_community_detection eng limit c;
                      lift cache)).
  { apply framed_bind; [|intros _].
    - destruct (String.eqb c "complete"); apply framed_projection.
    - apply framed_bind; [apply framed_detection | intros _; apply framed_lift]. }
  specialize (H d).
  destruct ((_ ← (if String.eqb c "complete" then update_project_graph_complete
                  else update_project_graph c);
             _ ← update_community_detection eng limit c;
             lift cache) d) as [[u|e] d']; exact H.
Qed.

End Frame.

(** A detection run, whether it completes or not, changes nothing but
    values of the membership property of its collection: the Account and
    NFT nodes keep their ids, addresses, identifiers, collection names
    and synchronisation times, the OWNED and TRANSACTED relationships are
    the same, and every other property of every node reads as before. *)
Theorem detection_changes_memberships_only eng cache limit c d :
  let d' := snd (run_community_detection eng cache limit c d) in
  skeleton (graph d') = skeleton (graph d) /\
  forall p v, p <> com_id_list c ->
    node_property p v (graph d') = node_property p v (graph d).
Proof. apply framed_run. Qed.

(** *** One community at a time *)

Lemma node_updates_raise p scope cid g nodes e :
  node_updates p scope cid nodes g = Raise e ->
  exists v, In v nodes /\ assign_slot scope cid (node_property p v g) = Raise e.
Proof.
  induction nodes as [|v rest IH]; cbn [node_updates]; [discriminate|].
  unfold mbind, result_bind.
  destruct (assign_slot scope cid (node_property p v g)) as [value|e'] eqn:E.
  - destruct (node_updates p scope cid rest g) as [more|e'] eqn:E'; [discriminate|].
    intros H. inversion H. subst e'. destruct (IH eq_refl) as (v' & Hin & Hv').
    exists v'. split; [now right | exact Hv'].
  - intros H. inversion H. subst e'. exists v. split; [now left | exact E].
Qed.

(** The membership of one community is written for all of its nodes or
    for none: the new arrays are built for every node before the first is
    written.  When the call returns, every listed node carries the
    community id in the slot of the scope; when a listed node has no
    membership array or an array without that slot, the call raises and
    the database is as before. *)
Theorem members_all_or_none c cid nodes scope d :
  match update_nodes_com_property c cid nodes scope d with
  | (Ok _, d') =>
    forall v, In v nodes -> membership c v scope (graph d') = Some cid
  | (Raise e, d') =>
    d' = d /\
    exists v, In v nodes /\
      assign_slot scope cid (node_property (com_id_list c) v (graph d)) = Raise e
  end.
Proof.
  destruct (update_nodes_com_property c cid nodes scope d) as [[[]|e] d'] eqn:E.
  - now destruct (members_written _ _ _ _ _ _ E) as (_ & H & _).
  - unfold update_nodes_com_property in E.
    destruct (node_updates (com_id_list c) scope cid nodes (graph d)) as [updates|e'] eqn:Eu;
      [discriminate|].
    inversion E. subst. split; [reflexivity|]. now apply node_updates_raise.
Qed.

(** *** A run that fails at the second scope *)

Lemma shaped_same c d d' : infos d = infos d' -> shaped c d -> shaped c d'.
Proof. unfold shaped. now intros ->. Qed.

Lemma projection_choice c :
  (if String.eqb c "complete" then update_project_graph_complete else update_project_graph c)
  = update_project_graph c.
Proof. destruct (String.eqb_spec c "complete") as [->|]; reflexivity. Qed.

(** The writes of a detection run are not undone when a later scope
    fails: if the engine answers for the ownership projection and raises
    for the transaction projection, the run returns the failure message,
    and slot 0 of the membership arrays and of the summary holds the
    communities found for the ownership projection.  The cache deletion
    is not reached. *)
Theorem failed_scope_keeps_earlier_writes eng cache limit c d records e :
  List.NoDup (catalog d) -> (0 <= limit)%Z ->
  louvain_stream eng (c +:+ "_owned") = Ok records ->
  (forall p, In p records -> has_slots c (graph d) (fst p) = true) ->
  shaped c d ->
  louvain_stream eng (c +:+ "_trx") = Raise e ->
  let out := run_community_detection eng cache limit c d in
  fst out = "Something went wrong QAQ" /\
  (forall v cid, assigned v (query_rows limit records) = Some cid ->
     membership c v 0 (graph (snd out)) = Some cid) /\
  (forall record, In record (infos (snd out)) ->
     summary c 0 record = Some (map communityId (query_rows limit records))).
Proof.
  intros Hnd Hlimit Hrec Hslots Hshape Hfail out.
  set (d1 := with_catalog [c +:+ "_owned"; c +:+ "_trx"; c +:+ "_owned_trx"] d).
  destruct (detect_ok eng limit c "_owned" 0%nat records d1) as (d2 & Hrun & Hcat & _ & _);
    [lia | exact Hlimit | | exact Hrec | exact Hslots | exact Hshape |].
  { unfold d1. cbn [catalog with_catalog str_in existsb]. now rewrite String.eqb_refl. }
  destruct (detect_written _ _ _ _ _ _ _ Hrun) as (rows & Hq & _ & Hm & _ & Hsum & _).
  destruct (com_query_rows _ _ _ _ _ Hq) as (records' & Hrec' & ->).
  assert (records' = records) by congruence. subst records'.
  assert (Hsecond : detect eng limit c "_trx" 1 d2 = (Raise e, d2)).
  { unfold detect, mbind, M_bind. rewrite com_query_run, Hcat. unfold d1.
    cbn [catalog with_catalog str_in existsb]. rewrite String.eqb_refl, Bool.orb_true_r.
    now rewrite Hfail. }
  assert (Hout : out = ("Something went wrong QAQ", d2)).
  { unfold out, run_community_detection. rewrite projection_choice.
    unfold mbind at 1, M_bind at 1. rewrite update_project_graph_run by exact Hnd.
    fold d1. unfold update_community_detection, mbind, M_bind.
    now rewrite Hrun, Hsecond. }
  rewrite Hout. cbn [fst snd]. repeat split.
  - intros v cid Ha. now rewrite Hm, Ha.
  - exact Hsum.
Qed.

Lemma failed_scope_keeps_earlier_writes_witness :
  let eng := mkEngine (fun name => if String.eqb name "boredapeyachtclub_owned"
                                   then Ok [(1%nat, 70); (10%nat, 70); (2%nat, 71)]
                                   else Raise (ClientError "out of memory"))
               (fun _ => Ok []) in
  let out := run_community_detection eng (Ok tt) 0 "boredapeyachtclub" Samples.store in
  fst out = "Something went wrong QAQ" /\
  membership "boredapeyachtclub" 10 0 (graph (snd out)) = Some 70.
Proof.
  cbn zeta.
  destruct (failed_scope_keeps_earlier_writes
              (mkEngine (fun name => if String.eqb name "boredapeyachtclub_owned"
                                     then Ok [(1%nat, 70); (10%nat, 70); (2%nat, 71)]
                                     else Raise (ClientError "out of memory"))
                 (fun _ => Ok []))
              (Ok tt) 0 "boredapeyachtclub" Samples.store
              [(1%nat, 70); (10%nat, 70); (2%nat, 71)] (ClientError "out of memory"))
    as (Hmsg & Hm & _).
  - repeat constructor; simpl; tauto.
  - lia.
  - reflexivity.
  - intros p [<-|[<-|[<-|[]]]]; reflexivity.
  - eexists _, _, _. split; [reflexivity | split; [reflexivity | simpl; lia]].
  - reflexivity.
  - split; [exact Hmsg|]. apply Hm. vm_compute. reflexivity.
Defined.

(** *** A run on a prepared database *)

(** A detection run on a prepared database (the catalog lists no
    projection twice and, once the three projections of the collection
    replace the catalog, the database is ready: the bound is not
    negative, the engine answers for the three projections with nodes
    that carry a three-slot membership array, and the first summary
    record has the three slots) gets as far as the cache deletion.  It
    returns the completion message exactly when that call returns; when
    it raises, the run returns the failure message although all was
    written: the database is left the same in both cases. *)
Theorem prepared_run_completes eng cache limit c d :
  List.NoDup (catalog d) ->
  ready eng limit c
    (with_catalog [c +:+ "_owned"; c +:+ "_trx"; c +:+ "_owned_trx"] d) = true ->
  fst (run_community_detection eng cache limit c d)
  = (if is_ok cache then "Update Completed" else "Something went wrong QAQ") /\
  exists d',
    update_community_detection eng limit c
      (with_catalog [c +:+ "_owned"; c +:+ "_trx"; c +:+ "_owned_trx"] d) = (Ok tt, d') /\
    snd (run_community_detection eng cache limit c d) = d'.
Proof.
  intros Hnd Hready. unfold run_community_detection.
  rewrite projection_choice. unfold mbind, M_bind.
  rewrite update_project_graph_run by exact Hnd.
  destruct (detection_completes _ _ _ _ Hready) as [d' Hrun]. rewrite Hrun.
  unfold lift. destruct cache as [[]|e]; cbn [fst snd is_ok]; split; eauto.
Qed.

Lemma prepared_run_completes_witness :
  fst (run_community_detection Samples.engine (Ok tt) 5 "boredapeyachtclub" Samples.store)
  = "Update Completed" /\
  fst (run_community_detection Samples.engine (Raise (ClientError "connection refused")) 5
         "boredapeyachtclub" Samples.store)
  = "Something went wrong QAQ" /\
  snd (run_community_detection Samples.engine (Raise (ClientError "connection refused")) 5
         "boredapeyachtclub" Samples.store)
  = snd (run_community_detection Samples.engine (Ok tt) 5 "boredapeyachtclub" Samples.store).
Proof.
  assert (Hnd : List.NoDup (catalog Samples.store)) by (repeat constructor; simpl; tauto).
  destruct (prepared_run_completes Samples.engine (Ok tt) 5 "boredapeyachtclub"
              Samples.store Hnd) as (H1 & d1 & R1 & S1); [vm_compute; reflexivity|].
  destruct (prepared_run_completes Samples.engine (Raise (ClientError "connection refused"))
              5 "boredapeyachtclub" Samples.store Hnd) as (H2 & d2 & R2 & S2);
    [vm_compute; reflexivity|].
  split; [exact H1|]. split; [exact H2|]. rewrite S1, S2. congruence.
Defined.

End CommunityMoreFacts.
